(** * TrajectoryPlayback: the playback scheduler of the example notebook

    A shallow embedding of the class [TrajectoryPlayback] defined in
    [examples/rosetta_interactive_sim.ipynb], together with the parts of
    the Python runtime it relies on: a [ThreadPoolExecutor] with one
    worker thread, [Future] objects, a re-entrant lock and the external
    frame publisher.

    Every method is written as a program in a small monad whose
    primitive steps are the accesses to state that threads share
    (attribute reads and writes, calls on the future, the executor, the
    lock and the publisher), so that the steps of the caller and of the
    background worker can be interleaved. *)

From Stdlib Require Import ZArith String.
From stdpp Require Import base option list strings gmap.

Open Scope Z_scope.

(** ** Values of the Python runtime *)

Definition FutureId := nat.
Definition ThreadId := nat.

(** The exceptions that can travel through the scheduler. *)
Inductive exn : Type :=
| RuntimeError (msg : string)
| IndexError
| ZeroDivisionError
| AttributeError
| CancelledError
| PublisherError (code : nat).

(** [concurrent.futures.Future]: the states of a future; a finished
    future holds either the result (always [None] for [_run]) or the
    exception its callable raised. *)
Inductive FutureState : Type :=
| PENDING
| RUNNING
| CANCELLED
| FINISHED (exception : option exn).

(** The only callable ever handed to the executor is the bound method
    [self._run]. *)
Inductive callable : Type :=
| bound_run.

(** [threading.RLock]: free, or owned by a thread that acquired it
    [S count] times. *)
Inductive RLock : Type :=
| Unlocked
| LockedBy (owner : ThreadId) (depth : nat).

(** How a call ends for its caller. *)
Inductive outcome (A : Type) : Type :=
| Returned (a : A)
| Raised (e : exn)
| Hung
| OutOfFuel.

Arguments Returned {A} a.
Arguments Raised {A} e.
Arguments Hung {A}.
Arguments OutOfFuel {A}.

(** ** Programs *)

Section Model.

Context {Frame : Type}.

(** The primitive steps.  The index is the type of the answer. *)
Inductive op : Type -> Type :=
| Get_run_task : op (option FutureId)
| Set_run_task (f : FutureId) : op unit
| Get_cancelled : op bool
| Set_cancelled (b : bool) : op unit
| Get_frame_index : op Z
| Set_frame_index (i : Z) : op unit
| Get_frames : op (list Frame)
| Future_cancelled (f : FutureId) : op bool
| Future_done (f : FutureId) : op bool
| Future_result (f : FutureId) : op unit
| Submit (c : callable) : op FutureId
| Lock_acquire : op unit
| Lock_release : op unit
| Send_frame (i : Z) (fr : Frame) : op unit
| Sleep : op unit.

(** Programs over the primitive steps: sequencing, exceptions,
    [try ... finally] (as used by [with lock:]) and [while]. *)
Inductive prog : Type -> Type :=
| Ret {A} (a : A) : prog A
| Raise {A} (e : exn) : prog A
| Prim {A} (o : op A) : prog A
| Bind {A B} (p : prog A) (k : A -> prog B) : prog B
| Finally {A} (p : prog A) (cleanup : prog unit) : prog A
| While (cond : prog bool) (body : prog unit) : prog unit.

End Model.

Arguments op : clear implicits.
Arguments prog : clear implicits.

(** Programs use stdpp's monadic notations [x ← p; q] and [p;; q]. *)
#[global] Instance prog_ret {Frame} : MRet (prog Frame) := fun A a => Ret a.
#[global] Instance prog_bind {Frame} : MBind (prog Frame) := fun A B k p => Bind p k.


(** ** The methods of [TrajectoryPlayback] *)

Section Methods.

Context {Frame : Type}.

(** [l[i]] on a Python list: a negative index counts from the end, an
    index out of range raises [IndexError]. *)
Definition py_getitem {A} (l : list A) (i : Z) : prog Frame A :=
  let n := Z.of_nat (length l) in
  let j := if i <? 0 then i + n else i in
  if (j <? 0) || (n <=? j) then Raise IndexError
  else match l !! Z.to_nat j with
       | Some x => Ret x
       | None => Raise IndexError
       end.

(** [a % b] on Python integers: floor remainder, [ZeroDivisionError]
    when [b] is zero. *)
Definition py_mod (a b : Z) : prog Frame Z :=
  if b =? 0 then Raise ZeroDivisionError else Ret (a mod b).

(** [playback_fps = 15] *)
Definition playback_fps : Z := 15.

(** [sleep(1 / playback_fps)]: the division comes first. *)
Definition sleep_one_frame : prog Frame unit :=
  if playback_fps =? 0 then Raise ZeroDivisionError else Prim Sleep.

(** [self._run_task.m()]: the attribute is read again at each use, and a
    method call on [None] raises [AttributeError]. *)
Definition the_run_task : prog Frame FutureId :=
  t ← Prim Get_run_task;
  match t with
  | None => Raise AttributeError
  | Some f => Ret f
  end.

(** [with self._cancel_lock: body] *)
Definition with_cancel_lock {A} (body : prog Frame A) : prog Frame A :=
  Prim Lock_acquire;;
  Finally body (Prim Lock_release).

(** <<
    @property
    def is_running(self):
        return self._run_task is not None and not (self._run_task.cancelled() or self._run_task.done())
    >> *)
Definition is_running : prog Frame bool :=
  t ← Prim Get_run_task;
  match t with
  | None => Ret false
  | Some _ =>
      f ← the_run_task;
      c ← Prim (Future_cancelled f);
      if (c : bool) then Ret false
      else
        f' ← the_run_task;
        d ← Prim (Future_done f');
        Ret (negb d)
  end.

(** <<
    def _step_one_frame(self):
        narupa_server.frame_publisher.send_frame(self.frame_index, self.frames[self.frame_index])
        self.frame_index = (self.frame_index + 1) % len(self.frames)
    >> *)
Definition _step_one_frame : prog Frame unit :=
  i ← Prim Get_frame_index;
  fs ← Prim Get_frames;
  j ← Prim Get_frame_index;
  fr ← py_getitem fs j;
  Prim (Send_frame i fr);;
  i' ← Prim Get_frame_index;
  fs' ← Prim Get_frames;
  n ← py_mod (i' + 1) (Z.of_nat (length fs'));
  Prim (Set_frame_index n).

(** <<
    def _run(self):
        while not self._cancelled:
            self._step_one_frame()
            sleep( 1 / playback_fps)
        self._cancelled = False
    >> *)
Definition _run : prog Frame unit :=
  While (c ← Prim Get_cancelled; Ret (negb c))
        (_step_one_frame;; sleep_one_frame);;
  Prim (Set_cancelled false).

(** <<
    def cancel_playback(self, wait=False):
        if self._run_task is None:
            return
        if self._cancelled:
            return
        self._cancelled = True
        if wait:
            self._run_task.result()
            self._cancelled = False
    >> *)
Definition cancel_playback (wait : bool) : prog Frame unit :=
  t ← Prim Get_run_task;
  match t with
  | None => Ret tt
  | Some _ =>
      c ← Prim Get_cancelled;
      if (c : bool) then Ret tt
      else
        Prim (Set_cancelled true);;
        if wait then
          f ← the_run_task;
          Prim (Future_result f);;
          Prim (Set_cancelled false)
        else Ret tt
  end.

(** <<
    def run_playback(self, block=False):
        if self.is_running:
            raise RuntimeError("The trajectory is already playing on a thread!")
        if block:
            self._run()
        else:
            self._run_task = self.threads.submit(self._run)
    >> *)
Definition run_playback (block : bool) : prog Frame unit :=
  r ← is_running;
  if (r : bool) then
    Raise (RuntimeError "The trajectory is already playing on a thread!")
  else if block then _run
  else
    f ← Prim (Submit bound_run);
    Prim (Set_run_task f).

(** <<
    def play(self):
        with self._cancel_lock:
            self.cancel_playback(wait=True)
        self.run_playback()
    >> *)
Definition play : prog Frame unit :=
  with_cancel_lock (cancel_playback true);;
  run_playback false.

(** <<
    def step(self):
        with self._cancel_lock:
            self.cancel_playback(wait=True)
            self._step_one_frame()
    >> *)
Definition step : prog Frame unit :=
  with_cancel_lock (cancel_playback true;; _step_one_frame).

(** <<
    def pause(self):
        with self._cancel_lock:
            self.cancel_playback(wait=True)
    >> *)
Definition pause : prog Frame unit :=
  with_cancel_lock (cancel_playback true).

(** <<
    def reset(self):
        self.frame_index = 0
    >> *)
Definition reset : prog Frame unit :=
  Prim (Set_frame_index 0).

(** What the executor runs for a submitted callable. *)
Definition call (c : callable) : prog Frame unit :=
  match c with
  | bound_run => _run
  end.

End Methods.

Arguments py_getitem : simpl never.
Arguments py_mod : simpl never.

(** ** The shared state and the semantics of a step *)

Section Semantics.

Context {Frame Publisher : Type}.

(** [narupa_server.frame_publisher.send_frame]: the publisher is an
    external collaborator; a call changes its state and may raise. *)
Variable send_frame : Z -> Frame -> Publisher -> Publisher * option exn.

(** [futures.ThreadPoolExecutor(max_workers=1)]: the work items not yet
    started, in submission order, and the work item the single worker
    thread is executing together with what is left of it. *)
Record Executor : Type := mkExecutor {
  queue : list (FutureId * callable);
  active : option (FutureId * prog Frame unit)
}.

(** The attributes of the [TrajectoryPlayback] object, the heap of
    futures created so far, the publisher, and the history of the
    frames the publisher accepted. *)
Record World : Type := mkWorld {
  threads : Executor;
  _run_task : option FutureId;
  _cancelled : bool;
  _cancel_lock : RLock;
  frame_index : Z;
  frames : list Frame;
  futures : gmap FutureId FutureState;
  frame_publisher : Publisher;
  sent : list (Z * Frame)
}.

Definition with_threads (x : Executor) (w : World) : World :=
  mkWorld x (_run_task w) (_cancelled w) (_cancel_lock w) (frame_index w)
          (frames w) (futures w) (frame_publisher w) (sent w).

Definition with_run_task (x : option FutureId) (w : World) : World :=
  mkWorld (threads w) x (_cancelled w) (_cancel_lock w) (frame_index w)
          (frames w) (futures w) (frame_publisher w) (sent w).

Definition with_cancelled (x : bool) (w : World) : World :=
  mkWorld (threads w) (_run_task w) x (_cancel_lock w) (frame_index w)
          (frames w) (futures w) (frame_publisher w) (sent w).

Definition with_cancel_lock_state (x : RLock) (w : World) : World :=
  mkWorld (threads w) (_run_task w) (_cancelled w) x (frame_index w)
          (frames w) (futures w) (frame_publisher w) (sent w).

Definition with_frame_index (x : Z) (w : World) : World :=
  mkWorld (threads w) (_run_task w) (_cancelled w) (_cancel_lock w) x
          (frames w) (futures w) (frame_publisher w) (sent w).

Definition with_futures (x : gmap FutureId FutureState) (w : World) : World :=
  mkWorld (threads w) (_run_task w) (_cancelled w) (_cancel_lock w)
          (frame_index w) (frames w) x (frame_publisher w) (sent w).

Definition with_publisher (x : Publisher) (s : list (Z * Frame)) (w : World) : World :=
  mkWorld (threads w) (_run_task w) (_cancelled w) (_cancel_lock w)
          (frame_index w) (frames w) (futures w) x s.

(** <<
    def __init__(self):
        self.threads = futures.ThreadPoolExecutor(max_workers=1)
        self._run_task = None
        self._cancelled = False
        self._cancel_lock = RLock()
        self.frame_index = 0
        self.frames = all_framedata
    >> *)
Definition __init__ (all_framedata : list Frame) (narupa_server : Publisher) : World :=
  {| threads := mkExecutor [] None;
     _run_task := None;
     _cancelled := false;
     _cancel_lock := Unlocked;
     frame_index := 0;
     frames := all_framedata;
     futures := ∅;
     frame_publisher := narupa_server;
     sent := [] |}.

(** The state of the future behind a handle. *)
Definition future_state (w : World) (f : FutureId) : option FutureState :=
  futures w !! f.

(** [Future.cancelled()] and [Future.done()] *)
Definition future_cancelled (w : World) (f : FutureId) : bool :=
  match future_state w f with
  | Some CANCELLED => true
  | _ => false
  end.

Definition future_done (w : World) (f : FutureId) : bool :=
  match future_state w f with
  | Some CANCELLED | Some (FINISHED _) => true
  | _ => false
  end.

(** One primitive step of thread [me].  [None]: the step cannot be
    taken now (the thread is blocked); otherwise the exception raised or
    the answer, and the new state. *)
Definition do_op (me : ThreadId) {A} (o : op Frame A) (w : World)
  : option ((exn + A) * World) :=
  match o in op _ A return option ((exn + A) * World) with
  | Get_run_task => Some (inr (_run_task w), w)
  | Set_run_task f => Some (inr tt, with_run_task (Some f) w)
  | Get_cancelled => Some (inr (_cancelled w), w)
  | Set_cancelled b => Some (inr tt, with_cancelled b w)
  | Get_frame_index => Some (inr (frame_index w), w)
  | Set_frame_index i => Some (inr tt, with_frame_index i w)
  | Get_frames => Some (inr (frames w), w)
  | Future_cancelled f => Some (inr (future_cancelled w f), w)
  | Future_done f => Some (inr (future_done w f), w)
  | Future_result f =>
      match future_state w f with
      | Some (FINISHED None) => Some (inr tt, w)
      | Some (FINISHED (Some e)) => Some (inl e, w)
      | Some CANCELLED => Some (inl CancelledError, w)
      | Some PENDING | Some RUNNING | None => None
      end
  | Submit c =>
      let f := fresh (dom (futures w)) in
      Some (inr f,
            with_threads (mkExecutor (queue (threads w) ++ [(f, c)])
                                     (active (threads w)))
              (with_futures (<[f := PENDING]> (futures w)) w))
  | Lock_acquire =>
      match _cancel_lock w with
      | Unlocked => Some (inr tt, with_cancel_lock_state (LockedBy me 0) w)
      | LockedBy owner depth =>
          if decide (owner = me)
          then Some (inr tt, with_cancel_lock_state (LockedBy me (S depth)) w)
          else None
      end
  | Lock_release =>
      match _cancel_lock w with
      | LockedBy owner depth =>
          if decide (owner = me)
          then Some (inr tt,
                     with_cancel_lock_state
                       (match depth with O => Unlocked | S d => LockedBy me d end) w)
          else Some (inl (RuntimeError "cannot release un-acquired lock"), w)
      | Unlocked => Some (inl (RuntimeError "cannot release un-acquired lock"), w)
      end
  | Send_frame i fr =>
      match send_frame i fr (frame_publisher w) with
      | (pub, None) => Some (inr tt, with_publisher pub (sent w ++ [(i, fr)]) w)
      | (pub, Some e) => Some (inl e, with_publisher pub (sent w) w)
      end
  | Sleep => Some (inr tt, w)
  end.

(** A program that has nothing left to do: its value or exception. *)
Definition result_of {A} (p : prog Frame A) : option (exn + A) :=
  match p with
  | Ret a => Some (inr a)
  | Raise e => Some (inl e)
  | _ => None
  end.

(** [p] followed by [k]: a finished [p] hands its value to [k], or its
    exception to the caller. *)
Definition then_ {A B} (p : prog Frame A) (k : A -> prog Frame B) : prog Frame B :=
  match result_of p with
  | Some (inr a) => k a
  | Some (inl e) => Raise e
  | None => Bind p k
  end.

(** [p] under [try: ... finally: cleanup]. *)
Definition ensure {A} (p : prog Frame A) (cleanup : prog Frame unit) : prog Frame A :=
  match result_of p with
  | Some (inr a) => Bind cleanup (fun _ => Ret a)
  | Some (inl e) => Bind cleanup (fun _ => Raise e)
  | None => Finally p cleanup
  end.

(** One step of a program run by thread [me]: the next primitive step
    of the program is taken and its answer passed on.  [None] when the
    program is finished or blocked. *)
Fixpoint pstep (me : ThreadId) {A} (p : prog Frame A) (w : World)
  : option (prog Frame A * World) :=
  match p in prog _ A return option (prog Frame A * World) with
  | Ret _ => None
  | Raise _ => None
  | Prim o =>
      match do_op me o w with
      | Some (inr a, w') => Some (Ret a, w')
      | Some (inl e, w') => Some (Raise e, w')
      | None => None
      end
  | Bind p k =>
      match result_of p with
      | Some _ => Some (then_ p k, w)
      | None =>
          match pstep me p w with
          | Some (p', w') => Some (then_ p' k, w')
          | None => None
          end
      end
  | Finally p cleanup =>
      match result_of p with
      | Some _ => Some (ensure p cleanup, w)
      | None =>
          match pstep me p w with
          | Some (p', w') => Some (ensure p' cleanup, w')
          | None => None
          end
      end
  | While cond body =>
      Some (Bind cond (fun c : bool =>
                         if c then Bind body (fun _ => While cond body)
                         else Ret tt), w)
  end.

(** The thread of the executor. *)
Definition pool_thread : ThreadId := 0%nat.

(** One step of the executor's worker thread: take the next work item
    and mark its future running; run one step of the work item; or store
    the outcome of a finished work item in its future. *)
Definition pool_step (w : World) : option World :=
  match active (threads w) with
  | None =>
      match queue (threads w) with
      | [] => None
      | (f, c) :: rest =>
          if future_cancelled w f
          then Some (with_threads (mkExecutor rest None) w)
          else Some (with_threads (mkExecutor rest (Some (f, call c)))
                       (with_futures (<[f := RUNNING]> (futures w)) w))
      end
  | Some (f, p) =>
      match result_of p with
      | Some (inr _) =>
          Some (with_threads (mkExecutor (queue (threads w)) None)
                  (with_futures (<[f := FINISHED None]> (futures w)) w))
      | Some (inl e) =>
          Some (with_threads (mkExecutor (queue (threads w)) None)
                  (with_futures (<[f := FINISHED (Some e)]> (futures w)) w))
      | None =>
          match pstep pool_thread p w with
          | Some (p', w') =>
              Some (with_threads (mkExecutor (queue (threads w')) (Some (f, p'))) w')
          | None => None
          end
      end
  end.

(** A call made by thread [me] while no other caller is active: the
    caller runs until it returns or raises; whenever it is blocked the
    worker thread runs; when neither can move the call hangs. *)
Fixpoint exec (fuel : nat) (me : ThreadId) {A} (p : prog Frame A) (w : World)
  : outcome A * World :=
  match fuel with
  | O => (OutOfFuel, w)
  | S fuel' =>
      match result_of p with
      | Some (inr a) => (Returned a, w)
      | Some (inl e) => (Raised e, w)
      | None =>
          match pstep me p w with
          | Some (p', w') => exec fuel' me p' w'
          | None =>
              match pool_step w with
              | Some w' => exec fuel' me p w'
              | None => (Hung, w)
              end
          end
      end
  end.

(** The worker thread running on its own for [n] steps (it stops early
    when it has nothing to do). *)
Fixpoint pool_run (n : nat) (w : World) : World :=
  match n with
  | O => w
  | S n' =>
      match pool_step w with
      | Some w' => pool_run n' w'
      | None => w
      end
  end.

End Semantics.

Arguments future_state : simpl never.
Arguments future_cancelled : simpl never.
Arguments future_done : simpl never.

(** ** Observations and consistent states *)

Section Observations.

Context {Frame Publisher : Type}.

(** The value of the property [is_running] in a given state. *)
Definition is_running_value (w : @World Frame Publisher) : bool :=
  match _run_task w with
  | None => false
  | Some f => negb (future_cancelled w f || future_done w f)
  end.

(** The frame index is a valid position of the frame sequence. *)
Definition index_ok (fs : list Frame) (i : Z) : Prop :=
  0 <= i < Z.of_nat (length fs).

(** *** Where the worker is inside [_run]

    What is left of [_step_one_frame] after each of its steps; the
    arguments are the values already read. *)
Definition tail_store (n : Z) : prog Frame unit :=
  Prim (Set_frame_index n).

Definition tail_mod (i' : Z) (fs' : list Frame) : prog Frame unit :=
  n ← py_mod (i' + 1) (Z.of_nat (length fs'));
  tail_store n.

Definition tail_frames2 (i' : Z) : prog Frame unit :=
  fs' ← Prim Get_frames;
  tail_mod i' fs'.

Definition tail_index3 : prog Frame unit :=
  i' ← Prim Get_frame_index;
  tail_frames2 i'.

Definition tail_send (i : Z) (fr : Frame) : prog Frame unit :=
  Prim (Send_frame i fr);;
  tail_index3.

Definition tail_getitem (i : Z) (fs : list Frame) (j : Z) : prog Frame unit :=
  fr ← py_getitem fs j;
  tail_send i fr.

Definition tail_index2 (i : Z) (fs : list Frame) : prog Frame unit :=
  j ← Prim Get_frame_index;
  tail_getitem i fs j.

Definition tail_frames1 (i : Z) : prog Frame unit :=
  fs ← Prim Get_frames;
  tail_index2 i fs.

(** The loop of [_run] and what surrounds a position inside it. *)
Definition loop_cond : prog Frame bool :=
  c ← Prim Get_cancelled; Ret (negb c).

Definition loop_body : prog Frame unit :=
  _step_one_frame;; sleep_one_frame.

Definition in_run (l : prog Frame unit) : prog Frame unit :=
  l;; Prim (Set_cancelled false).

Definition in_body (b : prog Frame unit) : prog Frame unit :=
  in_run (b;; While loop_cond loop_body).

Definition in_step (s : prog Frame unit) : prog Frame unit :=
  in_body (s;; sleep_one_frame).

(** The positions of the worker, named after the step it takes next. *)
Inductive worker_pos : Type :=
| W_loop
| W_test
| W_index1
| W_frames1 (i : Z)
| W_index2 (i : Z) (fs : list Frame)
| W_getitem (i : Z) (fs : list Frame) (j : Z)
| W_send (i : Z) (fr : Frame)
| W_index3
| W_frames2 (i' : Z)
| W_mod (i' : Z) (fs' : list Frame)
| W_store (n : Z)
| W_sleep
| W_clear
| W_return.

Definition resume (pos : worker_pos) : prog Frame unit :=
  match pos with
  | W_loop => _run
  | W_test =>
      in_run (Bind loop_cond
                (fun c : bool =>
                   if c then Bind loop_body (fun _ => While loop_cond loop_body)
                   else Ret tt))
  | W_index1 => in_step _step_one_frame
  | W_frames1 i => in_step (tail_frames1 i)
  | W_index2 i fs => in_step (tail_index2 i fs)
  | W_getitem i fs j => in_step (tail_getitem i fs j)
  | W_send i fr => in_step (tail_send i fr)
  | W_index3 => in_step tail_index3
  | W_frames2 i' => in_step (tail_frames2 i')
  | W_mod i' fs' => in_step (tail_mod i' fs')
  | W_store n => in_step (tail_store n)
  | W_sleep => in_body (Prim Sleep)
  | W_clear => Prim (Set_cancelled false)
  | W_return => Ret tt
  end.

(** The values a position holds are consistent with the frame sequence
    [fs0] of the scheduler. *)
Definition pos_ok (fs0 : list Frame) (pos : worker_pos) : Prop :=
  match pos with
  | W_index2 _ fs => fs = fs0
  | W_getitem _ fs j => fs = fs0 /\ index_ok fs0 j
  | W_mod _ fs' => fs' = fs0
  | W_store n => index_ok fs0 n
  | _ => True
  end.

(** How many steps the worker is from returning once the flag is set. *)
Definition distance (pos : worker_pos) : nat :=
  match pos with
  | W_return => 0
  | W_clear => 1
  | W_test => 2
  | W_loop => 3
  | W_sleep => 4
  | W_store _ => 5
  | W_mod _ _ => 6
  | W_frames2 _ => 7
  | W_index3 => 8
  | W_send _ _ => 9
  | W_getitem _ _ _ => 10
  | W_index2 _ _ => 11
  | W_frames1 _ => 12
  | W_index1 => 13
  end.

(** *** The states of sequential use

    With one controlling caller and a publisher that accepts every
    frame, the scheduler has no task yet, or its task is finished,
    waiting in the executor's queue, or being run by the worker. *)
Inductive phase : Type :=
| NoTask
| Done (f : FutureId)
| Queued (f : FutureId)
| Working (f : FutureId) (pos : worker_pos).

Definition phase_handle (ph : phase) : option FutureId :=
  match ph with
  | NoTask => None
  | Done f | Queued f | Working f _ => Some f
  end.

Definition phase_executor (ph : phase) : Executor :=
  match ph with
  | NoTask | Done _ => mkExecutor [] None
  | Queued f => mkExecutor [(f, bound_run)] None
  | Working f pos => mkExecutor [] (Some (f, resume pos))
  end.

Definition phase_ok (fs0 : list Frame) (fu : gmap FutureId FutureState) (ph : phase) : Prop :=
  match ph with
  | NoTask => True
  | Done f => fu !! f = Some (FINISHED None)
  | Queued f => fu !! f = Some PENDING
  | Working f pos => fu !! f = Some RUNNING /\ pos_ok fs0 pos
  end.

(** No task is waiting or being run. *)
Definition idle_phase (ph : phase) : Prop :=
  match ph with
  | NoTask | Done _ => True
  | Queued _ | Working _ _ => False
  end.

Definition world_at (ph : phase) (c : bool) (l : RLock) (i : Z) (fs0 : list Frame)
    (fu : gmap FutureId FutureState) (pub : Publisher) (s : list (Z * Frame))
  : @World Frame Publisher :=
  mkWorld (phase_executor ph) (phase_handle ph) c l i fs0 fu pub s.

Inductive consistent (w : @World Frame Publisher) : Prop :=
| Consistent (ph : phase) (c : bool) (l : RLock) (i : Z) (fs0 : list Frame)
    (fu : gmap FutureId FutureState) (pub : Publisher) (s : list (Z * Frame))
    (Hw : w = world_at ph c l i fs0 fu pub s)
    (Hph : phase_ok fs0 fu ph)
    (Hi : index_ok fs0 i).

(** What is left of [cancel_playback(wait=True)] when it reaches
    [self._run_task.result()]. *)
Definition wait_then_clear (f : FutureId) : prog Frame unit :=
  Bind (Prim (Future_result f)) (fun _ => Prim (Set_cancelled false)).

(** *** Programs that keep the frame index valid

    [may_return fs0 p x]: [x] is a value [p] can return in a state whose
    frame sequence is [fs0].  [keeps_index fs0 p]: every index [p]
    stores is a valid position of [fs0]. *)
Fixpoint may_return {A} (fs0 : list Frame) (p : prog Frame A) : A -> Prop :=
  match p in prog _ A return A -> Prop with
  | Ret a => fun x => x = a
  | Raise _ => fun _ => False
  | Prim o =>
      match o in op _ A return A -> Prop with
      | Get_frames => fun x => x = fs0
      | _ => fun _ => True
      end
  | Bind p k => fun x => exists a, may_return fs0 p a /\ may_return fs0 (k a) x
  | Finally p _ => may_return fs0 p
  | While _ _ => fun _ => True
  end.

Fixpoint keeps_index {A} (fs0 : list Frame) (p : prog Frame A) : Prop :=
  match p with
  | Ret _ => True
  | Raise _ => True
  | Prim o =>
      match o with
      | Set_frame_index i => index_ok fs0 i
      | _ => True
      end
  | Bind p k =>
      keeps_index fs0 p /\ forall a, may_return fs0 p a -> keeps_index fs0 (k a)
  | Finally p cleanup => keeps_index fs0 p /\ keeps_index fs0 cleanup
  | While cond body => keeps_index fs0 cond /\ keeps_index fs0 body
  end.

(** The invariant: the frame sequence is [fs0], the index is valid, and
    so is every index the worker is about to store. *)
Definition index_invariant (fs0 : list Frame) (w : @World Frame Publisher) : Prop :=
  frames w = fs0 /\ index_ok fs0 (frame_index w) /\
  match active (threads w) with
  | Some (_, p) => keeps_index fs0 p
  | None => True
  end.

(** *** The operations of the scheduler *)
Inductive api_call : Type :=
| Call_play
| Call_pause
| Call_step
| Call_reset
| Call_run_playback (block : bool)
| Call_cancel_playback (wait : bool).

Definition api_prog (c : api_call) : prog Frame unit :=
  match c with
  | Call_play => play
  | Call_pause => pause
  | Call_step => step
  | Call_reset => reset
  | Call_run_playback block => run_playback block
  | Call_cancel_playback wait => cancel_playback wait
  end.

(** What happens to a scheduler: a caller makes a call (followed for at
    most [fuel] steps), or the worker thread takes a step. *)
Inductive event : Type :=
| Caller (me : ThreadId) (c : api_call) (fuel : nat)
| Worker.

End Observations.

Section Histories.

Context {Frame Publisher : Type}.
Variable send_frame : Z -> Frame -> Publisher -> Publisher * option exn.

(** [k] consecutive calls of [step()] by thread [me]. *)
Definition steps (fuel : nat) (me : ThreadId) (k : nat) (w : @World Frame Publisher)
  : @World Frame Publisher :=
  Nat.iter k (fun w' => snd (exec send_frame fuel me step w')) w.

Definition after_event (w : @World Frame Publisher) (e : event) : @World Frame Publisher :=
  match e with
  | Caller me c fuel => snd (exec send_frame fuel me (api_prog c) w)
  | Worker =>
      match pool_step send_frame w with
      | Some w' => w'
      | None => w
      end
  end.

Definition after_events (es : list event) (w : @World Frame Publisher)
  : @World Frame Publisher :=
  fold_left after_event es w.

End Histories.

(** ** Several callers

    Caller [i] of the list is thread [S i]; a turn lets one caller or
    the worker thread take one step. *)

Section Interleavings.

Context {Frame Publisher : Type}.
Variable send_frame : Z -> Frame -> Publisher -> Publisher * option exn.

Record System : Type := mkSystem {
  callers : list (prog Frame unit);
  world : @World Frame Publisher
}.

Inductive turn : Type :=
| Of_caller (i : nat)
| Of_worker.

Definition turn_step (t : turn) (s : System) : option System :=
  match t with
  | Of_caller i =>
      match callers s !! i with
      | Some p =>
          match pstep send_frame (S i) p (world s) with
          | Some (p', w') => Some (mkSystem (<[i := p']> (callers s)) w')
          | None => None
          end
      | None => None
      end
  | Of_worker =>
      match pool_step send_frame (world s) with
      | Some w' => Some (mkSystem (callers s) w')
      | None => None
      end
  end.

Fixpoint run_turns (ts : list turn) (s : System) : option System :=
  match ts with
  | [] => Some s
  | t :: ts' =>
      match turn_step t s with
      | Some s' => run_turns ts' s'
      | None => None
      end
  end.

End Interleavings.

(** ** Sample schedulers *)

(** A publisher that accepts every frame, and one that rejects every
    frame. *)
Definition accepting : Z -> nat -> unit -> unit * option exn :=
  fun _ _ u => (u, None).

Definition rejecting : Z -> nat -> unit -> unit * option exn :=
  fun _ _ u => (u, Some (PublisherError 1)).

Definition demo_frames : list nat := [10; 20; 30]%nat.

(** A new scheduler over three frames. *)
Definition demo_fresh : @World nat unit := __init__ demo_frames tt.

(** After [run_playback()]: the task is queued. *)
Definition demo_queued : @World nat unit :=
  snd (exec accepting 20 1%nat (run_playback false) demo_fresh).

(** The worker has started and has just found the flag clear. *)
Definition demo_playing : @World nat unit := pool_run accepting 3 demo_queued.

(** After [cancel_playback()] without waiting: the flag is set, the
    worker has not looked at it yet. *)
Definition demo_cancelling : @World nat unit :=
  snd (exec accepting 20 1%nat (cancel_playback false) demo_playing).

(** After [pause()]: the worker has returned. *)
Definition demo_paused : @World nat unit :=
  snd (exec accepting 60 1%nat pause demo_playing).

(** The flag was set while the task was queued, and the worker has
    just started: it is at the test of its loop. *)
Definition demo_cancelled_at_test : @World nat unit :=
  pool_run accepting 1
    (snd (exec accepting 20 1%nat (cancel_playback false) demo_queued)).

(** A history of calls and worker steps. *)
Definition demo_history : list event :=
  [Caller 1%nat Call_play 60; Worker; Worker; Worker; Worker; Worker; Worker;
   Worker; Worker; Worker; Worker; Caller 1%nat Call_step 60;
   Caller 1%nat Call_reset 5; Caller 1%nat (Call_cancel_playback false) 10;
   Caller 1%nat Call_play 60; Worker].

(** A new scheduler over no frames. *)
Definition demo_empty : @World nat unit := __init__ [] tt.

(** After the worker has failed on the empty sequence. *)
Definition demo_empty_failed : @World nat unit :=
  pool_run accepting 10 (snd (exec accepting 40 1%nat play demo_empty)).

(** Two callers of [play()] on a new scheduler; each checks
    [is_running] before either submits its worker. *)
Definition two_players : @System nat unit := mkSystem [play; play] demo_fresh.

(** Two callers of [play()] while playback runs: the first is inside
    its locked section, waiting for the worker. *)
Definition demo_turns : list turn :=
  [Of_caller 0; Of_caller 0; Of_worker; Of_caller 0; Of_caller 0; Of_worker].

Definition demo_locked : @System nat unit :=
  match run_turns accepting demo_turns (mkSystem [play; play] demo_playing) with
  | Some s => s
  | None => mkSystem [] demo_playing
  end.

Definition racing_schedule : list turn :=
  replicate 4 (Of_caller 0) ++ replicate 4 (Of_caller 1)
  ++ replicate 2 (Of_caller 0) ++ replicate 2 (Of_caller 1) ++ [Of_worker].

(** ** The lock

    Which programs are inside [with self._cancel_lock], and which use
    the lock only through [with]. *)

Section Locking.

Context {Frame : Type}.

Definition is_acquire {A} (p : prog Frame A) : Prop :=
  match p with
  | Prim o => match o with Lock_acquire => True | _ => False end
  | _ => False
  end.

Definition is_release {A} (p : prog Frame A) : bool :=
  match p with
  | Prim o => match o with Lock_release => true | _ => false end
  | _ => false
  end.

(** The program is inside a [with self._cancel_lock] block: it is
    running the body, or the body has ended and the lock is about to be
    released. *)
Fixpoint holds {A} (p : prog Frame A) : bool :=
  match p with
  | Prim o => match o with Lock_release => true | _ => false end
  | Bind p _ => holds p
  | Finally _ cleanup => is_release cleanup
  | _ => false
  end.

(** The program never touches the lock. *)
Fixpoint lock_free {A} (p : prog Frame A) : Prop :=
  match p with
  | Ret _ => True
  | Raise _ => True
  | Prim o =>
      match o with
      | Lock_acquire | Lock_release => False
      | _ => True
      end
  | Bind p k => lock_free p /\ forall a, lock_free (k a)
  | Finally _ _ => False
  | While cond body => lock_free cond /\ lock_free body
  end.

(** [try: body finally: release], the part of [with] after the
    acquisition. *)
Definition with_block {A} (p : prog Frame A) : Prop :=
  match p with
  | Finally body cleanup => lock_free body /\ is_release cleanup = true
  | _ => False
  end.

(** The program uses the lock only as [with self._cancel_lock: body],
    with bodies that do not touch the lock. *)
Fixpoint bracketed {A} (p : prog Frame A) : Prop :=
  match p with
  | Ret _ => True
  | Raise _ => True
  | Prim o => match o with Lock_acquire => False | _ => True end
  | Bind p k =>
      (is_acquire p /\ forall a, with_block (k a))
      \/ (bracketed p /\ forall a, bracketed (k a) /\ holds (k a) = false)
  | Finally body cleanup => lock_free body /\ is_release cleanup = true
  | While cond body => lock_free cond /\ lock_free body
  end.

(** The control operations that take the lock. *)
Definition locking_operation (p : prog Frame unit) : Prop :=
  p = play \/ p = pause \/ p = step.

End Locking.

Section LockState.

Context {Frame Publisher : Type}.

(** The state of the lock agrees with the program of thread [me]. *)
Definition lock_agrees {A} (me : ThreadId) (p : prog Frame A)
    (w : @World Frame Publisher) : Prop :=
  if holds p then _cancel_lock w = LockedBy me 0
  else forall depth, _cancel_lock w <> LockedBy me depth.

(** The lock is as before, or thread [me] took the free lock, or gave
    it back. *)
Definition lock_change (me : ThreadId) (w w' : @World Frame Publisher) : Prop :=
  _cancel_lock w' = _cancel_lock w
  \/ (_cancel_lock w = Unlocked /\ _cancel_lock w' = LockedBy me 0)
  \/ (_cancel_lock w = LockedBy me 0 /\ _cancel_lock w' = Unlocked).

(** The work of the executor does not touch the lock. *)
Definition worker_lock_free (w : @World Frame Publisher) : Prop :=
  match active (threads w) with
  | Some (_, p) => lock_free p
  | None => True
  end.

(** Every caller uses the lock through [with] only and the lock agrees
    with every caller. *)
Definition lock_invariant (s : @System Frame Publisher) : Prop :=
  worker_lock_free (world s) /\
  forall i p, callers s !! i = Some p ->
              bracketed p /\ lock_agrees (S i) p (world s).

End LockState.

(** ** The order of playback *)

Section Order.

Context {Frame : Type}.

(** The frames that [n] passes of the loop send when the first pass
    starts at index [i]: the frame at [i], then the one at
    [(i + 1) % len(frames)], and so on, each with its index. *)
Fixpoint frames_from (fs : list Frame) (i : Z) (n : nat) : list (Z * Frame) :=
  match n with
  | O => []
  | S n' =>
      match fs !! Z.to_nat i with
      | Some fr => [(i, fr)]
      | None => []
      end ++ frames_from fs ((i + 1) mod Z.of_nat (length fs)) n'
  end.


(** The position is inside the loop of [_run]. *)
Definition inside_loop (pos : @worker_pos Frame) : Prop :=
  match pos with
  | W_clear | W_return => False
  | _ => True
  end.

End Order.

(** ** The steps of [_run]

    [_run] taken one step at a time, whoever runs it: the worker thread
    for [run_playback()], the caller for [run_playback(block=True)]. *)

Section Passes.

Context {Frame Publisher : Type}.
Variable send_frame : Z -> Frame -> Publisher -> Publisher * option exn.

(** The step at this position raises no exception: the list index is in
    range, the publisher accepts the frame, the frame sequence is not
    empty; and there is a step to take. *)
Definition can_step (pos : @worker_pos Frame) (w : @World Frame Publisher) : Prop :=
  match pos with
  | W_getitem _ fs j => 0 <= j < Z.of_nat (length fs)
  | W_send i fr => snd (send_frame i fr (frame_publisher w)) = None
  | W_mod _ fs' => fs' <> []
  | W_return => False
  | _ => True
  end.

(** The position and the state after the step. *)
Definition run_step (pos : @worker_pos Frame) (w : @World Frame Publisher)
  : @worker_pos Frame * @World Frame Publisher :=
  match pos with
  | W_loop => (W_test, w)
  | W_test => (if _cancelled w then W_clear else W_index1, w)
  | W_index1 => (W_frames1 (frame_index w), w)
  | W_frames1 i => (W_index2 i (frames w), w)
  | W_index2 i fs => (W_getitem i fs (frame_index w), w)
  | W_getitem i fs j =>
      (match fs !! Z.to_nat j with
       | Some fr => W_send i fr
       | None => W_getitem i fs j
       end, w)
  | W_send i fr =>
      (W_index3,
       with_publisher (fst (send_frame i fr (frame_publisher w))) (sent w ++ [(i, fr)]) w)
  | W_index3 => (W_frames2 (frame_index w), w)
  | W_frames2 i' => (W_mod i' (frames w), w)
  | W_mod i' fs' => (W_store ((i' + 1) mod Z.of_nat (length fs')), w)
  | W_store n => (W_sleep, with_frame_index n w)
  | W_sleep => (W_loop, w)
  | W_clear => (W_return, with_cancelled false w)
  | W_return => (W_return, w)
  end.

End Passes.

(** ** The cells that prepare the frames *)

Section Notebook.

Context {Client FrameData : Type}.

(** [client.run_command("ROS/request_pose", pose_name="pose0")]: the
    call changes the state of the client and returns a dictionary or
    raises. *)
Variable request_pose : Client -> Client * (exn + gmap string string).

(** [convert_pdb_string_to_framedata] *)
Variable convert_pdb_string_to_framedata : string -> exn + FrameData.

(** <<
    try:
        frame = client.run_command( "ROS/request_pose", pose_name="pose0" )
        frames[ii] = frame["pose_pdb"]
    except:
        pass
    sleep( 0.01 )
    >>
    The bare [except] also swallows the [KeyError] of a reply without
    the key. *)
Definition request_one (st : Client * list string) (ii : nat) : Client * list string :=
  match request_pose (fst st) with
  | (c', inr frame) =>
      match frame !! "pose_pdb" with
      | Some pose_pdb => (c', <[ii := pose_pdb]> (snd st))
      | None => (c', snd st)
      end
  | (c', inl _) => (c', snd st)
  end.

(** <<
    frames = [""] * 40
    for ii in range(len(frames)):
        ...
    frames = [ frame for frame in frames if frame != "" ]
    >> *)
Definition request_frames (client : Client) : Client * list string :=
  let frames := replicate 40 "" in
  let st := foldl request_one (client, frames) (seq 0 (length frames)) in
  (fst st, filter (fun frame => frame <> "") (snd st)).

(** An element of [all_framedata]: the string it is created with, or a
    converted frame. *)
Inductive framedata_item : Type :=
| Placeholder (s : string)
| Converted (d : FrameData).

(** <<
    for ii, frame in enumerate(frames):
        all_framedata[ii] = convert_pdb_string_to_framedata( frame )
    >>
    The list [all_framedata] as the loop leaves it, and the exception
    that ended the loop, if one did: an exception of the converter
    leaves the cell at once, with the assignments made so far in
    place. *)
Fixpoint convert_from (ii : nat) (frames : list string) (all_framedata : list framedata_item)
  : list framedata_item * option exn :=
  match frames with
  | [] => (all_framedata, None)
  | frame :: rest =>
      match convert_pdb_string_to_framedata frame with
      | inl e => (all_framedata, Some e)
      | inr d => convert_from (S ii) rest (<[ii := Converted d]> all_framedata)
      end
  end.

(** <<
    all_framedata = [""] * len(frames)
    for ii, frame in enumerate(frames): ...
    >> *)
Definition convert_frames (frames : list string) : list framedata_item * option exn :=
  convert_from 0 frames (replicate (length frames) (Placeholder "")).

(** The replies to [n] consecutive requests, and the client afterwards. *)
Fixpoint replies (n : nat) (client : Client)
  : Client * list (exn + gmap string string) :=
  match n with
  | O => (client, [])
  | S n' =>
      let '(c1, r) := request_pose client in
      let '(c2, rs) := replies n' c1 in
      (c2, r :: rs)
  end.

(** The structure a reply carries: none when the call raised or the
    reply has no ["pose_pdb"]. *)
Definition pose_of (reply : exn + gmap string string) : string :=
  match reply with
  | inr frame => default "" (frame !! "pose_pdb")
  | inl _ => ""
  end.

End Notebook.

(** ** More sample values *)

(** A client that counts its requests; the server answers every third
    request with an error and every other one with a structure. *)
Definition demo_request_pose (n : nat) : nat * (exn + gmap string string) :=
  (S n,
   if (n mod 3 =? 0)%nat then inl (RuntimeError "no pose")
   else inr {[ "pose_pdb" := "ATOM" ]}).

(** A converter that accepts every structure but the empty one. *)
Definition demo_convert (pdb : string) : exn + nat :=
  if decide (pdb = "") then inl (RuntimeError "empty structure")
  else inr (String.length pdb).



(** The worker has just taken the task: it is at the top of its loop. *)
Definition demo_started : @World nat unit := pool_run accepting 1 demo_queued.

(** Three callers on a new scheduler, one in [play()], one in
    [reset()] and one in [step()]: [play()] runs to its end and the
    worker starts; [step()] sets the flag and waits; [reset()] runs
    while the worker finishes its pass; then [step()] sends its frame. *)
Definition demo_mixed_turns : list turn :=
  replicate 6 (Of_caller 0) ++ replicate 4 Of_worker
  ++ replicate 5 (Of_caller 2) ++ replicate 3 Of_worker
  ++ [Of_caller 1] ++ replicate 10 Of_worker ++ replicate 12 (Of_caller 2).

Definition demo_mixed : @System nat unit :=
  match run_turns accepting demo_mixed_turns (mkSystem [play; reset; step] demo_fresh) with
  | Some s => s
  | None => mkSystem [] demo_fresh
  end.

(** The worker is about to send its first frame to a publisher that
    rejects it. *)
Definition demo_sending : @World nat unit := pool_run rejecting 7 demo_queued.

(** After [pause()] and [play()]: playback runs again, from index 1,
    and the worker has just found the flag clear. *)
Definition demo_replaying : @World nat unit :=
  pool_run accepting 3 (snd (exec accepting 30 1%nat play demo_paused)).

(** ** [step()] one step at a time

    What is left of [step()] at each of its steps up to the point
    where it waits for the worker, for a caller that runs at the same
    time as the worker. *)

Section Stepping.

Context {Frame Publisher : Type}.
Variable send_frame : Z -> Frame -> Publisher -> Publisher * option exn.

(** The program never hands work to the executor. *)
Fixpoint no_submit {A} (p : prog Frame A) : Prop :=
  match p with
  | Ret _ => True
  | Raise _ => True
  | Prim o =>
      match o with
      | Submit _ => False
      | _ => True
      end
  | Bind p k => no_submit p /\ forall a, no_submit (k a)
  | Finally p cleanup => no_submit p /\ no_submit cleanup
  | While cond body => no_submit cond /\ no_submit body
  end.

(** What is left of [cancel_playback(wait=True)] once it has set the
    flag, after its second test, and after its first test. *)
Definition cancel_result : prog Frame unit :=
  f ← the_run_task; wait_then_clear f.

Definition cancel_set : prog Frame unit :=
  Prim (Set_cancelled true);; cancel_result.

Definition cancel_flag_test : prog Frame unit :=
  c ← Prim Get_cancelled;
  if (c : bool) then Ret tt else cancel_set.

(** [step()] after it has taken the lock: [c] is what is left of its
    call of [cancel_playback]. *)
Definition step_with (c : prog Frame unit) : prog Frame unit :=
  Finally (c;; _step_one_frame) (Prim Lock_release).

Inductive step_stage : Type :=
| St_start
| St_locked
| St_flag_test
| St_set
| St_result
| St_wait (f : FutureId).

Definition stage_prog (st : step_stage) : prog Frame unit :=
  match st with
  | St_start => step
  | St_locked => step_with (cancel_playback true)
  | St_flag_test => step_with cancel_flag_test
  | St_set => step_with cancel_set
  | St_result => step_with cancel_result
  | St_wait f => step_with (wait_then_clear f)
  end.

(** The lock while [step()] is at a stage; the caller is thread 1. *)
Definition stage_lock (st : step_stage) : RLock :=
  match st with
  | St_start => Unlocked
  | _ => LockedBy 1%nat 0
  end.

(** [step()], called in state [w0], has returned in state [w']: [w1]
    is the state in which playback had stopped and [fr] the frame the
    call sent. *)
Definition step_done (w0 w1 : @World Frame Publisher) (fr : Frame)
    (w' : @World Frame Publisher) : Prop :=
  is_running_value w1 = false /\
  threads w1 = mkExecutor [] None /\
  (exists before, sent w1 = sent w0 ++ before) /\
  (is_running_value w0 = false ->
   sent w1 = sent w0 /\ frame_index w1 = frame_index w0) /\
  frames w0 !! Z.to_nat (frame_index w1) = Some fr /\
  sent w' = sent w1 ++ [(frame_index w1, fr)] /\
  frame_index w' = (frame_index w1 + 1) mod Z.of_nat (length (frames w0)) /\
  is_running_value w' = false /\
  threads w' = mkExecutor [] None /\
  _cancelled w' = false /\ _cancel_lock w' = Unlocked /\
  frames w' = frames w0 /\ consistent w'.

(** The state of the scheduler while [step()], called in state [w0],
    is at stage [st]. *)
Definition step_early (w0 : @World Frame Publisher) (st : step_stage)
    (w : @World Frame Publisher) : Prop :=
  consistent w /\ _cancel_lock w = stage_lock st /\ frames w = frames w0 /\
  (exists before, sent w = sent w0 ++ before) /\
  (is_running_value w0 = false ->
   threads w = mkExecutor [] None /\ sent w = sent w0 /\ frame_index w = frame_index w0) /\
  match st with
  | St_start | St_locked => _cancelled w = false
  | St_flag_test | St_set => _cancelled w = false /\ _run_task w <> None
  | St_result => _run_task w <> None
  | St_wait f => _run_task w = Some f
  end.

(** The worker has stopped, in state [w1], and what is left of
    [step()], run to its end by thread 1, returns as [step_done]
    says. *)
Definition step_late (w0 w1 : @World Frame Publisher) (p : prog Frame unit)
    (w : @World Frame Publisher) : Prop :=
  threads w = mkExecutor [] None /\ no_submit p /\
  exists n fr w',
    exec send_frame n 1%nat p w = (Returned tt, w') /\ step_done w0 w1 fr w'.

(** Turns of the one caller only. *)
Definition caller_turns (ts : list turn) : Prop :=
  Forall (fun t => t = Of_caller 0) ts.

(** One caller in [step()], called in state [w0], and the worker,
    after the turns [ts] of any interleaving: the caller is still at
    one of the stages, or the turns split into [ts1], at the end of
    which the caller found playback stopped, and turns of the caller
    alone. *)
Definition stepping (w0 : @World Frame Publisher) (ts : list turn)
    (s : @System Frame Publisher) : Prop :=
  exists p, callers s = [p] /\
    ((exists st, p = stage_prog st /\ step_early w0 st (world s))
     \/ (exists ts1 ts2 s1,
           ts = ts1 ++ ts2 /\
           run_turns send_frame ts1 (mkSystem [step] w0) = Some s1 /\
           caller_turns ts2 /\
           step_late w0 (world s1) p (world s))).

End Stepping.

(** ** Sample values for [step()] and for overlapping calls *)

(** One caller in [step()] while playback runs: the worker plays a
    whole pass before the caller sets the flag, then finishes the pass
    it is in, and the caller sends its frame. *)
Definition demo_step_turns : list turn :=
  replicate 2 (Of_caller 0) ++ replicate 12 Of_worker
  ++ replicate 3 (Of_caller 0) ++ replicate 14 Of_worker
  ++ replicate 12 (Of_caller 0).

Definition demo_stepped : @System nat unit :=
  match run_turns accepting demo_step_turns (mkSystem [step] demo_playing) with
  | Some s => s
  | None => mkSystem [] demo_playing
  end.

(** A publisher that counts the frames offered to it and fails on the
    first one. *)
Definition flaky : Z -> nat -> nat -> nat * option exn :=
  fun _ _ n => (S n, if (n =? 0)%nat then Some (PublisherError 1) else None).

(** [play()] on a new scheduler with this publisher: the worker was
    stopped by the exception of its first frame. *)
Definition demo_flaky_failed : @World nat nat :=
  pool_run flaky 12 (snd (exec flaky 30 1%nat play (__init__ demo_frames 0%nat))).

(** The two overlapping calls of [play()] have both returned. *)
Definition demo_raced : @System nat unit :=
  match run_turns accepting racing_schedule two_players with
  | Some s => s
  | None => two_players
  end.

(** * Properties *)

Section Props.
Context {Frame Publisher : Type}.
Variable send_frame : Z -> Frame -> Publisher -> Publisher * option exn.
Abbreviation World := (@World Frame Publisher).
Abbreviation exec := (exec send_frame).
Abbreviation pstep := (pstep send_frame).
Abbreviation pool_step := (pool_step send_frame).
Abbreviation steps := (steps send_frame).
Abbreviation after_event := (after_event send_frame).
Abbreviation after_events := (after_events send_frame).
Abbreviation pool_run := (pool_run send_frame).
Abbreviation System := (@System Frame Publisher).
Abbreviation turn_step := (turn_step send_frame).
Abbreviation run_turns := (run_turns send_frame).

(** *** Running a call: fuel, sequencing, [try ... finally] *)

(** More fuel does not change the outcome of a call that ended. *)
Lemma exec_mono {A} (n : nat) : forall (me : ThreadId) (p : prog Frame A) (w w' : World) r,
  exec n me p w = (r, w') -> r <> OutOfFuel ->
  forall m, (n <= m)%nat -> exec m me p w = (r, w').
Proof.
  induction n as [|n IH]; intros me p w w' r He Hr m Hm.
  - cbn in He. congruence.
  - destruct m as [|m]; [lia|].
    cbn in He |- *.
    destruct (result_of p) as [[e|a]|]; [exact He | exact He |].
    destruct (pstep me p w) as [[p' w1]|].
    + apply IH with (m := m) in He; [exact He | exact Hr | lia].
    + destruct (pool_step w) as [w1|]; [|exact He].
      apply IH with (m := m) in He; [exact He | exact Hr | lia].
Qed.

(** Sequencing: a finished first part hands over to the continuation. *)
Lemma exec_bind_returned {A B} (n : nat) :
  forall (me : ThreadId) (p : prog Frame A) (k : A -> prog Frame B) (w w1 w2 : World) a r m,
  exec n me p w = (Returned a, w1) ->
  exec m me (k a) w1 = (r, w2) -> r <> OutOfFuel ->
  exec (n + m) me (Bind p k) w = (r, w2).
Proof.
  induction n as [|n IH]; intros me p k w w1 w2 a r m Hp Hk Hr.
  - cbn in Hp. congruence.
  - cbn in Hp. cbn [Nat.add exec result_of pstep].
    destruct (result_of p) as [[e|a']|] eqn:Hres.
    + congruence.
    + injection Hp as -> ->. unfold then_. rewrite Hres.
      eapply exec_mono; [exact Hk | exact Hr | lia].
    + destruct (pstep me p w) as [[p' w']|] eqn:Hst.
      * unfold then_. destruct (result_of p') as [[e|a']|] eqn:Hres'.
        -- destruct n; cbn in Hp; [congruence|]. rewrite Hres' in Hp. congruence.
        -- destruct n; cbn in Hp; [congruence|]. rewrite Hres' in Hp.
           injection Hp as -> ->.
           eapply exec_mono; [exact Hk | exact Hr | lia].
        -- eapply IH; eauto.
      * destruct (pool_step w) as [w'|]; [|congruence].
        eapply IH; eauto.
Qed.

Lemma exec_S {A} (n : nat) (me : ThreadId) (p : prog Frame A) (w : World) :
  exec (S n) me p w =
  match result_of p with
  | Some (inr a) => (Returned a, w)
  | Some (inl e) => (Raised e, w)
  | None =>
      match pstep me p w with
      | Some (p', w') => exec n me p' w'
      | None =>
          match pool_step w with
          | Some w' => exec n me p w'
          | None => (Hung, w)
          end
      end
  end.
Proof. reflexivity. Qed.

(** [try ... finally]: the cleanup runs after the body, whether the body
    returned or raised, and the outcome of the body is kept when the
    cleanup returns. *)
Lemma exec_finally_returned {A} (n : nat) :
  forall (me : ThreadId) (p : prog Frame A) (c : prog Frame unit) (w w1 w2 : World) a m,
  exec n me p w = (Returned a, w1) ->
  exec m me c w1 = (Returned tt, w2) ->
  exec (n + S m) me (Finally p c) w = (Returned a, w2).
Proof.
  assert (Hc : forall m me (c : prog Frame unit) w1 w2 (a : A),
             exec m me c w1 = (Returned tt, w2) ->
             exec (S m) me (Bind c (fun _ => Ret a)) w1 = (Returned a, w2)).
  { intros m me c w1 w2 a Hc.
    replace (S m) with (m + 1)%nat by lia.
    eapply exec_bind_returned; [exact Hc | reflexivity | discriminate]. }
  induction n as [|n IH]; intros me p c w w1 w2 a m Hp Hcl.
  - cbn in Hp. congruence.
  - rewrite exec_S in Hp. cbn [Nat.add]. rewrite exec_S. cbn [result_of pstep].
    destruct (result_of p) as [[e'|a']|] eqn:Hres.
    + congruence.
    + injection Hp as -> ->. unfold ensure. rewrite Hres.
      eapply exec_mono; [apply Hc; exact Hcl | discriminate | lia].
    + destruct (pstep me p w) as [[p' w']|] eqn:Hst.
      * unfold ensure. destruct (result_of p') as [[e'|a']|] eqn:Hres'.
        -- destruct n; [cbn in Hp; congruence|]. rewrite exec_S, Hres' in Hp. congruence.
        -- destruct n; [cbn in Hp; congruence|]. rewrite exec_S, Hres' in Hp.
           injection Hp as -> ->.
           eapply exec_mono; [apply Hc; exact Hcl | discriminate | lia].
        -- eapply IH; eauto.
      * destruct (pool_step w) as [w'|]; [|congruence].
        eapply IH; eauto.
Qed.


Ltac exec_step := cbn [Nat.add]; rewrite exec_S; cbn -[exec].

Ltac world_fields w :=
  destruct w as [[wq wa] wt wc wl wi wfs wfu wp ws].

(** *** [is_running] is a pure observation *)

Lemma is_running_exec (fuel : nat) (me : ThreadId) (w : World) :
  exec (9 + fuel) me is_running w = (Returned (is_running_value w), w).
Proof.
  world_fields w. unfold is_running_value. cbn.
  destruct wt as [f|]; cbn; [|reflexivity].
  destruct (future_cancelled _ f); cbn; [reflexivity|].
  destruct (future_done _ f); reflexivity.
Qed.

Lemma run_playback_running (fuel : nat) (me : ThreadId) (block : bool) (w : World) :
  is_running_value w = true ->
  exec (10 + fuel) me (run_playback block) w
  = (Raised (RuntimeError "The trajectory is already playing on a thread!"), w).
Proof.
  intros Hr. unfold run_playback.
  change (10 + fuel)%nat with (S (9 + fuel)).
  pose proof (is_running_exec fuel me w) as H. rewrite Hr in H.
  replace (S (9 + fuel)) with ((9 + fuel) + 1)%nat by lia.
  eapply exec_bind_returned; [exact H | reflexivity | discriminate].
Qed.


(** *** Python list indexing and remainder on valid indices *)

Lemma py_getitem_ok {A} (l : list A) (i : Z) :
  0 <= i < Z.of_nat (length l) ->
  exists x, l !! Z.to_nat i = Some x /\ @py_getitem Frame A l i = Ret x.
Proof.
  intros Hi. unfold py_getitem.
  destruct (l !! Z.to_nat i) as [x|] eqn:Hl.
  - exists x. split; [reflexivity|].
    destruct (i <? 0) eqn:H1; [apply Z.ltb_lt in H1; lia|].
    destruct (i <? 0) eqn:H2; [apply Z.ltb_lt in H2; lia|].
    destruct (Z.of_nat (length l) <=? i) eqn:H3; [apply Z.leb_le in H3; lia|].
    cbn. rewrite Hl. reflexivity.
  - apply lookup_ge_None in Hl. lia.
Qed.

Lemma py_mod_ok (fs : list Frame) (a i : Z) :
  index_ok fs i ->
  @py_mod Frame a (Z.of_nat (length fs)) = Ret (a mod Z.of_nat (length fs))
  /\ index_ok fs (a mod Z.of_nat (length fs)).
Proof.
  unfold index_ok, py_mod. intros Hi.
  destruct (Z.of_nat (length fs) =? 0) eqn:H0; [apply Z.eqb_eq in H0; lia|].
  split; [reflexivity|]. apply Z.mod_pos_bound. lia.
Qed.

(** C10. [reset()] sets the frame index to 0 and changes nothing else:
    the frame sequence, the cancellation flag, the task handle, the
    executor, the lock, the futures and the publisher are the same
    afterwards, in every state. *)
Theorem reset_only_changes_frame_index (fuel : nat) (me : ThreadId) (w : World) :
  exec (2 + fuel) me reset w = (Returned tt, with_frame_index 0 w) /\
  frame_index (with_frame_index 0 w) = 0 /\
  frames (with_frame_index 0 w) = frames w /\
  _cancelled (with_frame_index 0 w) = _cancelled w /\
  _run_task (with_frame_index 0 w) = _run_task w /\
  threads (with_frame_index 0 w) = threads w /\
  _cancel_lock (with_frame_index 0 w) = _cancel_lock w /\
  futures (with_frame_index 0 w) = futures w /\
  frame_publisher (with_frame_index 0 w) = frame_publisher w /\
  sent (with_frame_index 0 w) = sent w.
Proof. repeat split; reflexivity. Qed.

(** C4. [run_playback] called while [is_running] is true raises
    [RuntimeError] to the caller at once and leaves the state as it was:
    nothing is submitted to the executor and the task handle is kept. *)
Theorem run_playback_while_running_raises (fuel : nat) (me : ThreadId) (block : bool)
    (w : World) :
  (10 <= fuel)%nat ->
  exec fuel me is_running w = (Returned true, w) ->
  exec fuel me (run_playback block) w
  = (Raised (RuntimeError "The trajectory is already playing on a thread!"), w).
Proof.
  intros Hfuel Hrun.
  assert (Hv : is_running_value w = true).
  { pose proof (is_running_exec 0 me w) as H.
    apply (exec_mono (9 + 0)) with (m := fuel) in H; [|discriminate|lia].
    rewrite H in Hrun. injection Hrun as ->. reflexivity. }
  apply (exec_mono (10 + 0)); [|discriminate|lia].
  apply run_playback_running. exact Hv.
Qed.

(** [cancel_playback] before any playback was started does nothing. *)
Lemma cancel_playback_no_task (fuel : nat) (me : ThreadId) (wait : bool) (w : World) :
  _run_task w = None ->
  exec (2 + fuel) me (cancel_playback wait) w = (Returned tt, w).
Proof.
  intros Ht. world_fields w. cbn in Ht. subst wt. exec_step. reflexivity.
Qed.


(** C2 (amended). When the worker finds the cancellation flag set at
    the test of its loop, it leaves the loop, clears the flag and
    returns, and the executor marks its future finished.  The task
    handle is not touched: it still refers to that future, which is
    done, so [is_running] is false. *)
Theorem worker_exit_clears_flag_keeps_handle (w : World) (f : FutureId) :
  active (threads w) = Some (f, _run) ->
  _cancelled w = true ->
  pool_run 4 w
  = with_threads (mkExecutor (queue (threads w)) None)
      (with_futures (<[f := FINISHED None]> (futures w)) (with_cancelled false w))
  /\ _cancelled (pool_run 4 w) = false
  /\ _run_task (pool_run 4 w) = _run_task w
  /\ future_state (pool_run 4 w) f = Some (FINISHED None)
  /\ (_run_task w = Some f -> is_running_value (pool_run 4 w) = false).
Proof.
  intros Hact Hc. world_fields w. cbn in Hact, Hc. subst wa wc.
  assert (Hrun : pool_run 4
            (mkWorld (mkExecutor wq (Some (f, _run))) wt true wl wi wfs wfu wp ws)
          = mkWorld (mkExecutor wq None) wt false wl wi wfs
              (<[f := FINISHED None]> wfu) wp ws) by reflexivity.
  rewrite Hrun. cbn.
  split; [reflexivity|]. split; [reflexivity|]. split; [reflexivity|].
  split; [apply lookup_insert_eq|].
  intros ->. unfold is_running_value, future_cancelled, future_done, future_state.
  cbn. rewrite lookup_insert_eq. reflexivity.
Qed.

(** C9. When [send_frame] raises during [_step_one_frame], the frame
    index is the one before the call and the exception reaches the
    caller of [_step_one_frame]: [step()] raises it (after releasing the
    lock) and [_run] raises it out of its loop. *)
Theorem send_failure_keeps_index (fuel : nat) (me : ThreadId) (w : World)
    (fr : Frame) (e : exn) (pub' : Publisher) :
  (20 <= fuel)%nat ->
  index_ok (frames w) (frame_index w) ->
  frames w !! Z.to_nat (frame_index w) = Some fr ->
  send_frame (frame_index w) fr (frame_publisher w) = (pub', Some e) ->
  exec fuel me _step_one_frame w = (Raised e, with_publisher pub' (sent w) w)
  /\ frame_index (with_publisher pub' (sent w) w) = frame_index w
  /\ (_cancelled w = false ->
      exec fuel me _run w = (Raised e, with_publisher pub' (sent w) w))
  /\ (_run_task w = None -> _cancel_lock w = Unlocked ->
      exec fuel me step w = (Raised e, with_publisher pub' (sent w) w)).
Proof.
  intros Hfuel Hi Hfr Hsend. world_fields w.
  cbn [frames frame_index frame_publisher sent _cancelled _run_task _cancel_lock] in *.
  destruct (py_getitem_ok wfs wi Hi) as (fr' & Hfr' & Hget).
  assert (fr' = fr) by congruence. subst fr'.
  split; [|split; [reflexivity|split]].
  - apply (exec_mono 20); [|discriminate|exact Hfuel].
    do 3 exec_step. rewrite Hget. exec_step. exec_step. rewrite Hsend.
    cbn. reflexivity.
  - intros ->. apply (exec_mono 20); [|discriminate|exact Hfuel].
    do 5 exec_step. rewrite Hget. exec_step. exec_step. rewrite Hsend.
    cbn. reflexivity.
  - intros -> ->. apply (exec_mono 20); [|discriminate|exact Hfuel].
    do 5 exec_step. rewrite Hget. exec_step. exec_step. rewrite Hsend.
    cbn -[exec]. exec_step. destruct (decide (me = me)); [|congruence].
    cbn. reflexivity.
Qed.

(** C7 (amended). On a new scheduler over an empty frame sequence
    [play()] returns normally to its caller, with a worker submitted;
    the worker raises [IndexError] at its first frame and stops at once,
    the exception is stored in its future, no frame is sent, the index
    stays 0 and nothing is divided by zero; [is_running] is false
    afterwards. *)
Theorem play_on_empty_sequence (fuel n : nat) (me : ThreadId) (pub : Publisher) :
  exists w1 f,
    exec (8 + fuel) me play (__init__ [] pub) = (Returned tt, w1) /\
    _run_task w1 = Some f /\
    sent (pool_run (8 + n) w1) = [] /\
    frame_index (pool_run (8 + n) w1) = 0 /\
    future_state (pool_run (8 + n) w1) f = Some (FINISHED (Some IndexError)) /\
    threads (pool_run (8 + n) w1) = mkExecutor [] None /\
    is_running_value (pool_run (8 + n) w1) = false.
Proof.
  eexists _, _. split.
  - do 3 exec_step. destruct (decide (me = me)); [|congruence].
    repeat exec_step. reflexivity.
  - split; [reflexivity|].
    match goal with
    | |- context [pool_run (8 + n) ?w] =>
        assert (Hrun : pool_run (8 + n) w
                       = mkWorld (mkExecutor [] None) (Some (fresh (dom (∅ : gmap FutureId FutureState))))
                           false Unlocked 0 []
                           (<[fresh (dom (∅ : gmap FutureId FutureState)) := FINISHED (Some IndexError)]>
                              (<[fresh (dom (∅ : gmap FutureId FutureState)) := RUNNING]>
                                 (<[fresh (dom (∅ : gmap FutureId FutureState)) := PENDING]> ∅)))
                           pub [])
    end.
    { change (8 + n)%nat with (S (S (S (S (S (S (S (S n)))))))).
      unfold pool_run. 
      cbn -[fresh dom]. unfold future_cancelled, future_state. cbn -[fresh dom].
      rewrite lookup_insert_eq. cbn -[fresh dom].
      unfold py_getitem. cbn -[fresh dom].
      destruct n; reflexivity. }
    rewrite Hrun. cbn -[fresh dom].
    split; [reflexivity|]. split; [reflexivity|].
    split; [apply lookup_insert_eq|]. split; [reflexivity|].
    unfold is_running_value, future_cancelled, future_done, future_state.
    cbn -[fresh dom]. rewrite lookup_insert_eq. reflexivity.
Qed.

(** *** Programs that do not touch the lock *)

Lemma lock_free_then_ {A B} (p : prog Frame A) (k : A -> prog Frame B) :
  lock_free p -> (forall a, lock_free (k a)) -> lock_free (then_ p k).
Proof.
  intros Hp Hk. unfold then_.
  destruct (result_of p) as [[e|a]|]; cbn; auto.
Qed.

Lemma do_op_lock_free (me : ThreadId) {A} (o : op Frame A) (w w' : World) r :
  lock_free (Prim o) -> do_op send_frame me o w = Some (r, w') ->
  _cancel_lock w' = _cancel_lock w /\ active (threads w') = active (threads w).
Proof.
  intros Hl Hop. world_fields w.
  destruct o; cbn in Hl, Hop; try contradiction;
    try (injection Hop as <- <-; split; reflexivity).
  - destruct (future_state _ f) as [[| | |[e|]]|]; try discriminate;
      injection Hop as <- <-; split; reflexivity.
  - destruct (send_frame i fr wp) as [pub' [e|]];
      injection Hop as <- <-; split; reflexivity.
Qed.

Lemma pstep_lock_free (me : ThreadId) {A} (p : prog Frame A) :
  forall (w w' : World) (p' : prog Frame A),
  lock_free p -> pstep me p w = Some (p', w') ->
  lock_free p' /\ _cancel_lock w' = _cancel_lock w
  /\ active (threads w') = active (threads w).
Proof.
  induction p as [A a|A e|A o|A B p IHp k IHk|A p IHp c IHc|cond IHcond body IHbody];
    intros w w' p' Hl Hstep; cbn [pstep] in Hstep.
  - discriminate.
  - discriminate.
  - destruct (do_op send_frame me o w) as [[[e|a] w1]|] eqn:Hop; [| |discriminate];
      injection Hstep as <- <-;
      destruct (do_op_lock_free me o w w1 _ Hl Hop) as [H1 H2];
      repeat split; auto.
  - destruct Hl as [Hp Hk].
    destruct (result_of p) as [r|] eqn:Hr.
    + injection Hstep as <- <-. repeat split; auto.
      apply lock_free_then_; assumption.
    + destruct (pstep me p w) as [[p1 w1]|] eqn:Hp1; [|discriminate].
      injection Hstep as <- <-.
      destruct (IHp w w1 p1 Hp Hp1) as (H1 & H2 & H3).
      repeat split; auto. apply lock_free_then_; assumption.
  - destruct Hl.
  - destruct Hl as [Hc Hb]. injection Hstep as <- <-.
    repeat split; auto. intros [|]; cbn; auto.
Qed.

Lemma lock_free_bracketed {A} (p : prog Frame A) :
  lock_free p -> bracketed p /\ holds p = false.
Proof.
  induction p as [A a|A e|A o|A B p IHp k IHk|A p IHp c IHc|cond IHcond body IHbody];
    cbn; intros Hl; auto.
  - destruct o; cbn in *; try contradiction; auto.
  - destruct Hl as [Hp Hk]. destruct (IHp Hp) as [H1 H2].
    split; [|exact H2]. right. split; [exact H1|].
    intros a. apply IHk. apply Hk.
  - destruct Hl.
Qed.

(** *** One step of a caller *)

Lemma is_release_holds {A} (c : prog Frame A) : is_release c = true -> holds c = true.
Proof. destruct c; cbn; auto; discriminate. Qed.

Lemma is_release_bracketed {A} (c : prog Frame A) : is_release c = true -> bracketed c.
Proof.
  destruct c; cbn; try discriminate. destruct o; cbn; try discriminate. auto.
Qed.

Lemma result_of_holds {A} (p : prog Frame A) r : result_of p = Some r -> holds p = false.
Proof. destruct p; cbn; try discriminate; auto. Qed.

Lemma bracketed_ensure {A} (me : ThreadId) (p : prog Frame A) (c : prog Frame unit) :
  lock_free p -> is_release c = true ->
  bracketed (ensure p c) /\ holds (ensure p c) = true.
Proof.
  intros Hp Hc. unfold ensure.
  destruct (result_of p) as [[e|a]|]; cbn.
  - split; [|apply is_release_holds; exact Hc].
    right. split; [apply is_release_bracketed; exact Hc|]. intros _. cbn. auto.
  - split; [|apply is_release_holds; exact Hc].
    right. split; [apply is_release_bracketed; exact Hc|]. intros _. cbn. auto.
  - auto.
Qed.

Lemma pstep_bracketed (me : ThreadId) {A} (p : prog Frame A) :
  forall (w w' : World) (p' : prog Frame A),
  bracketed p -> lock_agrees me p w -> pstep me p w = Some (p', w') ->
  bracketed p' /\ lock_agrees me p' w' /\ lock_change me w w'
  /\ active (threads w') = active (threads w).
Proof.
  induction p as [A a|A e|A o|A B p IHp k IHk|A p IHp c IHc|cond IHcond body IHbody];
    intros w w' p' Hb Hag Hstep; cbn [pstep] in Hstep.
  - discriminate.
  - discriminate.
  - (* a primitive step *)
    destruct (do_op send_frame me o w) as [[r w1]|] eqn:Hop; [|discriminate].
    assert (Hp' : bracketed p' /\ holds p' = false /\ w' = w1).
    { destruct r; injection Hstep as <- <-; cbn; auto. }
    destruct Hp' as (Hbp' & Hhp' & ->). clear Hstep.
    split; [exact Hbp'|]. unfold lock_agrees in *. rewrite Hhp'.
    destruct o; cbn in Hb; try contradiction;
      try (pose proof (fun Hl => do_op_lock_free me _ w w1 _ Hl Hop) as Hfree;
           destruct (Hfree I) as [H1 H2];
           unfold lock_change; cbn in Hag; rewrite H1; repeat split; auto; fail).
    (* Lock_release *)
    cbn in Hag. world_fields w. cbn in Hag. subst wl. cbn in Hop.
    destruct (decide (me = me)); [|congruence].
    injection Hop as <- <-.
    unfold lock_change. cbn.
    repeat split; auto.
  - (* sequencing *)
    destruct Hb as [[Hacq Hwith]|[Hbp Hbk]].
    + (* with: the acquisition *)
      destruct p; cbn in Hacq; try contradiction.
      destruct o; cbn in Hacq; try contradiction.
      unfold lock_agrees in Hag. cbn in Hag.
      world_fields w. cbn in Hag, Hstep.
      destruct wl as [|owner depth].
      * injection Hstep as <- <-.
        specialize (Hwith tt). unfold then_. cbn [result_of].
        destruct (k tt) as [| | |? ? ? ?|? body cleanup|]; cbn in Hwith; try contradiction.
        destruct Hwith as [Hbody Hrel].
        unfold lock_agrees, lock_change. cbn. rewrite Hrel.
        repeat split; auto.
      * destruct (decide (owner = me)) as [->|Hne]; [|discriminate].
        exfalso. apply (Hag depth). reflexivity.
    + destruct (result_of p) as [r|] eqn:Hr.
      * injection Hstep as <- <-.
        pose proof (result_of_holds p r Hr) as Hh.
        unfold lock_agrees in Hag |- *. cbn in Hag. rewrite Hh in Hag.
        unfold then_. rewrite Hr. destruct r as [e|a].
        -- cbn. repeat split; auto. left. reflexivity.
        -- destruct (Hbk a) as [H1 H2]. rewrite H2.
           repeat split; auto. left. reflexivity.
      * destruct (pstep me p w) as [[p1 w1]|] eqn:Hp1; [|discriminate].
        injection Hstep as <- <-.
        assert (Hagp : lock_agrees me p w) by exact Hag.
        destruct (IHp w w1 p1 Hbp Hagp Hp1) as (H1 & H2 & H3 & H4).
        repeat split; auto.
        -- unfold then_. destruct (result_of p1) as [[e|a]|]; cbn; auto.
           apply Hbk.
        -- unfold then_. destruct (result_of p1) as [[e|a]|] eqn:Hr1.
           ++ pose proof (result_of_holds p1 _ Hr1) as Hh.
              unfold lock_agrees in H2 |- *. rewrite Hh in H2. exact H2.
           ++ pose proof (result_of_holds p1 _ Hr1) as Hh.
              unfold lock_agrees in H2 |- *. rewrite Hh in H2.
              destruct (Hbk a) as [_ Hk2]. rewrite Hk2. exact H2.
           ++ exact H2.
  - (* with: the body *)
    destruct Hb as [Hbody Hrel].
    assert (Hlock : _cancel_lock w = LockedBy me 0).
    { unfold lock_agrees in Hag. cbn in Hag. rewrite Hrel in Hag. exact Hag. }
    destruct (result_of p) as [r|] eqn:Hr.
    + injection Hstep as <- <-.
      destruct (bracketed_ensure me p c Hbody Hrel) as [H1 H2].
      unfold lock_agrees, lock_change. rewrite H2. repeat split; auto.
    + destruct (pstep me p w) as [[p1 w1]|] eqn:Hp1; [|discriminate].
      injection Hstep as <- <-.
      destruct (pstep_lock_free me p w w1 p1 Hbody Hp1) as (H1 & H2 & H3).
      destruct (bracketed_ensure me p1 c H1 Hrel) as [H4 H5].
      unfold lock_agrees, lock_change. rewrite H5, H2. repeat split; auto.
  - (* while *)
    injection Hstep as <- <-.
    assert (Hl : lock_free (Bind cond
                   (fun c : bool => if c then Bind body (fun _ => While cond body)
                                    else Ret tt))).
    { destruct Hb as [Hc Hbd]. cbn. split; [exact Hc|]. intros [|]; cbn; auto. }
    destruct (lock_free_bracketed _ Hl) as [H1 H2].
    unfold lock_agrees, lock_change in *. rewrite H2. cbn in Hag.
    repeat split; auto.
Qed.


(** *** The programs of the scheduler and the lock *)

Lemma lock_free_py_getitem {A} (l : list A) (i : Z) : lock_free (@py_getitem Frame A l i).
Proof.
  unfold py_getitem. destruct (_ || _); [exact I|]. destruct (l !! _); exact I.
Qed.

Lemma lock_free_py_mod (a b : Z) : lock_free (@py_mod Frame a b).
Proof. unfold py_mod. destruct (b =? 0); exact I. Qed.

Ltac lock_free_auto :=
  repeat first
    [ exact I
    | assumption
    | apply lock_free_py_getitem
    | apply lock_free_py_mod
    | progress cbn -[_step_one_frame _run cancel_playback run_playback py_mod py_getitem]
    | split
    | intro
    | match goal with
      | |- context [match ?x with _ => _ end] => is_var x; destruct x
      end ].

Lemma lock_free_step_one_frame : lock_free (@_step_one_frame Frame).
Proof. unfold _step_one_frame. lock_free_auto. Qed.

Lemma lock_free_run : lock_free (@_run Frame).
Proof.
  pose proof lock_free_step_one_frame as H. unfold _run. lock_free_auto.
Qed.

Lemma lock_free_cancel_playback (wait : bool) : lock_free (@cancel_playback Frame wait).
Proof. unfold cancel_playback. lock_free_auto. Qed.

Lemma lock_free_run_playback (block : bool) : lock_free (@run_playback Frame block).
Proof.
  pose proof lock_free_run as H. unfold run_playback. lock_free_auto.
Qed.

Lemma lock_free_resume (pos : worker_pos) : lock_free (@resume Frame pos).
Proof.
  pose proof lock_free_step_one_frame as H.
  pose proof lock_free_run as Hr.
  destruct pos; cbn [resume]; try exact Hr;
    unfold in_step, in_body, in_run, tail_frames1, tail_index2, tail_getitem,
      tail_send, tail_index3, tail_frames2, tail_mod, tail_store, loop_cond, loop_body;
    lock_free_auto.
Qed.

Lemma bracketed_locking_operation (p : prog Frame unit) :
  locking_operation p -> bracketed p /\ holds p = false.
Proof.
  pose proof (lock_free_cancel_playback true) as Hc.
  pose proof lock_free_step_one_frame as Hs.
  pose proof (lock_free_bracketed _ (lock_free_run_playback false)) as [Hr1 Hr2].
  intros [ -> | [ -> | -> ] ]; (split; [|reflexivity]).
  - unfold play, with_cancel_lock. cbn -[cancel_playback run_playback].
    right. split; [|intros _; split; assumption].
    left. split; [exact I|]. intros _. split; [exact Hc | reflexivity].
  - unfold pause, with_cancel_lock. cbn -[cancel_playback].
    left. split; [exact I|]. intros _. split; [exact Hc | reflexivity].
  - unfold step, with_cancel_lock. cbn -[cancel_playback _step_one_frame].
    left. split; [exact I|]. intros _. split; [|reflexivity].
    split; [exact Hc|]. intros _. exact Hs.
Qed.

(** *** Every interleaving keeps the lock discipline *)

Lemma callers_lookup_insert_eq (l : list (prog Frame unit)) (i : nat) (x p : prog Frame unit) :
  l !! i = Some p -> <[i := x]> l !! i = Some x.
Proof.
  revert i. induction l as [|y l IH]; intros [|i] H; cbn in *; try discriminate; auto.
Qed.

Lemma callers_lookup_insert_ne (l : list (prog Frame unit)) (i j : nat) (x : prog Frame unit) :
  i <> j -> <[i := x]> l !! j = l !! j.
Proof.
  revert i j. induction l as [|y l IH]; intros [|i] [|j] H; cbn in *;
    try congruence; auto.
Qed.

Lemma pool_step_lock (w w' : World) :
  worker_lock_free w -> pool_step w = Some w' ->
  worker_lock_free w' /\ _cancel_lock w' = _cancel_lock w.
Proof.
  unfold worker_lock_free. intros Hw Hstep. unfold pool_step in Hstep.
  destruct (active (threads w)) as [[f p]|] eqn:Hact.
  - destruct (result_of p) as [[e|a]|] eqn:Hr.
    + injection Hstep as <-. cbn. auto.
    + injection Hstep as <-. cbn. auto.
    + destruct (pstep pool_thread p w) as [[p1 w1]|] eqn:Hp; [|discriminate].
      injection Hstep as <-.
      destruct (pstep_lock_free pool_thread p w w1 p1 Hw Hp) as (H1 & H2 & _).
      cbn. auto.
  - destruct (queue (threads w)) as [|[f c] rest]; [discriminate|].
    destruct (future_cancelled w f); injection Hstep as <-; cbn; auto.
    destruct c. split; [apply lock_free_run | reflexivity].
Qed.

Lemma lock_agrees_other (i j : nat) {A} (q : prog Frame A) (w w' : World) :
  i <> j -> lock_agrees (S j) q w -> lock_change (S i) w w' ->
  lock_agrees (S j) q w'.
Proof.
  intros Hij Hag Hch. unfold lock_agrees in *.
  destruct (holds q).
  - destruct Hch as [->|[[H1 H2]|[H1 H2]]]; [exact Hag| |]; rewrite Hag in H1.
    + discriminate.
    + injection H1 as H1. congruence.
  - intros d. destruct Hch as [->|[[H1 H2]|[H1 H2]]]; [apply Hag| |]; rewrite H2.
    + intros H. injection H as H _. congruence.
    + discriminate.
Qed.

Lemma turn_step_lock (t : turn) (s s' : System) :
  lock_invariant s -> turn_step t s = Some s' -> lock_invariant s'.
Proof.
  intros [Hw Hc] Hstep. destruct t as [i|]; cbn in Hstep.
  - destruct (callers s !! i) as [p|] eqn:Hp; [|discriminate].
    destruct (pstep (S i) p (world s)) as [[p' w']|] eqn:Hps; [|discriminate].
    injection Hstep as <-.
    destruct (Hc i p Hp) as [Hb Hag].
    destruct (pstep_bracketed (S i) p (world s) w' p' Hb Hag Hps) as (H1 & H2 & H3 & H4).
    split.
    + unfold worker_lock_free in *. cbn. rewrite H4. exact Hw.
    + intros j q Hq. cbn [callers world] in Hq |- *.
      destruct (decide (i = j)) as [<-|Hij].
      * rewrite (callers_lookup_insert_eq (callers s) i p' p Hp) in Hq.
        injection Hq as <-. auto.
      * rewrite (callers_lookup_insert_ne (callers s) i j p' Hij) in Hq.
        destruct (Hc j q Hq) as [Hbq Hagq].
        split; [exact Hbq|].
        exact (lock_agrees_other i j q (world s) w' Hij Hagq H3).
  - destruct (pool_step (world s)) as [w'|] eqn:Hps; [|discriminate].
    injection Hstep as <-.
    destruct (pool_step_lock (world s) w' Hw Hps) as [H1 H2].
    split; [exact H1|].
    intros j q Hq. cbn [callers world] in Hq |- *.
    destruct (Hc j q Hq) as [Hbq Hagq].
    split; [exact Hbq|]. unfold lock_agrees in *. rewrite H2. exact Hagq.
Qed.

Lemma run_turns_lock (ts : list turn) :
  forall s s' : System,
  lock_invariant s -> run_turns ts s = Some s' -> lock_invariant s'.
Proof.
  induction ts as [|t ts IH]; intros s s' Hinv Hrun; cbn in Hrun.
  - injection Hrun as <-. exact Hinv.
  - destruct (turn_step t s) as [s1|] eqn:Ht; [|discriminate].
    apply (IH s1 s' (turn_step_lock t s s1 Hinv Ht) Hrun).
Qed.

Lemma lock_invariant_start (ps : list (prog Frame unit)) (w : World) :
  (forall i p, ps !! i = Some p -> locking_operation p) ->
  worker_lock_free w -> _cancel_lock w = Unlocked ->
  lock_invariant (mkSystem ps w).
Proof.
  intros Hps Hw Hl. split; [exact Hw|].
  intros i p Hp. cbn [callers world] in Hp |- *.
  destruct (bracketed_locking_operation p (Hps i p Hp)) as [H1 H2].
  split; [exact H1|]. unfold lock_agrees. rewrite H2, Hl. discriminate.
Qed.

Lemma lock_invariant_exclusive (s : System) (i j : nat) (p q : prog Frame unit) :
  lock_invariant s ->
  callers s !! i = Some p -> callers s !! j = Some q ->
  holds p = true -> holds q = true -> i = j.
Proof.
  intros [_ Hc] Hp Hq Hhp Hhq.
  destruct (Hc i p Hp) as [_ H1]. destruct (Hc j q Hq) as [_ H2].
  unfold lock_agrees in H1, H2. rewrite Hhp in H1. rewrite Hhq in H2.
  rewrite H1 in H2. injection H2 as H2. exact H2.
Qed.

Lemma consistent_worker_lock_free (w : World) : consistent w -> worker_lock_free w.
Proof.
  intros [ph c l i fs0 fu pub s -> _ _]. unfold worker_lock_free.
  destruct ph; cbn; auto. apply lock_free_resume.
Qed.

(** *** One step of the worker *)

Ltac closes_pos :=
  split; [reflexivity|];
  split; [cbn; auto|];
  split; [assumption|];
  cbn; intros [Hd|Hd];
  [ first [discriminate | subst; split; [auto | reflexivity]]
  | first [lia | split; [right; lia | reflexivity]] ].


Section Accepting.

(** The publisher accepts every frame. *)
Hypothesis Haccept : forall i fr pub, snd (send_frame i fr pub) = None.

Lemma worker_step (f : FutureId) (pos : worker_pos) c l i fs0 fu pub s :
  fu !! f = Some RUNNING -> pos_ok fs0 pos -> index_ok fs0 i ->
  exists w', pool_step (world_at (Working f pos) c l i fs0 fu pub s) = Some w' /\
    match pos with
    | W_return =>
        w' = world_at (Done f) c l i fs0 (<[f := FINISHED None]> fu) pub s
    | _ =>
        exists pos' c' i' pub' s',
          w' = world_at (Working f pos') c' l i' fs0 fu pub' s' /\
          pos_ok fs0 pos' /\ index_ok fs0 i' /\
          (c = true \/ (distance pos <= 1)%nat ->
           (c' = true \/ (distance pos' <= 1)%nat) /\ S (distance pos') = distance pos)
    end.
Proof.
  intros Hf Hpos Hi.
  destruct pos; cbn in Hpos.
  - (* W_loop *)
    eexists; split; [reflexivity|].
    exists W_test, c, i, pub, s. closes_pos.
  - (* W_test *)
    destruct c.
    + eexists; split; [reflexivity|].
      exists W_clear, true, i, pub, s. closes_pos.
    + eexists; split; [reflexivity|].
      exists W_index1, false, i, pub, s. closes_pos.
  - (* W_index1 *)
    eexists; split; [reflexivity|].
    exists (W_frames1 i), c, i, pub, s. closes_pos.
  - (* W_frames1 *)
    eexists; split; [reflexivity|].
    exists (W_index2 i0 fs0), c, i, pub, s. closes_pos.
  - (* W_index2 *)
    subst fs. eexists; split; [reflexivity|].
    exists (W_getitem i0 fs0 i), c, i, pub, s. closes_pos.
  - (* W_getitem *)
    destruct Hpos as [-> Hj].
    destruct (py_getitem_ok fs0 j Hj) as (fr & Hfr & Hget).
    exists (world_at (Working f (W_send i0 fr)) c l i fs0 fu pub s). split.
    + unfold world_at, pool_step. cbn [active threads phase_executor resume].
      unfold in_step, in_body, in_run, tail_getitem. cbn [result_of pstep].
      rewrite Hget. reflexivity.
    + exists (W_send i0 fr), c, i, pub, s. closes_pos.
  - (* W_send *)
    pose proof (Haccept i0 fr pub) as Hs.
    destruct (send_frame i0 fr pub) as [pub' o] eqn:Hsend. cbn in Hs. subst o.
    exists (world_at (Working f W_index3) c l i fs0 fu pub' (s ++ [(i0, fr)])). split.
    + unfold world_at, pool_step. cbn. rewrite Hsend. reflexivity.
    + exists W_index3, c, i, pub', (s ++ [(i0, fr)]). closes_pos.
  - (* W_index3 *)
    eexists; split; [reflexivity|].
    exists (W_frames2 i), c, i, pub, s. closes_pos.
  - (* W_frames2 *)
    eexists; split; [reflexivity|].
    exists (W_mod i' fs0), c, i, pub, s. closes_pos.
  - (* W_mod *)
    subst fs'.
    destruct (py_mod_ok fs0 (i' + 1) i Hi) as [Hmod Hn].
    exists (world_at (Working f (W_store ((i' + 1) mod Z.of_nat (length fs0)))) c l i fs0 fu pub s). split.
    + unfold world_at, pool_step. cbn [active threads phase_executor resume].
      unfold in_step, in_body, in_run, tail_mod. cbn [result_of pstep].
      rewrite Hmod. reflexivity.
    + eexists _, c, i, pub, s. closes_pos.
  - (* W_store *)
    eexists; split; [reflexivity|].
    exists W_sleep, c, n, pub, s. closes_pos.
  - (* W_sleep *)
    eexists; split; [reflexivity|].
    exists W_loop, c, i, pub, s. closes_pos.
  - (* W_clear *)
    eexists; split; [reflexivity|].
    exists W_return, false, i, pub, s. closes_pos.
  - (* W_return *)
    eexists; split; reflexivity.
Qed.

(** While the caller waits for the future of the worker, the worker
    runs; once the flag is set it returns after [distance pos] steps and
    the executor stores the result in the future. *)
Lemma drain (f : FutureId) fs0 l {A} (me : ThreadId) (p : prog Frame A) (m : nat) :
  result_of p = None ->
  (forall w : World, future_state w f = Some RUNNING -> pstep me p w = None) ->
  forall n pos c i fu pub s,
  distance pos = n -> c = true \/ (distance pos <= 1)%nat ->
  fu !! f = Some RUNNING -> pos_ok fs0 pos -> index_ok fs0 i ->
  exists c' i' pub' s',
    index_ok fs0 i' /\
    exec (S n + m) me p (world_at (Working f pos) c l i fs0 fu pub s)
    = exec m me p (world_at (Done f) c' l i' fs0 (<[f := FINISHED None]> fu) pub' s').
Proof.
  intros Hres Hblk n.
  induction n as [|n IH]; intros pos c i fu pub s Hd Hc Hf Hpos Hi;
    destruct (worker_step f pos c l i fs0 fu pub s Hf Hpos Hi) as (w' & Hstep & Hw');
    cbn [Nat.add];
    rewrite exec_S, Hres, (Hblk (world_at (Working f pos) c l i fs0 fu pub s) Hf), Hstep.
  - destruct pos; cbn in Hd; try discriminate. subst w'.
    exists c, i, pub, s. split; [exact Hi | reflexivity].
  - destruct pos; cbn in Hd; try discriminate;
      destruct Hw' as (pos1 & c1 & i1 & pub1 & s1 & -> & Hpos1 & Hi1 & Hnext);
      destruct (Hnext Hc) as [Hc1 Hd1];
      cbn in Hd1; assert (Hn : distance pos1 = n) by lia;
      apply (IH pos1 c1 i1 fu pub1 s1 Hn Hc1 Hf Hpos1 Hi1).
Qed.

(** *** [cancel_playback(wait=True)] *)

Lemma cancel_playback_reaches_wait (n : nat) (me : ThreadId) (w : World) (f : FutureId) :
  _run_task w = Some f -> _cancelled w = false ->
  exec (4 + n) me (cancel_playback true) w
  = exec n me (wait_then_clear f) (with_cancelled true w).
Proof.
  intros Ht Hc. world_fields w. cbn in Ht, Hc. subst wt wc.
  do 4 exec_step. reflexivity.
Qed.

Lemma wait_blocked (f : FutureId) (me : ThreadId) (w : World) :
  future_state w f = Some RUNNING \/ future_state w f = Some PENDING ->
  pstep me (wait_then_clear f) w = None.
Proof. intros [H|H]; cbn; rewrite H; reflexivity. Qed.

Lemma wait_finished (n : nat) (f : FutureId) (me : ThreadId) (w : World) :
  future_state w f = Some (FINISHED None) ->
  exec (3 + n) me (wait_then_clear f) w = (Returned tt, with_cancelled false w).
Proof.
  intros H. cbn [Nat.add]. rewrite exec_S. cbn -[exec future_state]. rewrite H.
  cbn -[exec]. do 2 exec_step. reflexivity.
Qed.

Lemma exec_blocked {A} (n : nat) (me : ThreadId) (p : prog Frame A) (w w' : World) :
  result_of p = None -> pstep me p w = None -> pool_step w = Some w' ->
  exec (S n) me p w = exec n me p w'.
Proof. intros H1 H2 H3. rewrite exec_S, H1, H2, H3. reflexivity. Qed.

Lemma start_worker (f : FutureId) c l i fs0 fu pub s :
  fu !! f = Some PENDING ->
  pool_step (world_at (Queued f) c l i fs0 fu pub s)
  = Some (world_at (Working f W_loop) c l i fs0 (<[f := RUNNING]> fu) pub s).
Proof.
  intros H. unfold pool_step, world_at. cbn -[future_cancelled].
  unfold future_cancelled, future_state. cbn. rewrite H. reflexivity.
Qed.

(** A new scheduler over a non-empty sequence is consistent, and the
    steps of the worker keep the scheduler consistent. *)
Lemma init_consistent (fs0 : list Frame) (pub : Publisher) :
  fs0 <> [] -> consistent (__init__ fs0 pub).
Proof.
  intros Hne.
  apply (Consistent _ NoTask false Unlocked 0 fs0 ∅ pub []); [reflexivity | exact I |].
  unfold index_ok. destruct fs0; [congruence|]. cbn [length]. lia.
Qed.

Lemma pool_step_consistent (w w' : World) :
  consistent w -> pool_step w = Some w' -> consistent w'.
Proof.
  intros [ph c l i fs0 fu pub s -> Hph Hi] Hstep.
  destruct ph as [|f|f|f pos]; cbn in Hph.
  - discriminate Hstep.
  - discriminate Hstep.
  - rewrite (start_worker f c l i fs0 fu pub s Hph) in Hstep. injection Hstep as <-.
    eapply Consistent; [reflexivity| |exact Hi].
    split; [apply lookup_insert_eq | exact I].
  - destruct Hph as [Hf Hpos].
    destruct (worker_step f pos c l i fs0 fu pub s Hf Hpos Hi) as (w1 & Hw1 & Hnext).
    rewrite Hw1 in Hstep. injection Hstep as <-.
    destruct pos;
      try (destruct Hnext as (pos1 & c1 & i1 & pub1 & s1 & -> & Hpos1 & Hi1 & _);
           eapply Consistent; [reflexivity | split; [exact Hf | exact Hpos1] | exact Hi1]).
    cbn in Hnext. rewrite Hnext.
    eapply Consistent; [reflexivity | apply lookup_insert_eq | exact Hi].
Qed.

Lemma cancel_playback_wait (me : ThreadId) ph c l i fs0 fu pub s :
  phase_ok fs0 fu ph -> index_ok fs0 i ->
  exists ph' c' i' fu' pub' s',
    exec 30 me (cancel_playback true) (world_at ph c l i fs0 fu pub s)
    = (Returned tt, world_at ph' c' l i' fs0 fu' pub' s') /\
    phase_ok fs0 fu' ph' /\ index_ok fs0 i' /\
    (c = false -> c' = false /\ idle_phase ph') /\
    (c = true \/ idle_phase ph ->
     ph' = ph /\ c' = c /\ i' = i /\ fu' = fu /\ pub' = pub /\ s' = s).
Proof.
  intros Hph Hi.
  destruct ph as [|f|f|f pos]; cbn in Hph.
  - (* no task *)
    exists NoTask, c, i, fu, pub, s.
    split; [cbn; reflexivity|]. repeat split; auto; try apply Hi.
  - (* finished task *)
    exists (Done f), c, i, fu, pub, s. split.
    + destruct c; [cbn; reflexivity|].
      refine (eq_trans (cancel_playback_reaches_wait 26 me
                 (world_at (Done f) false l i fs0 fu pub s) f eq_refl eq_refl) _).
      exact (wait_finished 23 f me (world_at (Done f) true l i fs0 fu pub s) Hph).
    + repeat split; auto; try apply Hi.
  - (* queued task *)
    destruct c.
    + exists (Queued f), true, i, fu, pub, s.
      split; [cbn; reflexivity|]. repeat split; auto; try apply Hi; discriminate.
    + assert (Hrun : <[f := RUNNING]> fu !! f = Some RUNNING) by apply lookup_insert_eq.
      destruct (drain f fs0 l me (wait_then_clear f) 21
                  eq_refl (fun w H => wait_blocked f me w (or_introl H))
                  3%nat W_loop true i (<[f := RUNNING]> fu) pub s
                  eq_refl (or_introl eq_refl) Hrun I Hi)
        as (c' & i' & pub' & s' & Hi' & Hex).
      exists (Done f), false, i', (<[f := FINISHED None]> (<[f := RUNNING]> fu)), pub', s'.
      split.
      * refine (eq_trans (cancel_playback_reaches_wait 26 me
                   (world_at (Queued f) false l i fs0 fu pub s) f eq_refl eq_refl) _).
        refine (eq_trans (exec_blocked 25 me (wait_then_clear f)
                   (world_at (Queued f) true l i fs0 fu pub s) _ eq_refl
                   (wait_blocked f me (world_at (Queued f) true l i fs0 fu pub s)
                      (or_intror Hph))
                   (start_worker f true l i fs0 fu pub s Hph)) _).
        refine (eq_trans Hex _).
        refine (wait_finished 18 f me (world_at (Done f) c' l i' fs0 _ pub' s') _).
        apply lookup_insert_eq.
      * split; [cbn; apply lookup_insert_eq|].
        split; [exact Hi'|].
        split; [intros _; split; [reflexivity | exact I]|].
        intros [H|[]]; discriminate H.
  - (* task being run *)
    destruct Hph as [Hf Hpos]. destruct c.
    + exists (Working f pos), true, i, fu, pub, s.
      split; [cbn; reflexivity|]. repeat split; auto; try apply Hi; discriminate.
    + destruct (drain f fs0 l me (wait_then_clear f) (25 - distance pos)
                  eq_refl (fun w H => wait_blocked f me w (or_introl H))
                  (distance pos) pos true i fu pub s
                  eq_refl (or_introl eq_refl) Hf Hpos Hi)
        as (c' & i' & pub' & s' & Hi' & Hex).
      exists (Done f), false, i', (<[f := FINISHED None]> fu), pub', s'.
      assert (Hd : (distance pos <= 13)%nat) by (destruct pos; cbn; lia).
      split.
      * refine (eq_trans (cancel_playback_reaches_wait 26 me
                   (world_at (Working f pos) false l i fs0 fu pub s) f eq_refl eq_refl) _).
        change (with_cancelled true (world_at (Working f pos) false l i fs0 fu pub s))
          with (world_at (Working f pos) true l i fs0 fu pub s).
        replace 26%nat with (S (distance pos) + (25 - distance pos))%nat by lia.
        rewrite Hex.
        replace (25 - distance pos)%nat with (3 + (22 - distance pos))%nat by lia.
        refine (wait_finished _ f me (world_at (Done f) c' l i' fs0 _ pub' s') _).
        apply lookup_insert_eq.
      * split; [cbn; apply lookup_insert_eq|].
        split; [exact Hi'|].
        split; [intros _; split; [reflexivity | exact I]|].
        intros [H|[]]; discriminate H.
Qed.

(** *** [_step_one_frame] with an accepting publisher *)

Lemma step_one_frame_ok (n : nat) (me : ThreadId) (w : World) :
  index_ok (frames w) (frame_index w) ->
  exists fr pub',
    frames w !! Z.to_nat (frame_index w) = Some fr /\
    send_frame (frame_index w) fr (frame_publisher w) = (pub', None) /\
    exec (10 + n) me _step_one_frame w
    = (Returned tt,
       with_frame_index ((frame_index w + 1) mod Z.of_nat (length (frames w)))
         (with_publisher pub' (sent w ++ [(frame_index w, fr)]) w)).
Proof.
  intros Hi. world_fields w. cbn [frames frame_index frame_publisher sent] in *.
  destruct (py_getitem_ok wfs wi Hi) as (fr & Hfr & Hget).
  destruct (py_mod_ok wfs (wi + 1) wi Hi) as [Hmod Hn].
  pose proof (Haccept wi fr wp) as Hs.
  destruct (send_frame wi fr wp) as [pub' o] eqn:Hsend. cbn in Hs. subst o.
  exists fr, pub'. split; [exact Hfr|]. split; [exact Hsend|].
  do 3 exec_step. rewrite Hget. exec_step. exec_step. rewrite Hsend.
  cbn -[exec]. do 2 exec_step. rewrite Hmod. do 3 exec_step. reflexivity.
Qed.

(** *** [step] *)

Lemma lock_held_step (me : ThreadId) ph c i fs0 fu pub s :
  phase_ok fs0 fu ph -> index_ok fs0 i ->
  exists ph1 c1 i1 fu1 pub1 s1 fr pub2,
    exec 30 me (cancel_playback true) (world_at ph c (LockedBy me 0) i fs0 fu pub s)
    = (Returned tt, world_at ph1 c1 (LockedBy me 0) i1 fs0 fu1 pub1 s1) /\
    phase_ok fs0 fu1 ph1 /\ index_ok fs0 i1 /\
    (c = false -> c1 = false /\ idle_phase ph1) /\
    (c = true \/ idle_phase ph ->
     ph1 = ph /\ c1 = c /\ i1 = i /\ fu1 = fu /\ pub1 = pub /\ s1 = s) /\
    fs0 !! Z.to_nat i1 = Some fr /\
    send_frame i1 fr pub1 = (pub2, None) /\
    exec 50 me step (world_at ph c Unlocked i fs0 fu pub s)
    = (Returned tt,
       world_at ph1 c1 Unlocked ((i1 + 1) mod Z.of_nat (length fs0)) fs0 fu1 pub2
         (s1 ++ [(i1, fr)])).
Proof.
  intros Hph Hi.
  destruct (cancel_playback_wait me ph c (LockedBy me 0) i fs0 fu pub s Hph Hi)
    as (ph1 & c1 & i1 & fu1 & pub1 & s1 & Hcancel & Hph1 & Hi1 & Hc & Hsame).
  destruct (step_one_frame_ok 0 me
              (world_at ph1 c1 (LockedBy me 0) i1 fs0 fu1 pub1 s1) Hi1)
    as (fr & pub2 & Hfr & Hsend & Hstep).
  exists ph1, c1, i1, fu1, pub1, s1, fr, pub2.
  repeat (split; [assumption|]).
  unfold step, with_cancel_lock.
  cbn [frames frame_index frame_publisher sent world_at] in Hfr, Hsend, Hstep.
  apply exec_mono with (n := (2 + ((30 + 10) + S 2))%nat); [|discriminate|lia].
  eapply (exec_bind_returned 2 me (Prim Lock_acquire)); [cbn; reflexivity| |discriminate].
  eapply (exec_finally_returned (30 + 10) me _ _ _ _ _ tt 2).
  - eapply exec_bind_returned; [exact Hcancel | exact Hstep | discriminate].
  - cbn. destruct (decide (me = me)); [reflexivity | congruence].
Qed.

Lemma idle_of_not_running (ph : @phase Frame) c l i fs0 fu (pub : Publisher) s :
  phase_ok fs0 fu ph ->
  is_running_value (world_at ph c l i fs0 fu pub s) = false -> idle_phase ph.
Proof.
  destruct ph as [|f|f|f pos]; cbn; auto; unfold is_running_value; cbn;
    unfold future_cancelled, future_done, future_state; cbn.
  - intros ->. discriminate.
  - intros [-> _]. discriminate.
Qed.

Lemma steps_idle (fuel : nat) (me : ThreadId) (ph : @phase Frame) c fs0 fu :
  (50 <= fuel)%nat -> idle_phase ph -> phase_ok fs0 fu ph ->
  forall k i pub s, index_ok fs0 i ->
  exists pub' s',
    steps fuel me k (world_at ph c Unlocked i fs0 fu pub s)
    = world_at ph c Unlocked ((i + Z.of_nat k) mod Z.of_nat (length fs0)) fs0 fu pub' s'
    /\ length s' = (length s + k)%nat.
Proof.
  intros Hfuel Hidle Hph k. induction k as [|k IH]; intros i pub s Hi.
  - exists pub, s. cbn. rewrite Z.add_0_r, Z.mod_small by exact Hi.
    split; [reflexivity | lia].
  - destruct (IH i pub s Hi) as (pub1 & s1 & Hk & Hlen).
    change (steps fuel me (S k) (world_at ph c Unlocked i fs0 fu pub s))
      with (snd (exec fuel me step (steps fuel me k (world_at ph c Unlocked i fs0 fu pub s)))).
    rewrite Hk.
    assert (Hik : index_ok fs0 ((i + Z.of_nat k) mod Z.of_nat (length fs0))).
    { apply Z.mod_pos_bound. unfold index_ok in Hi. lia. }
    destruct (lock_held_step me ph c _ fs0 fu pub1 s1 Hph Hik)
      as (ph2 & c2 & i2 & fu2 & pub2 & s2 & fr & pub3 & _ & _ & _ & _ & Hsame & _ & _ & Hstep).
    destruct (Hsame (or_intror Hidle)) as (-> & -> & -> & -> & -> & ->).
    apply (exec_mono 50) with (m := fuel) in Hstep; [|discriminate|exact Hfuel].
    rewrite Hstep. cbn [snd].
    exists pub3, (s1 ++ [((i + Z.of_nat k) mod Z.of_nat (length fs0), fr)]).
    split.
    + f_equal. rewrite Z.add_mod_idemp_l by (unfold index_ok in Hi; lia).
      f_equal. lia.
    + rewrite length_app. cbn. lia.
Qed.

Lemma not_running_of_idle (ph : @phase Frame) c l i fs0 fu (pub : Publisher) s :
  phase_ok fs0 fu ph -> idle_phase ph ->
  is_running_value (world_at ph c l i fs0 fu pub s) = false.
Proof.
  destruct ph as [|f|f|f pos]; cbn; intros Hph Hidle; try contradiction.
  - reflexivity.
  - unfold is_running_value, future_cancelled, future_done, future_state. cbn.
    rewrite Hph. reflexivity.
Qed.

(** The locked part of [play], [pause] and [step]. *)
Lemma locked_cancel (me : ThreadId) ph c i fs0 fu pub s :
  phase_ok fs0 fu ph -> index_ok fs0 i ->
  exists ph1 c1 i1 fu1 pub1 s1,
    exec 35 me (with_cancel_lock (cancel_playback true))
      (world_at ph c Unlocked i fs0 fu pub s)
    = (Returned tt, world_at ph1 c1 Unlocked i1 fs0 fu1 pub1 s1) /\
    phase_ok fs0 fu1 ph1 /\ index_ok fs0 i1 /\
    (c = false -> c1 = false /\ idle_phase ph1).
Proof.
  intros Hph Hi.
  destruct (cancel_playback_wait me ph c (LockedBy me 0) i fs0 fu pub s Hph Hi)
    as (ph1 & c1 & i1 & fu1 & pub1 & s1 & Hcancel & Hph1 & Hi1 & Hc & _).
  exists ph1, c1, i1, fu1, pub1, s1.
  split; [|auto].
  unfold with_cancel_lock.
  eapply (exec_bind_returned 2 me (Prim Lock_acquire) _ _ _ _ _ _ (30 + S 2));
    [cbn; reflexivity| |discriminate].
  eapply (exec_finally_returned 30 me _ _ _ _ _ tt 2).
  - exact Hcancel.
  - cbn. destruct (decide (me = me)); [reflexivity | congruence].
Qed.

(** [pause()] on a consistent scheduler with no cancellation pending
    returns with playback stopped. *)
Lemma pause_stops_playback (fuel : nat) (me : ThreadId) (w : World) :
  (35 <= fuel)%nat -> consistent w -> _cancel_lock w = Unlocked -> _cancelled w = false ->
  exists w', exec fuel me pause w = (Returned tt, w') /\
             is_running_value w' = false /\ consistent w' /\ _cancelled w' = false.
Proof.
  intros Hfuel Hcons Hlock Hc.
  destruct Hcons as [ph c l i fs0 fu pub s -> Hph Hi]. cbn in Hlock, Hc. subst l c.
  destruct (locked_cancel me ph false i fs0 fu pub s Hph Hi)
    as (ph1 & c1 & i1 & fu1 & pub1 & s1 & Hex & Hph1 & Hi1 & Hc1).
  destruct (Hc1 eq_refl) as [-> Hidle].
  eexists. split; [apply (exec_mono 35); [exact Hex | discriminate | exact Hfuel]|].
  split; [apply not_running_of_idle; assumption|].
  split; [eapply Consistent; [reflexivity | exact Hph1 | exact Hi1] | reflexivity].
Qed.

Lemma run_playback_idle (me : ThreadId) (ph : @phase Frame) c l i fs0 fu pub s :
  phase_ok fs0 fu ph -> idle_phase ph ->
  exec 13 me (run_playback false) (world_at ph c l i fs0 fu pub s)
  = (Returned tt,
     world_at (Queued (fresh (dom fu))) c l i fs0 (<[fresh (dom fu) := PENDING]> fu) pub s).
Proof.
  intros Hph Hidle.
  pose proof (is_running_exec 0 me (world_at ph c l i fs0 fu pub s)) as Hrun.
  rewrite (not_running_of_idle ph c l i fs0 fu pub s Hph Hidle) in Hrun.
  unfold run_playback.
  eapply (exec_bind_returned (9 + 0) me is_running _ _ _ _ _ _ 4);
    [exact Hrun| |discriminate].
  destruct ph; cbn in Hidle; try tauto; cbn; reflexivity.
Qed.

(** X19. [play], [pause] and [step] take turns in their locked
    sections: in every interleaving of any number of callers of these
    three operations with each other and with the worker, started with
    the lock free, at most one caller is inside its
    [with self._cancel_lock] block, that caller owns the lock, and no
    caller outside its block does. *)
Theorem lock_is_exclusive_under_interleaving (w : World)
    (ps : list (prog Frame unit)) (ts : list turn) (s : System) :
  worker_lock_free w -> _cancel_lock w = Unlocked ->
  (forall i p, ps !! i = Some p -> locking_operation p) ->
  run_turns ts (mkSystem ps w) = Some s ->
  (forall i j p q,
      callers s !! i = Some p -> callers s !! j = Some q ->
      holds p = true -> holds q = true -> i = j)
  /\
  (forall i p,
      callers s !! i = Some p -> holds p = true ->
      _cancel_lock (world s) = LockedBy (S i) 0)
  /\
  (forall i p depth,
      callers s !! i = Some p -> holds p = false ->
      _cancel_lock (world s) <> LockedBy (S i) depth).
Proof.
  intros Hfree Hlock Hps Hrun.
  assert (Hinv : lock_invariant s).
  { apply (run_turns_lock ts (mkSystem ps w) s); [|exact Hrun].
    apply lock_invariant_start; auto. }
  split; [|split].
  - intros i j p q. apply lock_invariant_exclusive. exact Hinv.
  - intros i p Hp Hh. destruct Hinv as [_ Hall].
    destruct (Hall i p Hp) as [_ Hag]. unfold lock_agrees in Hag.
    rewrite Hh in Hag. exact Hag.
  - intros i p depth Hp Hh. destruct Hinv as [_ Hall].
    destruct (Hall i p Hp) as [_ Hag]. unfold lock_agrees in Hag.
    rewrite Hh in Hag. apply Hag.
Qed.

(** X20. In sequential use (no task, or one task that is queued,
    running or has returned normally), with no cancellation pending,
    the lock free and a publisher that accepts the frames, [play()]
    restarts playback: when it leaves the lock the previous worker has
    been stopped (nothing is queued or running in the executor and
    [is_running] is false), and the worker it then submits, after the
    lock is released, is the only one and is the one the task handle
    names. *)
Theorem play_restarts_playback (fuel : nat) (me : ThreadId) (w : World) :
  (50 <= fuel)%nat ->
  consistent w -> _cancel_lock w = Unlocked -> _cancelled w = false ->
  exists w1 w' f,
    exec fuel me (with_cancel_lock (cancel_playback true)) w = (Returned tt, w1) /\
    threads w1 = mkExecutor [] None /\
    is_running_value w1 = false /\
    _cancel_lock w1 = Unlocked /\
    exec fuel me (run_playback false) w1 = (Returned tt, w') /\
    exec fuel me play w = (Returned tt, w') /\
    threads w' = mkExecutor [(f, bound_run)] None /\
    _run_task w' = Some f /\
    future_state w' f = Some PENDING /\
    consistent w'.
Proof.
  intros Hfuel Hcons Hlock Hc.
  destruct Hcons as [ph c l i fs0 fu pub s0 -> Hph Hi]. cbn in Hlock, Hc. subst l c.
  destruct (locked_cancel me ph false i fs0 fu pub s0 Hph Hi)
    as (ph1 & c1 & i1 & fu1 & pub1 & s1 & Hex & Hph1 & Hi1 & Hc1).
  destruct (Hc1 eq_refl) as [-> Hidle].
  pose proof (run_playback_idle me ph1 false Unlocked i1 fs0 fu1 pub1 s1 Hph1 Hidle) as Hrp.
  eexists _, _, (fresh (dom fu1)).
  split; [apply (exec_mono 35); [exact Hex | discriminate | lia]|].
  split; [destruct ph1; cbn in Hidle; try tauto; reflexivity|].
  split; [apply not_running_of_idle; assumption|].
  split; [reflexivity|].
  split; [apply (exec_mono 13); [exact Hrp | discriminate | lia]|].
  split.
  - apply (exec_mono (35 + 13)); [|discriminate|lia].
    unfold play.
    eapply exec_bind_returned; [exact Hex | exact Hrp | discriminate].
  - split; [reflexivity|]. split; [reflexivity|].
    split; [apply lookup_insert_eq|].
    eapply Consistent; [reflexivity | | exact Hi1].
    cbn. apply lookup_insert_eq.
Qed.

End Accepting.


(** *** The frame index stays valid *)

Lemma result_of_may_return {A} (fs0 : list Frame) (p : prog Frame A) (a : A) :
  result_of p = Some (inr a) -> may_return fs0 p a.
Proof.
  revert a. destruct p; cbn; intros x H; try discriminate.
  injection H as ->. reflexivity.
Qed.

Lemma keeps_index_then_ {A B} fs0 (p : prog Frame A) (k : A -> prog Frame B) :
  keeps_index fs0 p -> (forall a, may_return fs0 p a -> keeps_index fs0 (k a)) ->
  keeps_index fs0 (then_ p k).
Proof.
  intros Hp Hk. unfold then_.
  destruct (result_of p) as [[e|a]|] eqn:Hr; cbn; auto.
  apply Hk. apply result_of_may_return. exact Hr.
Qed.

Lemma may_return_then_ {A B} fs0 (p : prog Frame A) (k : A -> prog Frame B) x :
  may_return fs0 (then_ p k) x -> exists a, may_return fs0 p a /\ may_return fs0 (k a) x.
Proof.
  unfold then_.
  destruct (result_of p) as [[e|a]|] eqn:Hr; cbn; auto.
  - intros [].
  - intros H. exists a. split; [apply result_of_may_return; exact Hr | exact H].
Qed.

Lemma keeps_index_ensure {A} fs0 (p : prog Frame A) (c : prog Frame unit) :
  keeps_index fs0 p -> keeps_index fs0 c -> keeps_index fs0 (ensure p c).
Proof.
  intros Hp Hc. unfold ensure.
  destruct (result_of p) as [[e|a]|]; cbn; auto.
Qed.

Lemma may_return_ensure {A} fs0 (p : prog Frame A) (c : prog Frame unit) x :
  may_return fs0 (ensure p c) x -> may_return fs0 p x.
Proof.
  unfold ensure.
  destruct (result_of p) as [[e|a]|] eqn:Hr; cbn; auto.
  - intros (_ & _ & []).
  - intros (_ & _ & ->). apply result_of_may_return. exact Hr.
Qed.

Lemma do_op_keeps (fs0 : list Frame) (me : ThreadId) {A} (o : op Frame A)
    (w w' : World) (r : exn + A) :
  keeps_index fs0 (Prim o) -> frames w = fs0 -> index_ok fs0 (frame_index w) ->
  do_op send_frame me o w = Some (r, w') ->
  frames w' = fs0 /\ index_ok fs0 (frame_index w') /\
  active (threads w') = active (threads w) /\
  (forall a, r = inr a -> may_return fs0 (Prim o) a).
Proof.
  intros Hk Hfs Hi Hop. world_fields w.
  cbn [frames frame_index threads active] in *.
  destruct o; cbn in Hop, Hk |- *;
    try (injection Hop as <- <-; cbn; repeat split; auto;
         first [apply Hi | apply Hk | congruence]).
  - (* Future_result *)
    destruct (future_state _ f) as [[| | |[e|]]|]; try discriminate;
      injection Hop as <- <-; cbn; repeat split; auto; apply Hi.
  - (* Lock_acquire *)
    destruct wl as [|owner depth].
    + injection Hop as <- <-; cbn; repeat split; auto; apply Hi.
    + destruct (decide (owner = me)); [|discriminate].
      injection Hop as <- <-; cbn; repeat split; auto; apply Hi.
  - (* Lock_release *)
    destruct wl as [|owner depth].
    + injection Hop as <- <-; cbn; repeat split; auto; apply Hi.
    + destruct (decide (owner = me));
        injection Hop as <- <-; cbn; repeat split; auto; apply Hi.
  - (* Send_frame *)
    destruct (send_frame i fr wp) as [pub' [e|]];
      injection Hop as <- <-; cbn; repeat split; auto; apply Hi.
Qed.

Lemma pstep_keeps (fs0 : list Frame) (me : ThreadId) {A} (p : prog Frame A) :
  forall (w w' : World) (p' : prog Frame A),
  keeps_index fs0 p -> frames w = fs0 -> index_ok fs0 (frame_index w) ->
  pstep me p w = Some (p', w') ->
  keeps_index fs0 p' /\ (forall x, may_return fs0 p' x -> may_return fs0 p x) /\
  frames w' = fs0 /\ index_ok fs0 (frame_index w') /\
  active (threads w') = active (threads w).
Proof.
  induction p as [A a|A e|A o|A B p IHp k IHk|A p IHp c IHc|cond IHcond body IHbody];
    intros w w' p' Hk Hfs Hi Hstep; cbn [pstep] in Hstep.
  - discriminate.
  - discriminate.
  - destruct (do_op send_frame me o w) as [[[e|a] w1]|] eqn:Hop; [| |discriminate];
      injection Hstep as <- <-;
      destruct (do_op_keeps fs0 me o w w1 _ Hk Hfs Hi Hop) as (H1 & H2 & H3 & H4);
      cbn [keeps_index may_return]; repeat split; auto; try apply H2.
    + intros x [].
    + intros x ->. apply H4. reflexivity.
  - destruct Hk as [Hkp Hkk].
    destruct (result_of p) as [r|] eqn:Hr.
    + injection Hstep as <- <-. repeat split; auto; try apply Hi.
      * apply keeps_index_then_; assumption.
      * intros x. apply may_return_then_.
    + destruct (pstep me p w) as [[p1 w1]|] eqn:Hp; [|discriminate].
      injection Hstep as <- <-.
      destruct (IHp w w1 p1 Hkp Hfs Hi Hp) as (H1 & H2 & H3 & H4 & H5).
      repeat split; auto; try apply H4.
      * apply keeps_index_then_; auto.
      * intros x Hx. apply may_return_then_ in Hx. destruct Hx as (a & Ha & Hx).
        exists a. split; auto.
  - destruct Hk as [Hkp Hkc].
    destruct (result_of p) as [r|] eqn:Hr.
    + injection Hstep as <- <-. repeat split; auto; try apply Hi.
      * apply keeps_index_ensure; assumption.
      * intros x Hx. apply may_return_ensure in Hx. exact Hx.
    + destruct (pstep me p w) as [[p1 w1]|] eqn:Hp; [|discriminate].
      injection Hstep as <- <-.
      destruct (IHp w w1 p1 Hkp Hfs Hi Hp) as (H1 & H2 & H3 & H4 & H5).
      repeat split; auto; try apply H4.
      * apply keeps_index_ensure; auto.
      * intros x Hx. apply may_return_ensure in Hx. exact (H2 x Hx).
  - destruct Hk as [Hkc Hkb]. injection Hstep as <- <-.
    repeat split; auto; try apply Hi.
    cbn. intros [|] _; cbn; auto.
Qed.


Lemma keeps_index_py_getitem {A} (fs0 : list Frame) (l : list A) (i : Z) :
  keeps_index fs0 (@py_getitem Frame A l i).
Proof.
  unfold py_getitem. destruct (_ || _); [exact I|].
  destruct (l !! _); exact I.
Qed.

Lemma keeps_index_py_mod (fs0 : list Frame) (a b : Z) :
  keeps_index fs0 (@py_mod Frame a b).
Proof. unfold py_mod. destruct (b =? 0); exact I. Qed.

Lemma may_return_py_mod (fs0 : list Frame) (a b n : Z) :
  may_return fs0 (@py_mod Frame a b) n -> b <> 0 /\ n = a mod b.
Proof.
  unfold py_mod. destruct (b =? 0) eqn:H0; cbn; [intros []|].
  intros ->. apply Z.eqb_neq in H0. auto.
Qed.

Lemma keeps_index_step_one_frame (fs0 : list Frame) :
  keeps_index fs0 (@_step_one_frame Frame).
Proof.
  unfold _step_one_frame. cbn -[py_getitem py_mod].
  split; [exact I|]. intros i _.
  split; [exact I|]. intros fs _.
  split; [exact I|]. intros j _.
  split; [apply keeps_index_py_getitem|]. intros fr _.
  split; [exact I|]. intros _ _.
  split; [exact I|]. intros i' _.
  split; [exact I|]. intros fs' ->.
  split; [apply keeps_index_py_mod|]. intros n Hn.
  apply may_return_py_mod in Hn. destruct Hn as [Hne ->].
  apply Z.mod_pos_bound. lia.
Qed.

Ltac keeps_auto :=
  repeat first
    [ exact I
    | assumption
    | progress cbn -[_step_one_frame _run cancel_playback run_playback py_mod py_getitem]
    | split
    | intro
    | match goal with
      | |- context [match ?x with _ => _ end] => is_var x; destruct x
      end ].

Lemma keeps_index_run (fs0 : list Frame) : keeps_index fs0 (@_run Frame).
Proof.
  pose proof (keeps_index_step_one_frame fs0) as H.
  unfold _run. keeps_auto.
Qed.

Lemma keeps_index_cancel_playback (fs0 : list Frame) (wait : bool) :
  keeps_index fs0 (@cancel_playback Frame wait).
Proof. unfold cancel_playback. keeps_auto. Qed.

Lemma keeps_index_run_playback (fs0 : list Frame) (block : bool) :
  keeps_index fs0 (@run_playback Frame block).
Proof.
  pose proof (keeps_index_run fs0) as H.
  unfold run_playback. keeps_auto.
Qed.

Lemma keeps_index_api (fs0 : list Frame) (c : api_call) :
  fs0 <> [] -> keeps_index fs0 (@api_prog Frame c).
Proof.
  intros Hne.
  pose proof (keeps_index_cancel_playback fs0 true) as Hc.
  pose proof (keeps_index_step_one_frame fs0) as Hs.
  pose proof (keeps_index_run_playback fs0 false) as Hr.
  destruct c; cbn [api_prog].
  - unfold play, with_cancel_lock. keeps_auto.
  - unfold pause, with_cancel_lock. keeps_auto.
  - unfold step, with_cancel_lock. cbn -[cancel_playback _step_one_frame].
    split; [exact I|]. intros _ _. split; [|exact I].
    split; [exact Hc|]. intros _ _. exact Hs.
  - cbn. unfold index_ok. destruct fs0; [congruence|]. cbn [length]. lia.
  - apply keeps_index_run_playback.
  - apply keeps_index_cancel_playback.
Qed.

Lemma pool_step_keeps (fs0 : list Frame) (w w' : World) :
  index_invariant fs0 w -> pool_step w = Some w' -> index_invariant fs0 w'.
Proof.
  intros (Hfs & Hi & Hw) Hstep. unfold pool_step in Hstep.
  destruct (active (threads w)) as [[f p]|] eqn:Hact.
  - destruct (result_of p) as [[e|a]|] eqn:Hr.
    + injection Hstep as <-. repeat split; cbn; auto; apply Hi.
    + injection Hstep as <-. repeat split; cbn; auto; apply Hi.
    + destruct (pstep pool_thread p w) as [[p1 w1]|] eqn:Hp; [|discriminate].
      injection Hstep as <-.
      destruct (pstep_keeps fs0 pool_thread p w w1 p1 Hw Hfs Hi Hp)
        as (H1 & _ & H3 & H4 & _).
      repeat split; cbn; auto; apply H4.
  - destruct (queue (threads w)) as [|[f c] rest]; [discriminate|].
    destruct (future_cancelled w f); injection Hstep as <-;
      repeat split; cbn; auto; try apply Hi.
    destruct c. apply keeps_index_run.
Qed.

Lemma exec_keeps (fs0 : list Frame) (me : ThreadId) {A} (fuel : nat) :
  forall (p : prog Frame A) (w w' : World) r,
  keeps_index fs0 p -> index_invariant fs0 w ->
  exec fuel me p w = (r, w') -> index_invariant fs0 w'.
Proof.
  induction fuel as [|fuel IH]; intros p w w' r Hk Hinv He.
  - cbn in He. injection He as _ <-. exact Hinv.
  - rewrite exec_S in He.
    destruct (result_of p) as [[e|a]|].
    + injection He as _ <-. exact Hinv.
    + injection He as _ <-. exact Hinv.
    + destruct (pstep me p w) as [[p1 w1]|] eqn:Hp.
      * destruct Hinv as (Hfs & Hi & Hw).
        destruct (pstep_keeps fs0 me p w w1 p1 Hk Hfs Hi Hp)
          as (H1 & _ & H3 & H4 & H5).
        apply (IH p1 w1 w' r H1); [|exact He].
        repeat split; auto; try apply H4. rewrite H5. exact Hw.
      * destruct (pool_step w) as [w1|] eqn:Hpool.
        -- apply (IH p w1 w' r Hk); [|exact He].
           apply (pool_step_keeps fs0 w w1 Hinv Hpool).
        -- injection He as _ <-. exact Hinv.
Qed.

Lemma after_event_keeps (fs0 : list Frame) (e : event) (w : World) :
  fs0 <> [] -> index_invariant fs0 w -> index_invariant fs0 (after_event w e).
Proof.
  intros Hne Hinv. destruct e as [me c fuel|]; cbn.
  - destruct (exec fuel me (api_prog c) w) as [r w'] eqn:He. cbn.
    apply (exec_keeps fs0 me fuel _ w w' r (keeps_index_api fs0 c Hne) Hinv He).
  - destruct (pool_step w) as [w'|] eqn:Hp; [|exact Hinv].
    apply (pool_step_keeps fs0 w w' Hinv Hp).
Qed.

Lemma after_events_keeps (fs0 : list Frame) (es : list event) :
  fs0 <> [] -> forall w : World,
  index_invariant fs0 w -> index_invariant fs0 (after_events es w).
Proof.
  intros Hne. induction es as [|e es IH]; intros w Hinv; cbn.
  - exact Hinv.
  - apply IH. apply after_event_keeps; assumption.
Qed.

Lemma init_index_invariant (fs0 : list Frame) (pub : Publisher) :
  fs0 <> [] -> index_invariant fs0 (__init__ fs0 pub).
Proof.
  intros Hne. split; [reflexivity|]. split; [|exact I].
  unfold index_ok. cbn. destruct fs0; [congruence|]. cbn [length]. lia.
Qed.

(** C6. For a frame sequence of length N > 0, the frame index is in
    [0, N) after construction and after every operation: after any
    sequence of calls of [play], [pause], [step], [reset],
    [run_playback], [cancel_playback] (each followed for any number of
    steps) and of steps of the worker thread. *)
Theorem frame_index_always_in_range (all_framedata : list Frame) (pub : Publisher)
    (es : list event) :
  (0 < length all_framedata)%nat ->
  0 <= frame_index (after_events es (__init__ all_framedata pub))
    < Z.of_nat (length all_framedata).
Proof.
  intros HN.
  assert (Hne : all_framedata <> []) by (destruct all_framedata; cbn in HN; [lia|congruence]).
  apply (after_events_keeps all_framedata es Hne (__init__ all_framedata pub)
           (init_index_invariant all_framedata pub Hne)).
Qed.

End Props.

(** ** The sample schedulers *)

(** C1. [cancel_playback()] on an idle scheduler whose playback has
    finished is not a no-op: [is_running] is false and the flag is
    clear, and the call sets the flag for good; the next [play()] then
    starts a worker that returns at once without sending a frame. *)
Theorem cancel_playback_idle_after_playback_sets_flag :
  exec accepting 20 1%nat is_running demo_paused = (Returned false, demo_paused) /\
  _cancelled demo_paused = false /\
  exec accepting 20 1%nat (cancel_playback false) demo_paused
  = (Returned tt, with_cancelled true demo_paused) /\
  _cancelled (with_cancelled true demo_paused) = true /\
  sent (pool_run accepting 20
          (snd (exec accepting 60 1%nat play (with_cancelled true demo_paused))))
  = sent demo_paused /\
  is_running_value
    (pool_run accepting 20
       (snd (exec accepting 60 1%nat play (with_cancelled true demo_paused))))
  = false.
Proof. repeat split; vm_compute; reflexivity. Qed.

(** C3. [is_running] is false after construction, but [pause()] and
    [cancel_playback(wait=True)] return at once, with the worker still
    running, when the flag was already set by [cancel_playback()]. *)
Theorem pause_returns_while_worker_runs :
  exec accepting 20 1%nat is_running demo_fresh = (Returned false, demo_fresh) /\
  exec accepting 40 1%nat pause demo_cancelling = (Returned tt, demo_cancelling) /\
  exec accepting 40 1%nat (cancel_playback true) demo_cancelling
  = (Returned tt, demo_cancelling) /\
  exec accepting 20 1%nat is_running demo_cancelling = (Returned true, demo_cancelling).
Proof. repeat split; vm_compute; reflexivity. Qed.

(** C2, counterexample: after the worker has seen the flag and
    returned, the flag is clear but the task handle is still stored. *)
Lemma worker_exit_leaves_task_handle :
  threads (pool_run accepting 20 demo_cancelling) = mkExecutor [] None /\
  future_state (pool_run accepting 20 demo_cancelling) 0%nat = Some (FINISHED None) /\
  _cancelled (pool_run accepting 20 demo_cancelling) = false /\
  ~ (_cancelled (pool_run accepting 20 demo_cancelling) = false /\
     _run_task (pool_run accepting 20 demo_cancelling) = None).
Proof.
  split; [vm_compute; reflexivity|]. split; [vm_compute; reflexivity|].
  split; [vm_compute; reflexivity|].
  intros [_ H]. vm_compute in H. discriminate H.
Qed.

(** C7, counterexample: on an empty sequence [play()] returns normally,
    so no error reaches its caller, and it is not a no-op: a task handle
    is stored, and once the worker has failed the next [pause()] raises
    [IndexError], while [pause()] on the new scheduler returns. *)
Lemma play_on_empty_neither_noop_nor_error :
  fst (exec accepting 40 1%nat play demo_empty) = Returned tt /\
  snd (exec accepting 40 1%nat play demo_empty) <> demo_empty /\
  fst (exec accepting 40 1%nat pause demo_empty) = Returned tt /\
  fst (exec accepting 40 1%nat pause demo_empty_failed) = Raised IndexError.
Proof.
  split; [vm_compute; reflexivity|]. split.
  - intros H. apply (f_equal _run_task) in H. vm_compute in H. discriminate H.
  - split; vm_compute; reflexivity.
Qed.

(** C4 on the sample scheduler with a queued task. *)
Lemma run_playback_while_running_raises_witness :
  exec accepting 20 1%nat is_running demo_queued = (Returned true, demo_queued) /\
  exec accepting 20 1%nat (run_playback false) demo_queued
  = (Raised (RuntimeError "The trajectory is already playing on a thread!"), demo_queued).
Proof.
  assert (H : exec accepting 20 1%nat is_running demo_queued = (Returned true, demo_queued))
    by (vm_compute; reflexivity).
  split; [exact H|].
  apply (run_playback_while_running_raises accepting 20 1%nat false demo_queued); [lia | exact H].
Defined.

(** The sample publisher accepts every frame, and the sample scheduler
    with playback running is consistent. *)
Lemma accepting_accepts (i : Z) (fr : nat) (pub : unit) : snd (accepting i fr pub) = None.
Proof. reflexivity. Defined.

Lemma demo_playing_consistent : consistent demo_playing.
Proof.
  apply (Consistent demo_playing (Working 0%nat W_index1) false Unlocked 0 demo_frames
           {[ 0%nat := RUNNING ]} tt []).
  - vm_compute. reflexivity.
  - split; [vm_compute; reflexivity | exact I].
  - unfold index_ok. cbn. lia.
Defined.

(** C6 on the sample history. *)
Lemma frame_index_always_in_range_witness :
  0 <= frame_index (after_events accepting demo_history (__init__ demo_frames tt))
    < Z.of_nat (length demo_frames).
Proof.
  apply (frame_index_always_in_range accepting demo_frames tt demo_history).
  vm_compute. lia.
Defined.

(** C9 on a new scheduler whose publisher rejects every frame. *)
Lemma send_failure_keeps_index_witness :
  exec rejecting 20 1%nat _step_one_frame demo_fresh
  = (Raised (PublisherError 1), with_publisher tt (sent demo_fresh) demo_fresh)
  /\ frame_index (with_publisher tt (sent demo_fresh) demo_fresh) = frame_index demo_fresh
  /\ (_cancelled demo_fresh = false ->
      exec rejecting 20 1%nat _run demo_fresh
      = (Raised (PublisherError 1), with_publisher tt (sent demo_fresh) demo_fresh))
  /\ (_run_task demo_fresh = None -> _cancel_lock demo_fresh = Unlocked ->
      exec rejecting 20 1%nat step demo_fresh
      = (Raised (PublisherError 1), with_publisher tt (sent demo_fresh) demo_fresh)).
Proof.
  apply (send_failure_keeps_index rejecting 20 1%nat demo_fresh 10%nat (PublisherError 1) tt).
  - lia.
  - unfold index_ok. vm_compute. split; [discriminate | reflexivity].
  - vm_compute. reflexivity.
  - vm_compute. reflexivity.
Defined.

(** C2 (amended) on the sample scheduler whose worker starts with the
    flag set. *)
Lemma worker_exit_clears_flag_keeps_handle_witness :
  pool_run accepting 4 demo_cancelled_at_test
  = with_threads (mkExecutor (queue (threads demo_cancelled_at_test)) None)
      (with_futures (<[0%nat := FINISHED None]> (futures demo_cancelled_at_test))
         (with_cancelled false demo_cancelled_at_test))
  /\ _cancelled (pool_run accepting 4 demo_cancelled_at_test) = false
  /\ _run_task (pool_run accepting 4 demo_cancelled_at_test) = _run_task demo_cancelled_at_test
  /\ future_state (pool_run accepting 4 demo_cancelled_at_test) 0%nat = Some (FINISHED None)
  /\ (_run_task demo_cancelled_at_test = Some 0%nat ->
      is_running_value (pool_run accepting 4 demo_cancelled_at_test) = false).
Proof.
  apply (worker_exit_clears_flag_keeps_handle accepting demo_cancelled_at_test 0%nat).
  - vm_compute. reflexivity.
  - vm_compute. reflexivity.
Defined.

(** X19 on two callers of [play()] while playback runs. *)
Lemma two_players_lock (i : nat) (p : prog nat unit) :
  [play; play] !! i = Some p -> locking_operation p.
Proof.
  destruct i as [|[|i]]; cbn; intros H; try discriminate;
    injection H as <-; left; reflexivity.
Defined.

Lemma lock_is_exclusive_under_interleaving_witness :
  (forall i j p q,
      callers demo_locked !! i = Some p -> callers demo_locked !! j = Some q ->
      holds p = true -> holds q = true -> i = j)
  /\
  (forall i p,
      callers demo_locked !! i = Some p -> holds p = true ->
      _cancel_lock (world demo_locked) = LockedBy (S i) 0)
  /\
  (forall i p depth,
      callers demo_locked !! i = Some p -> holds p = false ->
      _cancel_lock (world demo_locked) <> LockedBy (S i) depth).
Proof.
  apply (lock_is_exclusive_under_interleaving accepting demo_playing
           [play; play] demo_turns demo_locked).
  - exact (consistent_worker_lock_free demo_playing demo_playing_consistent).
  - vm_compute. reflexivity.
  - exact two_players_lock.
  - vm_compute. reflexivity.
Defined.

(** X20 on the sample scheduler with playback running. *)
Lemma play_restarts_playback_witness :
  exists w1 w' f,
    exec accepting 50 1%nat (with_cancel_lock (cancel_playback true)) demo_playing
    = (Returned tt, w1) /\
    threads w1 = mkExecutor [] None /\
    is_running_value w1 = false /\
    _cancel_lock w1 = Unlocked /\
    exec accepting 50 1%nat (run_playback false) w1 = (Returned tt, w') /\
    exec accepting 50 1%nat play demo_playing = (Returned tt, w') /\
    threads w' = mkExecutor [(f, bound_run)] None /\
    _run_task w' = Some f /\
    future_state w' f = Some PENDING /\
    consistent w'.
Proof.
  apply (play_restarts_playback accepting accepting_accepts 50 1%nat demo_playing).
  - lia.
  - exact demo_playing_consistent.
  - vm_compute. reflexivity.
  - vm_compute. reflexivity.
Defined.

Section MoreProps.
Context {Frame Publisher : Type}.
Variable send_frame : Z -> Frame -> Publisher -> Publisher * option exn.
Abbreviation World := (@World Frame Publisher).
Abbreviation System := (@System Frame Publisher).
Abbreviation exec := (exec send_frame).
Abbreviation pstep := (pstep send_frame).
Abbreviation pool_step := (pool_step send_frame).
Abbreviation pool_run := (pool_run send_frame).
Abbreviation turn_step := (turn_step send_frame).
Abbreviation run_turns := (run_turns send_frame).
Abbreviation steps := (steps send_frame).

Ltac exec_step := cbn [Nat.add]; rewrite (exec_S send_frame); cbn -[exec].

Ltac world_fields w :=
  destruct w as [[wq wa] wt wc wl wi wfs wfu wp ws].

(** *** [cancel_playback(wait=True)] and [pause] on an idle scheduler *)





(** With the flag set, or without a task handle, [pause()] returns at
    once. *)
Lemma pause_returns_at_once (fuel : nat) (me : ThreadId) (w : World) :
  (8 <= fuel)%nat -> _cancelled w = true \/ _run_task w = None ->
  _cancel_lock w = Unlocked ->
  exec fuel me pause w = (Returned tt, w).
Proof.
  intros Hfuel Hc Hl. world_fields w. cbn in Hc, Hl. subst wl.
  apply (exec_mono send_frame 8); [|discriminate|lia].
  destruct Hc as [->| ->]; [destruct wt|]; cbn;
    (destruct (decide (me = me)); [reflexivity | congruence]).
Qed.

(** *** Exceptions through sequencing and [try ... finally] *)



(** *** A worker that was stopped by an exception *)



(** *** The lock and the exits of a call *)

Lemma exec_lock (fuel : nat) (me : ThreadId) {A} :
  forall (p : prog Frame A) (w w' : World) r,
  bracketed p -> lock_agrees me p w -> worker_lock_free w ->
  _cancel_lock w = Unlocked \/ _cancel_lock w = LockedBy me 0 ->
  exec fuel me p w = (r, w') ->
  worker_lock_free w' /\
  (_cancel_lock w' = Unlocked \/ _cancel_lock w' = LockedBy me 0) /\
  ((exists a, r = Returned a) \/ (exists e, r = Raised e) -> _cancel_lock w' = Unlocked).
Proof.
  induction fuel as [|fuel IH]; intros p w w' r Hb Hag Hw Hl He.
  - cbn in He. injection He as <- <-. split; [exact Hw|]. split; [exact Hl|].
    intros [[a Ha]|[e Ha]]; discriminate.
  - rewrite (exec_S send_frame) in He.
    destruct (result_of p) as [[e|a]|] eqn:Hres.
    + injection He as <- <-. split; [exact Hw|]. split; [exact Hl|]. intros _.
      unfold lock_agrees in Hag. rewrite (result_of_holds p _ Hres) in Hag.
      destruct Hl as [Hl|Hl]; [exact Hl|]. destruct (Hag _ Hl).
    + injection He as <- <-. split; [exact Hw|]. split; [exact Hl|]. intros _.
      unfold lock_agrees in Hag. rewrite (result_of_holds p _ Hres) in Hag.
      destruct Hl as [Hl|Hl]; [exact Hl|]. destruct (Hag _ Hl).
    + destruct (pstep me p w) as [[p1 w1]|] eqn:Hst.
      * destruct (pstep_bracketed send_frame me p w w1 p1 Hb Hag Hst) as (H1 & H2 & H3 & H4).
        apply (IH p1 w1 w' r H1 H2); [| |exact He].
        -- unfold worker_lock_free in *. rewrite H4. exact Hw.
        -- destruct H3 as [H3|[[_ H3]|[_ H3]]]; [rewrite H3; exact Hl|right; exact H3|left; exact H3].
      * destruct (pool_step w) as [w1|] eqn:Hpool.
        -- destruct (pool_step_lock send_frame w w1 Hw Hpool) as [H1 H2].
           apply (IH p w1 w' r Hb); [|exact H1| |exact He].
           ++ unfold lock_agrees in *. rewrite H2. exact Hag.
           ++ rewrite H2. exact Hl.
        -- injection He as <- <-. split; [exact Hw|]. split; [exact Hl|].
           intros [[a Ha]|[e Ha]]; discriminate.
Qed.

(** X4. [play()], [pause()] and [step()] give the lock back on every
    exit: whatever the publisher does, when the call returns or raises
    the lock is free, and at every moment before that it is free or
    held once by the caller. *)
Theorem lock_released_on_every_exit (fuel : nat) (me : ThreadId) (p : prog Frame unit)
    (w w' : World) (r : outcome unit) :
  locking_operation p -> worker_lock_free w -> _cancel_lock w = Unlocked ->
  exec fuel me p w = (r, w') ->
  (_cancel_lock w' = Unlocked \/ _cancel_lock w' = LockedBy me 0) /\
  (r = Returned tt \/ (exists e, r = Raised e) -> _cancel_lock w' = Unlocked).
Proof.
  intros Hp Hw Hl He.
  destruct (bracketed_locking_operation p Hp) as [Hb Hh].
  assert (Hag : lock_agrees me p w).
  { unfold lock_agrees. rewrite Hh, Hl. discriminate. }
  destruct (exec_lock fuel me p w w' r Hb Hag Hw (or_introl Hl) He) as (_ & H1 & H2).
  split; [exact H1|]. intros [->|Hr]; apply H2; [left; exists tt; reflexivity|right; exact Hr].
Qed.

(** *** The frame index under every interleaving *)

Lemma turn_step_keeps (fs0 : list Frame) (t : turn) (s s' : System) :
  index_invariant fs0 (world s) ->
  (forall i p, callers s !! i = Some p -> keeps_index fs0 p) ->
  turn_step t s = Some s' ->
  index_invariant fs0 (world s') /\
  (forall i p, callers s' !! i = Some p -> keeps_index fs0 p).
Proof.
  intros Hinv Hc Hstep. destruct t as [i|]; cbn in Hstep.
  - destruct (callers s !! i) as [p|] eqn:Hp; [|discriminate].
    destruct (pstep (S i) p (world s)) as [[p' w']|] eqn:Hps; [|discriminate].
    injection Hstep as <-.
    destruct Hinv as (Hfs & Hi & Hw).
    destruct (pstep_keeps send_frame fs0 (S i) p (world s) w' p' (Hc i p Hp) Hfs Hi Hps)
      as (H1 & _ & H3 & H4 & H5).
    split.
    + split; [exact H3|]. split; [exact H4|]. cbn. rewrite H5. exact Hw.
    + intros j q Hq. cbn [callers] in Hq.
      destruct (decide (i = j)) as [<-|Hij].
      * rewrite (callers_lookup_insert_eq (callers s) i p' p Hp) in Hq.
        injection Hq as <-. exact H1.
      * rewrite (callers_lookup_insert_ne (callers s) i j p' Hij) in Hq.
        exact (Hc j q Hq).
  - destruct (pool_step (world s)) as [w'|] eqn:Hps; [|discriminate].
    injection Hstep as <-. split; [|exact Hc].
    exact (pool_step_keeps send_frame fs0 (world s) w' Hinv Hps).
Qed.

Lemma run_turns_keeps (fs0 : list Frame) (ts : list turn) :
  forall s s' : System,
  index_invariant fs0 (world s) ->
  (forall i p, callers s !! i = Some p -> keeps_index fs0 p) ->
  run_turns ts s = Some s' ->
  index_invariant fs0 (world s').
Proof.
  induction ts as [|t ts IH]; intros s s' Hinv Hc Hrun; cbn in Hrun.
  - injection Hrun as <-. exact Hinv.
  - destruct (turn_step t s) as [s1|] eqn:Ht; [|discriminate].
    destruct (turn_step_keeps fs0 t s s1 Hinv Hc Ht) as [H1 H2].
    exact (IH s1 s' H1 H2 Hrun).
Qed.

(** X12. Callers that run any operations of the scheduler at the same
    time, interleaved step by step with each other and with the worker
    in any order, never change the frame sequence and never leave the
    frame index outside of it. *)
Theorem frame_index_in_range_under_interleaving (all_framedata : list Frame)
    (pub : Publisher) (ps : list (prog Frame unit)) (ts : list turn) (s' : System) :
  all_framedata <> [] ->
  (forall i p, ps !! i = Some p -> exists c, p = api_prog c) ->
  run_turns ts (mkSystem ps (__init__ all_framedata pub)) = Some s' ->
  frames (world s') = all_framedata /\
  0 <= frame_index (world s') < Z.of_nat (length all_framedata).
Proof.
  intros Hne Hps Hrun.
  assert (Hc : forall i p, ps !! i = Some p -> keeps_index all_framedata p).
  { intros i p Hp. destruct (Hps i p Hp) as [c ->]. apply keeps_index_api. exact Hne. }
  destruct (run_turns_keeps all_framedata ts (mkSystem ps (__init__ all_framedata pub)) s'
              (init_index_invariant all_framedata pub Hne) Hc Hrun) as (H1 & H2 & _).
  split; [exact H1 | exact H2].
Qed.

(** *** The steps of [_run] *)

Abbreviation can_step := (can_step send_frame).
Abbreviation run_step := (run_step send_frame).

Lemma pstep_resume (me : ThreadId) (pos : worker_pos) (w : World) :
  can_step pos w ->
  pstep me (resume pos) w = Some (resume (fst (run_step pos w)), snd (run_step pos w)).
Proof.
  intros Hcan. destruct pos; cbn in Hcan; try contradiction; try reflexivity.
  - (* W_test *)
    cbn. destruct (_cancelled w); reflexivity.
  - (* W_getitem *)
    destruct (py_getitem_ok (Frame := Frame) fs j Hcan) as (fr & Hfr & Hget).
    cbn [run_step fst snd]. rewrite Hfr.
    cbn [resume]. unfold in_step, in_body, in_run, tail_getitem. cbn [result_of pstep].
    rewrite Hget. reflexivity.
  - (* W_send *)
    cbn. destruct (send_frame i fr (frame_publisher w)) as [pub' o].
    cbn in Hcan. subst o. reflexivity.
  - (* W_mod *)
    cbn [run_step fst snd resume].
    unfold in_step, in_body, in_run, tail_mod, py_mod.
    destruct (Z.of_nat (length fs') =? 0) eqn:H0.
    + apply Z.eqb_eq in H0. destruct fs'; [congruence|cbn in H0; lia].
    + reflexivity.
Qed.

Lemma run_step_threads (pos : worker_pos) (w : World) :
  threads (snd (run_step pos w)) = threads w /\
  _run_task (snd (run_step pos w)) = _run_task w /\
  _cancel_lock (snd (run_step pos w)) = _cancel_lock w /\
  futures (snd (run_step pos w)) = futures w /\
  frames (snd (run_step pos w)) = frames w.
Proof. destruct pos; cbn; auto. Qed.

Lemma result_of_resume (pos : worker_pos) :
  pos <> W_return -> result_of (@resume Frame pos) = None.
Proof. destruct pos; intros H; try reflexivity. congruence. Qed.

Lemma pool_step_resume (f : FutureId) (pos : worker_pos) (w : World) :
  active (threads w) = Some (f, resume pos) -> can_step pos w ->
  pool_step w
  = Some (with_threads (mkExecutor (queue (threads w))
                          (Some (f, resume (fst (run_step pos w)))))
            (snd (run_step pos w))).
Proof.
  intros Hact Hcan. unfold pool_step. rewrite Hact.
  rewrite result_of_resume by (intros ->; exact Hcan).
  rewrite (pstep_resume pool_thread pos w Hcan).
  destruct (run_step_threads pos w) as (-> & _). reflexivity.
Qed.

Lemma pool_step_return (f : FutureId) (w : World) :
  active (threads w) = Some (f, resume W_return) ->
  pool_step w
  = Some (with_threads (mkExecutor (queue (threads w)) None)
            (with_futures (<[f := FINISHED None]> (futures w)) w)).
Proof. intros Hact. unfold pool_step. rewrite Hact. reflexivity. Qed.

Lemma pool_run_S (n : nat) (w : World) :
  pool_run (S n) w = match pool_step w with Some w' => pool_run n w' | None => w end.
Proof. reflexivity. Qed.

(** *** A worker stopped by the publisher *)

(** X15. When the publisher raises in the worker, playback ends
    without a sign to any caller: the worker stops at once, the
    executor stores the exception in the future, and the scheduler is
    not running any more.  The frame is not counted as sent, and the
    frame index and the flag are left as they were, so a flag that was
    set stays set. *)
Theorem worker_stops_silently_on_publisher_error (f : FutureId) (i : Z) (fr : Frame)
    (w : World) (pub' : Publisher) (e : exn) :
  active (threads w) = Some (f, resume (W_send i fr)) ->
  send_frame i fr (frame_publisher w) = (pub', Some e) ->
  pool_run 2 w
  = with_threads (mkExecutor (queue (threads w)) None)
      (with_futures (<[f := FINISHED (Some e)]> (futures w))
         (with_publisher pub' (sent w) w)) /\
  (_run_task w = Some f -> is_running_value (pool_run 2 w) = false) /\
  sent (pool_run 2 w) = sent w /\
  frame_index (pool_run 2 w) = frame_index w /\
  _cancelled (pool_run 2 w) = _cancelled w.
Proof.
  intros Hact Hsend.
  assert (Hrun : pool_run 2 w
    = with_threads (mkExecutor (queue (threads w)) None)
        (with_futures (<[f := FINISHED (Some e)]> (futures w))
           (with_publisher pub' (sent w) w))).
  { destruct w as [[wq wa] wt wc wl wi wfs wfu wp ws].
    cbn [active threads] in Hact. cbn in Hsend. subst wa.
    rewrite pool_run_S. unfold pool_step at 1. cbn -[pool_run]. rewrite Hsend.
    cbn. reflexivity. }
  rewrite Hrun. split; [reflexivity|]. split; [|repeat split].
  intros Ht. unfold is_running_value, future_cancelled, future_done, future_state. cbn.
  rewrite Ht, lookup_insert_eq. reflexivity.
Qed.

(** *** [step()] on an empty frame sequence *)

(** X16. On an empty frame sequence [step()] raises [IndexError] when
    no playback has to be stopped first: the lookup of the frame fails
    before anything is sent, the lock is given back and the scheduler
    is as before. *)
Theorem step_on_empty_sequence (fuel : nat) (me : ThreadId) (w : World) :
  (12 <= fuel)%nat ->
  frames w = [] -> _cancelled w = true \/ _run_task w = None ->
  _cancel_lock w = Unlocked ->
  exec fuel me step w = (Raised IndexError, w).
Proof.
  intros Hfuel Hfs Hc Hl.
  destruct w as [[wq wa] wt wc wl wi wfs wfu wp ws]. cbn in Hfs, Hc, Hl. subst wfs wl.
  apply (exec_mono send_frame 12); [|discriminate|lia].
  assert (Hget : @py_getitem Frame Frame [] wi = Raise IndexError).
  { unfold py_getitem. cbv zeta. destruct (_ || _); reflexivity. }
  destruct Hc as [->| ->]; [destruct wt|];
    repeat exec_step; rewrite Hget; cbn;
    (destruct (decide (me = me)); [reflexivity | congruence]).
Qed.

Section AcceptingMore.

(** The publisher accepts every frame. *)
Hypothesis Haccept : forall i fr pub, snd (send_frame i fr pub) = None.

Lemma pos_ok_can_step (pos : worker_pos) (w : World) :
  pos_ok (frames w) pos -> index_ok (frames w) (frame_index w) ->
  pos <> W_return -> can_step pos w.
Proof.
  intros Hpos Hi Hret. destruct pos; cbn in *; auto.
  - destruct Hpos as [-> Hj]. exact Hj.
  - subst fs'. unfold index_ok in Hi. intros H. rewrite H in Hi. cbn in Hi. lia.
Qed.

Lemma run_step_keeps (pos : worker_pos) (w : World) :
  pos_ok (frames w) pos -> index_ok (frames w) (frame_index w) ->
  pos_ok (frames w) (fst (run_step pos w)) /\
  index_ok (frames w) (frame_index (snd (run_step pos w))).
Proof.
  intros Hpos Hi. destruct pos; cbn in *; auto.
  - destruct (_cancelled w); cbn; auto.
  - destruct Hpos as [-> Hj]. split; [|exact Hi].
    destruct (lookup_lt_is_Some_2 (frames w) (Z.to_nat j)) as [fr ->]; [|exact I].
    unfold index_ok in Hj. lia.
  - subst fs'. split; [|exact Hi]. unfold index_ok in *. apply Z.mod_pos_bound. lia.
Qed.

(** *** A worker that finds the flag set *)




(** *** The passes of the loop *)

Lemma pool_run_resume (m : nat) (f : FutureId) (pos : worker_pos) (w : World) :
  active (threads w) = Some (f, resume pos) -> can_step pos w ->
  pool_run (S m) w
  = pool_run m (with_threads (mkExecutor (queue (threads w))
                                (Some (f, resume (fst (run_step pos w)))))
                  (snd (run_step pos w))).
Proof. intros Hact Hcan. rewrite pool_run_S, (pool_step_resume f pos w Hact Hcan). reflexivity. Qed.

Ltac worker_turn :=
  cbn [Nat.add];
  erewrite pool_run_resume; [|reflexivity|cbn; auto];
  cbn -[pool_run resume].

Lemma one_pass (m : nat) (f : FutureId) (w : World) (fr : Frame) :
  active (threads w) = Some (f, resume W_loop) -> _cancelled w = false ->
  index_ok (frames w) (frame_index w) ->
  frames w !! Z.to_nat (frame_index w) = Some fr ->
  pool_run (12 + m) w
  = pool_run m
      (with_frame_index ((frame_index w + 1) mod Z.of_nat (length (frames w)))
         (with_publisher (fst (send_frame (frame_index w) fr (frame_publisher w)))
            (sent w ++ [(frame_index w, fr)]) w)).
Proof.
  intros Hact Hc Hi Hfr.
  destruct w as [[wq wa] wt wc wl wi wfs wfu wp ws]. cbn [active threads] in Hact. cbn in Hc, Hi, Hfr. subst wa wc.
  do 5 worker_turn.
  worker_turn. rewrite Hfr.
  do 3 worker_turn.
  worker_turn; [|intros ->; unfold index_ok in Hi; cbn in Hi; lia].
  do 2 worker_turn.
  reflexivity.
Qed.

(** X1. While the flag is clear the worker plays the frames in order
    and wraps around: [n] passes of its loop, 12 steps each, send the
    frame at the current index, then the one at the next index modulo
    the number of frames, and so on, each with its own index, and leave
    the frame index [n] positions further, modulo the number of
    frames.  The worker is then at the start of its loop again. *)
Theorem playback_sends_frames_in_order (n : nat) (f : FutureId) (w : World) :
  active (threads w) = Some (f, _run) -> _cancelled w = false ->
  index_ok (frames w) (frame_index w) ->
  let w' := pool_run (n * 12) w in
  sent w' = sent w ++ frames_from (frames w) (frame_index w) n /\
  frame_index w' = (frame_index w + Z.of_nat n) mod Z.of_nat (length (frames w)) /\
  threads w' = threads w /\ _cancelled w' = false /\ frames w' = frames w /\
  _run_task w' = _run_task w /\ futures w' = futures w.
Proof.
  revert w. induction n as [|n IH]; intros w Hact Hc Hi; cbv zeta.
  - cbn. rewrite app_nil_r, Z.add_0_r, Z.mod_small by exact Hi. repeat split; auto.
  - destruct (lookup_lt_is_Some_2 (frames w) (Z.to_nat (frame_index w))) as [fr Hfr];
      [unfold index_ok in Hi; lia|].
    cbn [Nat.mul]. rewrite (one_pass (n * 12) f w fr Hact Hc Hi Hfr).
    set (w1 := with_frame_index _ _).
    assert (Hi1 : index_ok (frames w1) (frame_index w1)).
    { cbn. unfold index_ok in *. apply Z.mod_pos_bound. lia. }
    destruct (IH w1) as (H1 & H2 & H3 & H4 & H5 & H6 & H7);
      [exact Hact|exact Hc|exact Hi1|].
    cbn [w1 with_frame_index with_publisher sent frame_index frames threads
         _run_task futures] in H1, H2, H3, H5, H6, H7.
    split; [|split; [|repeat split; assumption]].
    + rewrite H1. cbn [frames_from]. rewrite Hfr, <- app_assoc. reflexivity.
    + rewrite H2, Zplus_mod_idemp_l. f_equal. lia.
Qed.

(** *** [reset()] while the worker sends a frame *)

(** X13. [reset()] takes no lock, and [_step_one_frame] reads the frame
    index twice for one [send_frame]: once for the index it announces
    and once for the frame it looks up.  When [reset()] runs between
    the two reads, the worker publishes the first frame under the index
    it read before the reset. *)
Theorem reset_between_reads_mislabels_frame (fuel : nat) (me : ThreadId) (f : FutureId)
    (w : World) (fr0 : Frame) :
  active (threads w) = Some (f, resume W_index1) ->
  frames w !! 0%nat = Some fr0 ->
  exec (2 + fuel) me reset (pool_run 1 w)
  = (Returned tt, with_frame_index 0 (pool_run 1 w)) /\
  sent (pool_run 4 (with_frame_index 0 (pool_run 1 w)))
  = sent w ++ [(frame_index w, fr0)].
Proof.
  intros Hact Hfr.
  destruct w as [[wq wa] wt wc wl wi wfs wfu wp ws].
  cbn [active threads] in Hact. cbn in Hfr. subst wa.
  rewrite (pool_run_resume 0 f W_index1) by (reflexivity || exact I).
  change (pool_run 0 ?w0) with w0.
  cbn -[pool_run resume exec].
  split; [reflexivity|].
  change 4%nat with (4 + 0)%nat.
  do 2 worker_turn.
  worker_turn; [|destruct wfs; [discriminate|cbn; lia]].
  change (Z.to_nat 0) with 0%nat. rewrite Hfr.
  worker_turn. reflexivity.
Qed.

(** *** [run_playback(block=True)] *)

Lemma exec_bind_diverges {A B} (n : nat) :
  forall (me : ThreadId) (p : prog Frame A) (k : A -> prog Frame B) (w w1 : World) a,
  exec n me p w = (Returned a, w1) ->
  (forall m, fst (exec m me (k a) w1) = OutOfFuel) ->
  forall m, fst (exec m me (Bind p k) w) = OutOfFuel.
Proof.
  induction n as [|n IH]; intros me p k w w1 a Hp Hk m.
  - cbn in Hp. congruence.
  - destruct m as [|m]; [reflexivity|].
    rewrite (exec_S send_frame) in Hp. rewrite (exec_S send_frame). cbn [result_of pstep].
    destruct (result_of p) as [[e|a']|] eqn:Hres.
    + congruence.
    + injection Hp as -> ->. unfold then_. rewrite Hres. apply Hk.
    + destruct (pstep me p w) as [[p' w']|] eqn:Hst.
      * unfold then_. destruct (result_of p') as [[e|a']|] eqn:Hres'.
        -- destruct n; [cbn in Hp; congruence|].
           rewrite (exec_S send_frame), Hres' in Hp. congruence.
        -- destruct n; [cbn in Hp; congruence|].
           rewrite (exec_S send_frame), Hres' in Hp.
           injection Hp as -> ->. apply Hk.
        -- eapply IH; eauto.
      * destruct (pool_step w) as [w'|]; [|congruence].
        eapply IH; eauto.
Qed.

Lemma run_never_returns (fuel : nat) :
  forall (me : ThreadId) (pos : worker_pos) (w : World),
  inside_loop pos -> _cancelled w = false ->
  pos_ok (frames w) pos -> index_ok (frames w) (frame_index w) ->
  fst (exec fuel me (resume pos) w) = OutOfFuel.
Proof.
  induction fuel as [|fuel IH]; intros me pos w Hin Hc Hpos Hi; [reflexivity|].
  assert (Hret : pos <> W_return) by (intros ->; destruct Hin).
  rewrite (exec_S send_frame), (result_of_resume pos Hret),
    (pstep_resume me pos w (pos_ok_can_step pos w Hpos Hi Hret)).
  destruct (run_step_keeps pos w Hpos Hi) as [Hpos1 Hi1].
  destruct (run_step_threads pos w) as (_ & _ & _ & _ & Hfs).
  apply IH; rewrite ?Hfs; auto.
  - clear Hpos1 Hi1. destruct pos; cbn in *; auto.
    + rewrite Hc. exact I.
    + destruct (fs !! Z.to_nat j); exact I.
  - clear Hpos1 Hi1. destruct pos; cbn in *; auto.
Qed.

(** X8. [run_playback(block=True)] runs the loop in the calling
    thread.  On a scheduler that is not running, with the flag left
    set it returns at once and only clears the flag; with the flag
    clear it never returns: no amount of steps of the caller ends the
    call. *)
Theorem blocking_run_playback (me : ThreadId) (w : World) :
  is_running_value w = false -> index_ok (frames w) (frame_index w) ->
  (_cancelled w = true ->
   forall fuel, (15 <= fuel)%nat ->
   exec fuel me (run_playback true) w = (Returned tt, with_cancelled false w)) /\
  (_cancelled w = false ->
   forall fuel, fst (exec fuel me (run_playback true) w) = OutOfFuel).
Proof.
  intros Hrun Hi.
  pose proof (is_running_exec send_frame 0 me w) as Hr. rewrite Hrun in Hr.
  split.
  - intros Hc fuel Hfuel.
    apply (exec_mono send_frame (9 + 0 + 6)); [|discriminate|lia].
    eapply (exec_bind_returned send_frame); [exact Hr| |discriminate].
    destruct w as [[wq wa] wt wc wl wi wfs wfu wp ws]. cbn in Hc. subst wc.
    reflexivity.
  - intros Hc fuel.
    apply (exec_bind_diverges (9 + 0) me _ _ w w false Hr).
    intros m. apply (run_never_returns m me W_loop w); auto; exact I.
Qed.

(** *** [run_playback()] *)

Lemma run_playback_not_running (me : ThreadId) (w : World) :
  is_running_value w = false ->
  exec 13 me (run_playback false) w
  = (Returned tt,
     with_run_task (Some (fresh (dom (futures w))))
       (with_threads (mkExecutor (queue (threads w) ++ [(fresh (dom (futures w)), bound_run)])
                                 (active (threads w)))
          (with_futures (<[fresh (dom (futures w)) := PENDING]> (futures w)) w))).
Proof.
  intros Hrun.
  pose proof (is_running_exec send_frame 0 me w) as Hr. rewrite Hrun in Hr.
  eapply (exec_bind_returned send_frame (9 + 0) me is_running _ _ _ _ _ _ 4);
    [exact Hr| |discriminate].
  destruct w as [[wq wa] wt wc wl wi wfs wfu wp ws]. reflexivity.
Qed.

(** X9. On a scheduler that is not running, [run_playback()] submits
    [_run] once, under a future that did not exist before, and stores
    its handle; nothing else changes, the flag included.  From then on
    the scheduler is running, and a second [run_playback], blocking or
    not, raises [RuntimeError] and changes nothing. *)
Theorem run_playback_submits_one_task (fuel : nat) (me : ThreadId) (block : bool) (w : World) :
  (13 <= fuel)%nat -> is_running_value w = false ->
  let f := fresh (dom (futures w)) in
  let w' := with_run_task (Some f)
              (with_threads (mkExecutor (queue (threads w) ++ [(f, bound_run)])
                                        (active (threads w)))
                 (with_futures (<[f := PENDING]> (futures w)) w)) in
  exec fuel me (run_playback false) w = (Returned tt, w') /\
  futures w !! f = None /\
  is_running_value w' = true /\
  exec fuel me (run_playback block) w'
  = (Raised (RuntimeError "The trajectory is already playing on a thread!"), w').
Proof.
  intros Hfuel Hrun. cbv zeta.
  assert (Hrun' : is_running_value
            (with_run_task (Some (fresh (dom (futures w))))
               (with_threads (mkExecutor (queue (threads w) ++ [(fresh (dom (futures w)), bound_run)])
                                         (active (threads w)))
                  (with_futures (<[fresh (dom (futures w)) := PENDING]> (futures w)) w))) = true).
  { unfold is_running_value, future_cancelled, future_done, future_state. cbn.
    rewrite lookup_insert_eq. reflexivity. }
  split; [|split; [|split]].
  - apply (exec_mono send_frame 13); [|discriminate|lia].
    apply run_playback_not_running. exact Hrun.
  - apply not_elem_of_dom. apply is_fresh.
  - exact Hrun'.
  - apply (exec_mono send_frame (10 + 0)); [|discriminate|lia].
    apply (run_playback_running send_frame 0 me block). exact Hrun'.
Qed.

(** *** A flag that was left set *)

(** X14. When [_cancelled] was left set on a scheduler that is not
    running (as [cancel_playback()] leaves it once the worker has
    returned), the next [play()] plays nothing: [play()] returns after
    submitting a worker, and that worker finds the flag set at its
    first test, clears it and returns.  No frame is sent, the frame
    index is as before, and the scheduler is not running. *)
Theorem stale_flag_swallows_play (fuel : nat) (me : ThreadId) (w : World) :
  (25 <= fuel)%nat ->
  threads w = mkExecutor [] None -> is_running_value w = false ->
  _cancelled w = true -> _cancel_lock w = Unlocked ->
  let f := fresh (dom (futures w)) in
  let w1 := with_run_task (Some f)
              (with_threads (mkExecutor [(f, bound_run)] None)
                 (with_futures (<[f := PENDING]> (futures w)) w)) in
  exec fuel me play w = (Returned tt, w1) /\
  is_running_value w1 = true /\
  pool_run 5 w1
  = with_cancelled false
      (with_run_task (Some f)
         (with_futures (<[f := FINISHED None]> (<[f := RUNNING]> (<[f := PENDING]> (futures w)))) w)) /\
  sent (pool_run 5 w1) = sent w /\
  is_running_value (pool_run 5 w1) = false.
Proof.
  intros Hfuel Hth Hrun Hc Hl. cbv zeta.
  assert (Hplay : exec fuel me play w
                  = (Returned tt,
                     with_run_task (Some (fresh (dom (futures w))))
                       (with_threads (mkExecutor [(fresh (dom (futures w)), bound_run)] None)
                          (with_futures (<[fresh (dom (futures w)) := PENDING]> (futures w)) w)))).
  { apply (exec_mono send_frame (8 + 13)); [|discriminate|lia].
    unfold play.
    eapply (exec_bind_returned send_frame);
      [exact (pause_returns_at_once 8 me w (le_n _) (or_introl Hc) Hl)| |discriminate].
    rewrite (run_playback_not_running me w Hrun), Hth. reflexivity. }
  assert (Hrun5 : pool_run 5
       (with_run_task (Some (fresh (dom (futures w))))
          (with_threads (mkExecutor [(fresh (dom (futures w)), bound_run)] None)
             (with_futures (<[fresh (dom (futures w)) := PENDING]> (futures w)) w)))
     = with_cancelled false
         (with_run_task (Some (fresh (dom (futures w))))
            (with_futures (<[fresh (dom (futures w)) := FINISHED None]>
                             (<[fresh (dom (futures w)) := RUNNING]>
                                (<[fresh (dom (futures w)) := PENDING]> (futures w)))) w))).
  { destruct w as [[wq wa] wt wc wl wi wfs wfu wp ws].
    cbn in Hth, Hc. injection Hth as -> ->. subst wc.
    rewrite pool_run_S. unfold pool_step at 1. cbn -[pool_run future_cancelled].
    unfold future_cancelled, future_state. cbn -[pool_run].
    rewrite lookup_insert_eq.
    change (@_run Frame) with (@resume Frame W_loop).
    cbn -[pool_run resume].
    change 4%nat with (4 + 0)%nat.
    do 3 worker_turn.
    rewrite pool_run_S, (pool_step_return (fresh (dom wfu))) by reflexivity.
    reflexivity. }
  split; [exact Hplay|]. split; [|split; [exact Hrun5|split]].
  - unfold is_running_value, future_cancelled, future_done, future_state. cbn.
    rewrite lookup_insert_eq. reflexivity.
  - rewrite Hrun5. reflexivity.
  - rewrite Hrun5. unfold is_running_value, future_cancelled, future_done, future_state. cbn.
    rewrite lookup_insert_eq. reflexivity.
Qed.

(** *** [pause()] during playback *)




(** *** [cancel_playback()] during playback *)


(** *** [play()] after a pause *)


(** *** [step()] at the same time as the worker *)

(** The history of sent frames only grows. *)
Lemma do_op_sent (me : ThreadId) {A} (o : op Frame A) (w w' : World) r :
  do_op send_frame me o w = Some (r, w') -> exists extra, sent w' = sent w ++ extra.
Proof.
  intros Hop.
  assert (Hnil : exists extra, sent w = sent w ++ extra)
    by (exists []; rewrite app_nil_r; reflexivity).
  destruct o; cbn in Hop; try (injection Hop as <- <-; exact Hnil).
  - destruct (future_state w f) as [[| | |[e|]]|]; try discriminate;
      injection Hop as <- <-; exact Hnil.
  - destruct (_cancel_lock w) as [|owner depth].
    + injection Hop as <- <-. exact Hnil.
    + destruct (decide (owner = me)); [|discriminate]. injection Hop as <- <-. exact Hnil.
  - destruct (_cancel_lock w) as [|owner depth].
    + injection Hop as <- <-. exact Hnil.
    + destruct (decide (owner = me)); injection Hop as <- <-; exact Hnil.
  - destruct (send_frame i fr (frame_publisher w)) as [pub' [e|]];
      injection Hop as <- <-; [exact Hnil|].
    exists [(i, fr)]. reflexivity.
Qed.

Lemma pstep_sent (me : ThreadId) {A} (p : prog Frame A) :
  forall (w w' : World) (p' : prog Frame A),
  pstep me p w = Some (p', w') -> exists extra, sent w' = sent w ++ extra.
Proof.
  induction p as [A a|A e|A o|A B p IHp k IHk|A p IHp c IHc|cond IHcond body IHbody];
    intros w w' p' Hstep; cbn [pstep] in Hstep.
  - discriminate.
  - discriminate.
  - destruct (do_op send_frame me o w) as [[[e|a] w1]|] eqn:Hop; [| |discriminate];
      injection Hstep as <- <-; exact (do_op_sent me o w w1 _ Hop).
  - destruct (result_of p) as [r|].
    + injection Hstep as <- <-. exists []. rewrite app_nil_r. reflexivity.
    + destruct (pstep me p w) as [[p1 w1]|] eqn:Hp1; [|discriminate].
      injection Hstep as <- <-. exact (IHp w w1 p1 Hp1).
  - destruct (result_of p) as [r|].
    + injection Hstep as <- <-. exists []. rewrite app_nil_r. reflexivity.
    + destruct (pstep me p w) as [[p1 w1]|] eqn:Hp1; [|discriminate].
      injection Hstep as <- <-. exact (IHp w w1 p1 Hp1).
  - injection Hstep as <- <-. exists []. rewrite app_nil_r. reflexivity.
Qed.

Lemma pool_step_sent (w w' : World) :
  pool_step w = Some w' -> exists extra, sent w' = sent w ++ extra.
Proof.
  unfold pool_step. intros Hstep.
  assert (Hnil : exists extra, sent w = sent w ++ extra)
    by (exists []; rewrite app_nil_r; reflexivity).
  destruct (active (threads w)) as [[f p]|].
  - destruct (result_of p) as [[e|a]|].
    + injection Hstep as <-. exact Hnil.
    + injection Hstep as <-. exact Hnil.
    + destruct (pstep pool_thread p w) as [[p1 w1]|] eqn:Hp; [|discriminate].
      injection Hstep as <-. exact (pstep_sent pool_thread p w w1 p1 Hp).
  - destruct (queue (threads w)) as [|[f c] rest]; [discriminate|].
    destruct (future_cancelled w f); injection Hstep as <-; exact Hnil.
Qed.

Lemma exec_sent {A} (fuel : nat) :
  forall (me : ThreadId) (p : prog Frame A) (w w' : World) r,
  exec fuel me p w = (r, w') -> exists extra, sent w' = sent w ++ extra.
Proof.
  induction fuel as [|fuel IH]; intros me p w w' r He.
  - cbn in He. injection He as <- <-. exists []. rewrite app_nil_r. reflexivity.
  - rewrite (exec_S send_frame) in He.
    destruct (result_of p) as [[e|a]|].
    + injection He as <- <-. exists []. rewrite app_nil_r. reflexivity.
    + injection He as <- <-. exists []. rewrite app_nil_r. reflexivity.
    + destruct (pstep me p w) as [[p1 w1]|] eqn:Hp.
      * destruct (pstep_sent me p w w1 p1 Hp) as [x1 H1].
        destruct (IH me p1 w1 w' r He) as [x2 H2].
        exists (x1 ++ x2). rewrite H2, H1, app_assoc. reflexivity.
      * destruct (pool_step w) as [w1|] eqn:Hpool.
        -- destruct (pool_step_sent w w1 Hpool) as [x1 H1].
           destruct (IH me p w1 w' r He) as [x2 H2].
           exists (x1 ++ x2). rewrite H2, H1, app_assoc. reflexivity.
        -- injection He as <- <-. exists []. rewrite app_nil_r. reflexivity.
Qed.

(** A program that hands no work to the executor leaves the executor
    as it is. *)
Lemma no_submit_then_ {A B} (p : prog Frame A) (k : A -> prog Frame B) :
  no_submit p -> (forall a, no_submit (k a)) -> no_submit (then_ p k).
Proof.
  intros Hp Hk. unfold then_.
  destruct (result_of p) as [[e|a]|]; cbn; auto.
Qed.

Lemma no_submit_ensure {A} (p : prog Frame A) (c : prog Frame unit) :
  no_submit p -> no_submit c -> no_submit (ensure p c).
Proof.
  intros Hp Hc. unfold ensure.
  destruct (result_of p) as [[e|a]|]; cbn; auto.
Qed.

Lemma do_op_no_submit (me : ThreadId) {A} (o : op Frame A) (w w' : World) r :
  no_submit (Prim o) -> do_op send_frame me o w = Some (r, w') -> threads w' = threads w.
Proof.
  intros Hn Hop.
  destruct o; cbn in Hn, Hop; try contradiction; try (injection Hop as <- <-; reflexivity).
  - destruct (future_state w f) as [[| | |[e|]]|]; try discriminate;
      injection Hop as <- <-; reflexivity.
  - destruct (_cancel_lock w) as [|owner depth].
    + injection Hop as <- <-. reflexivity.
    + destruct (decide (owner = me)); [|discriminate]. injection Hop as <- <-. reflexivity.
  - destruct (_cancel_lock w) as [|owner depth].
    + injection Hop as <- <-. reflexivity.
    + destruct (decide (owner = me)); injection Hop as <- <-; reflexivity.
  - destruct (send_frame i fr (frame_publisher w)) as [pub' [e|]];
      injection Hop as <- <-; reflexivity.
Qed.

Lemma pstep_no_submit (me : ThreadId) {A} (p : prog Frame A) :
  forall (w w' : World) (p' : prog Frame A),
  no_submit p -> pstep me p w = Some (p', w') ->
  no_submit p' /\ threads w' = threads w.
Proof.
  induction p as [A a|A e|A o|A B p IHp k IHk|A p IHp c IHc|cond IHcond body IHbody];
    intros w w' p' Hn Hstep; cbn [pstep] in Hstep.
  - discriminate.
  - discriminate.
  - destruct (do_op send_frame me o w) as [[[e|a] w1]|] eqn:Hop; [| |discriminate];
      injection Hstep as <- <-;
      (split; [exact I | exact (do_op_no_submit me o w w1 _ Hn Hop)]).
  - destruct Hn as [Hp Hk].
    destruct (result_of p) as [r|].
    + injection Hstep as <- <-. split; [|reflexivity].
      apply no_submit_then_; assumption.
    + destruct (pstep me p w) as [[p1 w1]|] eqn:Hp1; [|discriminate].
      injection Hstep as <- <-.
      destruct (IHp w w1 p1 Hp Hp1) as [H1 H2].
      split; [|exact H2]. apply no_submit_then_; assumption.
  - destruct Hn as [Hp Hc].
    destruct (result_of p) as [r|].
    + injection Hstep as <- <-. split; [|reflexivity].
      apply no_submit_ensure; assumption.
    + destruct (pstep me p w) as [[p1 w1]|] eqn:Hp1; [|discriminate].
      injection Hstep as <- <-.
      destruct (IHp w w1 p1 Hp Hp1) as [H1 H2].
      split; [|exact H2]. apply no_submit_ensure; assumption.
  - destruct Hn as [Hc Hb]. injection Hstep as <- <-.
    split; [|reflexivity]. cbn. split; [exact Hc|]. intros [|]; cbn; auto.
Qed.

Lemma no_submit_step_one_frame : no_submit (@_step_one_frame Frame).
Proof.
  unfold _step_one_frame. cbn -[py_getitem py_mod].
  split; [exact I|]. intros i. split; [exact I|]. intros fs. split; [exact I|]. intros j.
  split; [unfold py_getitem; destruct (_ || _); [exact I|]; destruct (fs !! _); exact I|].
  intros fr. split; [exact I|]. intros _. split; [exact I|]. intros i'.
  split; [exact I|]. intros fs'.
  split; [unfold py_mod; destruct (_ =? 0); exact I|]. intros n. exact I.
Qed.

Lemma pstep_not_finished (me : ThreadId) {A} (p : prog Frame A) (w : World) x :
  pstep me p w = Some x -> result_of p = None.
Proof. destruct p; cbn; intros H; try discriminate; reflexivity. Qed.

(** Consistent states stay consistent when a caller changes the lock,
    the flag, or sends the frame at the index and moves the index. *)
Lemma consistent_with_lock (l : RLock) (w : World) :
  consistent w -> consistent (with_cancel_lock_state l w).
Proof.
  intros [ph c l0 i fs0 fu pub s -> Hph Hi].
  exact (Consistent _ ph c l i fs0 fu pub s eq_refl Hph Hi).
Qed.

Lemma consistent_with_cancelled (c : bool) (w : World) :
  consistent w -> consistent (with_cancelled c w).
Proof.
  intros [ph c0 l i fs0 fu pub s -> Hph Hi].
  exact (Consistent _ ph c l i fs0 fu pub s eq_refl Hph Hi).
Qed.

Lemma consistent_with_publisher (pub : Publisher) (s : list (Z * Frame)) (w : World) :
  consistent w -> consistent (with_publisher pub s w).
Proof.
  intros [ph c l i fs0 fu pub0 s0 -> Hph Hi].
  exact (Consistent _ ph c l i fs0 fu pub s eq_refl Hph Hi).
Qed.

Lemma consistent_with_frame_index (i : Z) (w : World) :
  consistent w -> index_ok (frames w) i -> consistent (with_frame_index i w).
Proof.
  intros [ph c l i0 fs0 fu pub s -> Hph _] Hi.
  exact (Consistent _ ph c l i fs0 fu pub s eq_refl Hph Hi).
Qed.

Lemma consistent_index (w : World) : consistent w -> index_ok (frames w) (frame_index w).
Proof. intros [ph c l i fs0 fu pub s -> _ Hi]. exact Hi. Qed.

Lemma consistent_idle (w : World) :
  consistent w -> is_running_value w = false -> threads w = mkExecutor [] None.
Proof.
  intros [ph c l i fs0 fu pub s -> Hph Hi] Hrun.
  pose proof (idle_of_not_running ph c l i fs0 fu pub s Hph Hrun) as Hidle.
  destruct ph; cbn in Hidle; try contradiction; reflexivity.
Qed.

(** What a step of the worker leaves alone in a consistent state. *)
Lemma pool_step_fields (w w' : World) :
  consistent w -> pool_step w = Some w' ->
  _run_task w' = _run_task w /\ frames w' = frames w /\
  _cancel_lock w' = _cancel_lock w /\
  (_cancelled w = false -> _cancelled w' = false).
Proof.
  intros [ph c l i fs0 fu pub s -> Hph Hi] Hstep.
  destruct ph as [|f|f|f pos]; cbn in Hph.
  - discriminate Hstep.
  - discriminate Hstep.
  - rewrite (start_worker send_frame f c l i fs0 fu pub s Hph) in Hstep.
    injection Hstep as <-. repeat split; auto.
  - destruct Hph as [Hf Hpos].
    assert (Hd : pos = W_return \/ pos <> W_return)
      by (destruct pos; first [left; reflexivity | right; discriminate]).
    destruct Hd as [->|Hret].
    + rewrite (pool_step_return f (world_at (Working f W_return) c l i fs0 fu pub s)
                 eq_refl) in Hstep.
      injection Hstep as <-. repeat split; auto.
    + rewrite (pool_step_resume f pos (world_at (Working f pos) c l i fs0 fu pub s) eq_refl
                 (pos_ok_can_step pos (world_at (Working f pos) c l i fs0 fu pub s)
                    Hpos Hi Hret)) in Hstep.
      injection Hstep as <-.
      destruct (run_step_threads pos (world_at (Working f pos) c l i fs0 fu pub s))
        as (_ & H1 & H2 & _ & H3).
      split; [exact H1|]. split; [exact H3|]. split; [exact H2|].
      clear H1 H2 H3. destruct pos; cbn; auto.
Qed.

(** The body of [with self._cancel_lock] followed by the release. *)
Lemma locked_body (me : ThreadId) (body : prog Frame unit) (n : nat) (w w2 : World) :
  exec n me body w = (Returned tt, w2) -> _cancel_lock w2 = LockedBy me 0 ->
  exec (n + S 2) me (Finally body (Prim Lock_release)) w
  = (Returned tt, with_cancel_lock_state Unlocked w2).
Proof.
  intros Hbody Hl.
  eapply (exec_finally_returned send_frame); [exact Hbody|].
  cbn. rewrite Hl. destruct (decide (me = me)); [reflexivity | congruence].
Qed.

(** The state after [_step_one_frame] and the release, from the state
    [w1] in which playback has stopped. *)
Lemma step_done_intro (me : ThreadId) (w0 w1 : World) (fr : Frame) (pub' : Publisher) :
  consistent w1 -> is_running_value w1 = false -> _cancelled w1 = false ->
  frames w1 = frames w0 ->
  (exists before, sent w1 = sent w0 ++ before) ->
  (is_running_value w0 = false -> sent w1 = sent w0 /\ frame_index w1 = frame_index w0) ->
  frames w1 !! Z.to_nat (frame_index w1) = Some fr ->
  step_done w0 w1 fr
    (with_cancel_lock_state Unlocked
       (with_frame_index ((frame_index w1 + 1) mod Z.of_nat (length (frames w1)))
          (with_publisher pub' (sent w1 ++ [(frame_index w1, fr)]) w1))).
Proof.
  intros Hcons Hrun Hc Hfs Hpre Hsame Hfr.
  pose proof (consistent_idle w1 Hcons Hrun) as Hth.
  pose proof (consistent_index w1 Hcons) as Hi.
  unfold step_done.
  split; [exact Hrun|]. split; [exact Hth|]. split; [exact Hpre|]. split; [exact Hsame|].
  split; [rewrite <- Hfs; exact Hfr|].
  split; [reflexivity|]. split; [cbn; rewrite Hfs; reflexivity|].
  split; [exact Hrun|]. split; [exact Hth|]. split; [exact Hc|]. split; [reflexivity|].
  split; [exact Hfs|].
  apply consistent_with_lock. apply consistent_with_frame_index.
  - apply consistent_with_publisher. exact Hcons.
  - cbn. unfold index_ok in *. apply Z.mod_pos_bound. lia.
Qed.

(** What is left of [step()] once playback has stopped runs to its
    end. *)
Lemma step_late_frame (w0 w : World) :
  consistent w -> is_running_value w = false -> _cancelled w = false ->
  _cancel_lock w = LockedBy 1%nat 0 -> frames w = frames w0 ->
  (exists before, sent w = sent w0 ++ before) ->
  (is_running_value w0 = false -> sent w = sent w0 /\ frame_index w = frame_index w0) ->
  step_late send_frame w0 w (Finally _step_one_frame (Prim Lock_release)) w.
Proof.
  intros Hcons Hrun Hc Hl Hfs Hpre Hsame.
  split; [exact (consistent_idle w Hcons Hrun)|].
  split; [split; [exact no_submit_step_one_frame | exact I]|].
  destruct (step_one_frame_ok send_frame Haccept 0 1%nat w (consistent_index w Hcons))
    as (fr & pub' & Hfr & _ & Hstep).
  eexists _, fr, _. split.
  - apply (locked_body 1%nat _ (10 + 0) w _ Hstep). exact Hl.
  - exact (step_done_intro 1%nat w0 w fr pub' Hcons Hrun Hc Hfs Hpre Hsame Hfr).
Qed.

Lemma step_late_clear (w0 w : World) :
  consistent w -> is_running_value w = false ->
  _cancel_lock w = LockedBy 1%nat 0 -> frames w = frames w0 ->
  (exists before, sent w = sent w0 ++ before) ->
  (is_running_value w0 = false -> sent w = sent w0 /\ frame_index w = frame_index w0) ->
  step_late send_frame w0 w (step_with (Prim (Set_cancelled false))) w.
Proof.
  intros Hcons Hrun Hl Hfs Hpre Hsame.
  split; [exact (consistent_idle w Hcons Hrun)|].
  split; [split; [split; [exact I | intros _; exact no_submit_step_one_frame] | exact I]|].
  pose proof (consistent_with_cancelled false w Hcons) as Hcons1.
  destruct (step_one_frame_ok send_frame Haccept 0 1%nat (with_cancelled false w)
              (consistent_index _ Hcons1))
    as (fr & pub' & Hfr & _ & Hstep).
  eexists _, fr, _. split.
  - unfold step_with.
    apply (locked_body 1%nat _ (2 + (10 + 0)) w).
    + eapply (exec_bind_returned send_frame 2 1%nat (Prim (Set_cancelled false)));
        [reflexivity|exact Hstep|discriminate].
    + exact Hl.
  - exact (step_done_intro 1%nat w0 (with_cancelled false w) fr pub' Hcons1 Hrun eq_refl
             Hfs Hpre Hsame Hfr).
Qed.

(** The invariant of [step()] running at the same time as the worker:
    it holds when the call starts and every turn keeps it. *)
Lemma stepping_start (w0 : World) :
  consistent w0 -> _cancel_lock w0 = Unlocked -> _cancelled w0 = false ->
  stepping send_frame w0 [] (mkSystem [step] w0).
Proof.
  intros Hcons Hl Hc. exists step. split; [reflexivity|]. left.
  exists St_start. split; [reflexivity|].
  split; [exact Hcons|]. split; [exact Hl|]. split; [reflexivity|].
  split; [exists []; rewrite app_nil_r; reflexivity|].
  split; [|exact Hc].
  intros Hrun. split; [exact (consistent_idle w0 Hcons Hrun)|]. split; reflexivity.
Qed.

Lemma stepping_worker_turn (w0 : World) (st : step_stage) (w w2 : World) :
  step_early w0 st w -> pool_step w = Some w2 -> step_early w0 st w2.
Proof.
  intros (Hcons & Hl & Hfs & [before Hpre] & Hsame & Hst) Hstep.
  destruct (pool_step_fields w w2 Hcons Hstep) as (Ht & Hfs2 & Hl2 & Hc2).
  destruct (pool_step_sent w w2 Hstep) as [extra Hs2].
  split; [exact (pool_step_consistent send_frame Haccept w w2 Hcons Hstep)|].
  split; [congruence|]. split; [congruence|].
  split; [exists (before ++ extra); rewrite Hs2, Hpre, app_assoc; reflexivity|].
  split.
  - intros Hrun. destruct (Hsame Hrun) as (Hth & _).
    unfold pool_step in Hstep. rewrite Hth in Hstep. discriminate Hstep.
  - destruct st; rewrite ?Ht; intuition.
Qed.

(** A step of the caller leads to the next stage, or the caller has
    found playback stopped: the state is then the one before the
    step. *)
Lemma stepping_caller_turn (w0 : World) (st : step_stage) (w w2 : World)
    (p2 : prog Frame unit) :
  step_early w0 st w -> pstep 1%nat (stage_prog st) w = Some (p2, w2) ->
  (exists st2, p2 = stage_prog st2 /\ step_early w0 st2 w2)
  \/ step_late send_frame w0 w2 p2 w2.
Proof.
  intros (Hcons & Hl & Hfs & Hpre & Hsame & Hst) Hstep.
  destruct st; cbn [stage_lock] in Hl.
  - (* the lock is taken *)
    cbn in Hstep. rewrite Hl in Hstep. injection Hstep as <- <-.
    left. exists St_locked. split; [reflexivity|].
    split; [exact (consistent_with_lock _ w Hcons)|].
    split; [reflexivity|]. split; [exact Hfs|]. split; [exact Hpre|].
    split; [exact Hsame | exact Hst].
  - (* the first test of [cancel_playback] *)
    cbn in Hstep. destruct (_run_task w) as [f|] eqn:Ht; injection Hstep as <- <-.
    + left. exists St_flag_test. split; [reflexivity|].
      split; [exact Hcons|]. split; [exact Hl|]. split; [exact Hfs|].
      split; [exact Hpre|]. split; [exact Hsame|]. split; [exact Hst | congruence].
    + right.
      apply (step_late_frame w0 w Hcons);
        [|exact Hst|exact Hl|exact Hfs|exact Hpre|intros H; exact (proj2 (Hsame H))].
      unfold is_running_value. rewrite Ht. reflexivity.
  - (* the second test *)
    destruct Hst as [Hc Ht].
    cbn in Hstep. rewrite Hc in Hstep. injection Hstep as <- <-.
    left. exists St_set. split; [reflexivity|].
    split; [exact Hcons|]. split; [exact Hl|]. split; [exact Hfs|].
    split; [exact Hpre|]. split; [exact Hsame|]. split; assumption.
  - (* the flag is set *)
    destruct Hst as [Hc Ht].
    cbn in Hstep. injection Hstep as <- <-.
    left. exists St_result. split; [reflexivity|].
    split; [exact (consistent_with_cancelled _ w Hcons)|].
    split; [exact Hl|]. split; [exact Hfs|].
    split; [exact Hpre|]. split; [exact Hsame | exact Ht].
  - (* the handle is read again *)
    cbn in Hstep. destruct (_run_task w) as [f|] eqn:Ht; [|congruence].
    injection Hstep as <- <-.
    left. exists (St_wait f). split; [reflexivity|].
    split; [exact Hcons|]. split; [exact Hl|]. split; [exact Hfs|].
    split; [exact Hpre|]. split; [exact Hsame | exact Ht].
  - (* [result()] returns: the worker has returned *)
    destruct Hcons as [ph c l i fs0 fu pub s -> Hph Hi].
    cbn in Hst, Hl. subst l.
    destruct ph as [|f0|f0|f0 pos]; cbn in Hst, Hph; try discriminate;
      injection Hst as ->.
    + cbn -[future_state] in Hstep. unfold future_state in Hstep. cbn in Hstep.
      rewrite Hph in Hstep. injection Hstep as <- <-.
      right.
      apply step_late_clear;
        [exact (Consistent _ (Done f) c (LockedBy 1%nat 0) i fs0 fu pub s eq_refl Hph Hi)
        |apply (not_running_of_idle (Done f)); [exact Hph | exact I]
        |reflexivity|exact Hfs|exact Hpre|intros H; exact (proj2 (Hsame H))].
    + cbn -[future_state] in Hstep. unfold future_state in Hstep. cbn in Hstep.
      rewrite Hph in Hstep. discriminate Hstep.
    + destruct Hph as [Hf _].
      cbn -[future_state] in Hstep. unfold future_state in Hstep. cbn in Hstep.
      rewrite Hf in Hstep. discriminate Hstep.
Qed.

Lemma run_turns_snoc (ts : list turn) (t : turn) :
  forall s : System,
  run_turns (ts ++ [t]) s
  = match run_turns ts s with
    | Some s1 => turn_step t s1
    | None => None
    end.
Proof.
  induction ts as [|t0 ts IH]; intros s; cbn.
  - destruct (turn_step t s); reflexivity.
  - destruct (turn_step t0 s) as [s1|]; [apply IH | reflexivity].
Qed.

Lemma stepping_turn (w0 : World) (ts : list turn) (t : turn) (s s' : System) :
  run_turns ts (mkSystem [step] w0) = Some s ->
  stepping send_frame w0 ts s -> turn_step t s = Some s' ->
  stepping send_frame w0 (ts ++ [t]) s'.
Proof.
  intros Hts (p & Hcs & Hinv) Hstep.
  assert (Hts' : run_turns (ts ++ [t]) (mkSystem [step] w0) = Some s')
    by (rewrite run_turns_snoc, Hts; exact Hstep).
  destruct s as [cs w]. cbn [callers world] in Hcs, Hinv. subst cs.
  destruct t as [i|]; cbn in Hstep.
  - destruct i as [|i]; [|destruct i; discriminate Hstep]. cbn in Hstep.
    destruct (pstep 1%nat p w) as [[p2 w2]|] eqn:Hp; [|discriminate].
    injection Hstep as <-. exists p2. split; [reflexivity|]. cbn [world].
    destruct Hinv as [(st & -> & Hearly)
                     |(ts1 & ts2 & s1 & Hsplit & Hs1 & Hts2 & Hth & Hns & n & fr & w' & He & Hdone)].
    + destruct (stepping_caller_turn w0 st w w2 p2 Hearly Hp) as [Hnext|Hlate].
      * left. exact Hnext.
      * right. exists (ts ++ [Of_caller 0]), [], (mkSystem [p2] w2).
        split; [rewrite app_nil_r; reflexivity|].
        split; [exact Hts'|]. split; [constructor | exact Hlate].
    + right. exists ts1, (ts2 ++ [Of_caller 0]), s1.
      split; [rewrite Hsplit, app_assoc; reflexivity|].
      split; [exact Hs1|].
      split; [apply Forall_app; split; [exact Hts2 | repeat constructor]|].
      destruct (pstep_no_submit 1%nat p w w2 p2 Hns Hp) as [Hns2 Hth2].
      split; [congruence|]. split; [exact Hns2|].
      destruct n as [|n]; [cbn in He; discriminate|].
      rewrite (exec_S send_frame), (pstep_not_finished 1%nat p w _ Hp), Hp in He.
      exists n, fr, w'. split; assumption.
  - destruct (pool_step w) as [w2|] eqn:Hp; [|discriminate].
    injection Hstep as <-. exists p. split; [reflexivity|]. cbn [world].
    destruct Hinv as [(st & -> & Hearly)|(ts1 & ts2 & s1 & _ & _ & _ & Hth & _)].
    + left. exists st. split; [reflexivity|].
      exact (stepping_worker_turn w0 st w w2 Hearly Hp).
    + unfold pool_step in Hp. rewrite Hth in Hp. discriminate Hp.
Qed.

Lemma stepping_run (w0 : World) :
  consistent w0 -> _cancel_lock w0 = Unlocked -> _cancelled w0 = false ->
  forall (ts : list turn) (s : System),
  run_turns ts (mkSystem [step] w0) = Some s -> stepping send_frame w0 ts s.
Proof.
  intros Hcons Hl Hc ts.
  induction ts as [|t ts IH] using rev_ind; intros s Hrun.
  - cbn in Hrun. injection Hrun as <-. exact (stepping_start w0 Hcons Hl Hc).
  - rewrite run_turns_snoc in Hrun.
    destruct (run_turns ts (mkSystem [step] w0)) as [s1|] eqn:Hts; [|discriminate].
    exact (stepping_turn w0 ts t s1 s Hts (IH s1 eq_refl) Hrun).
Qed.

Lemma stepping_returned (w0 : World) (ts : list turn) (s : System) :
  stepping send_frame w0 ts s -> callers s = [Ret tt] ->
  exists ts1 ts2 s1 fr,
    ts = ts1 ++ ts2 /\ run_turns ts1 (mkSystem [step] w0) = Some s1 /\
    caller_turns ts2 /\ step_done w0 (world s1) fr (world s).
Proof.
  intros (p & Hcs & Hinv) Hret. rewrite Hcs in Hret. injection Hret as ->.
  destruct Hinv as [(st & Hst & _)
                   |(ts1 & ts2 & s1 & Hsplit & Hs1 & Hts2 & _ & _ & n & fr & w' & He & Hdone)].
  - destruct st; discriminate Hst.
  - destruct n as [|n]; [cbn in He; discriminate|].
    cbn in He. injection He as <-. exists ts1, ts2, s1, fr.
    repeat (split; [assumption|]). exact Hdone.
Qed.

(** C5 (amended). On a non-empty frame sequence, with a publisher that
    accepts the frames, in sequential use of the scheduler (no task,
    or one task that is queued, running or has returned normally) and
    with no cancellation pending, [step()] returns, and it has first
    stopped playback and then sent exactly one frame, the one at the
    index playback stopped at, under that index, and advanced the
    index by one modulo N; playback stays stopped, the flag is clear
    and the lock free.  On a scheduler that was not running nothing
    but this frame is sent.  This holds when the caller runs until it
    has to wait ([w1] is then the state in which its call of
    [cancel_playback(wait=True)] returns), and also for every
    interleaving of the steps of the caller with the steps of the
    worker ([w1] is then the state reached after the turns [ts1], when
    the caller has found playback stopped; only the caller moves after
    that).  Consequently, after [k + 1] consecutive calls the index is
    [k + 1] positions further, modulo N, than where playback stopped,
    and [k + 1] frames were sent since then. *)
Theorem step_emits_once_and_advances (fuel : nat) (me : ThreadId) (w : World) (k : nat)
    (ts : list turn) (s : System) :
  (50 <= fuel)%nat ->
  (1 <= length (frames w))%nat ->
  consistent w -> _cancel_lock w = Unlocked -> _cancelled w = false ->
  (exists w1 fr w',
      exec fuel me (cancel_playback true) (with_cancel_lock_state (LockedBy me 0) w)
      = (Returned tt, w1) /\
      exec fuel me step w = (Returned tt, w') /\
      step_done w w1 fr w' /\
      frame_index (steps fuel me (S k) w)
      = (frame_index w1 + Z.of_nat (S k)) mod Z.of_nat (length (frames w)) /\
      length (sent (steps fuel me (S k) w)) = (length (sent w1) + S k)%nat)
  /\
  (run_turns ts (mkSystem [step] w) = Some s -> callers s = [Ret tt] ->
   exists ts1 ts2 s1 fr,
     ts = ts1 ++ ts2 /\ run_turns ts1 (mkSystem [step] w) = Some s1 /\
     caller_turns ts2 /\ step_done w (world s1) fr (world s)).
Proof.
  intros Hfuel _ Hcons Hlock Hc.
  split; [|intros Hrun Hret;
           exact (stepping_returned w ts s (stepping_run w Hcons Hlock Hc ts s Hrun) Hret)].
  destruct Hcons as [ph c l i fs0 fu pub s0 -> Hph Hi]. cbn in Hlock, Hc. subst l c.
  destruct (lock_held_step send_frame Haccept me ph false i fs0 fu pub s0 Hph Hi)
    as (ph1 & c1 & i1 & fu1 & pub1 & s1 & fr & pub2
        & Hcancel & Hph1 & Hi1 & Hstop & Hsame & Hfr & Hsend & Hstep).
  destruct (Hstop eq_refl) as [-> Hidle].
  destruct (exec_sent 30 me _ _ _ _ Hcancel) as [before Hbefore].
  cbn [sent world_at] in Hbefore.
  apply (exec_mono send_frame 50) with (m := fuel) in Hstep; [|discriminate|exact Hfuel].
  assert (Hi2 : index_ok fs0 ((i1 + 1) mod Z.of_nat (length fs0))).
  { apply Z.mod_pos_bound. unfold index_ok in Hi. lia. }
  exists (world_at ph1 false (LockedBy me 0) i1 fs0 fu1 pub1 s1), fr,
    (world_at ph1 false Unlocked ((i1 + 1) mod Z.of_nat (length fs0)) fs0 fu1 pub2
       (s1 ++ [(i1, fr)])).
  split; [apply (exec_mono send_frame 30) with (m := fuel) in Hcancel;
          [exact Hcancel | discriminate | lia]|].
  split; [exact Hstep|]. split; [|split].
  - unfold step_done. cbn [sent frame_index frames _cancelled _cancel_lock world_at].
    split; [apply not_running_of_idle; assumption|].
    split; [destruct ph1; cbn in Hidle; try contradiction; reflexivity|].
    split; [exists before; exact Hbefore|].
    split.
    { intros Hrun.
      destruct (Hsame (or_intror (idle_of_not_running ph false _ i fs0 fu pub s0 Hph Hrun)))
        as (_ & _ & -> & _ & _ & ->).
      split; reflexivity. }
    split; [exact Hfr|]. split; [reflexivity|]. split; [reflexivity|].
    split; [apply not_running_of_idle; assumption|].
    split; [destruct ph1; cbn in Hidle; try contradiction; reflexivity|].
    split; [reflexivity|]. split; [reflexivity|]. split; [reflexivity|].
    exact (Consistent _ ph1 false Unlocked _ fs0 fu1 pub2 _ eq_refl Hph1 Hi2).
  - unfold steps. rewrite Nat.iter_succ_r, Hstep. cbn [snd].
    destruct (steps_idle send_frame Haccept fuel me ph1 false fs0 fu1 Hfuel Hidle Hph1 k
                _ pub2 (s1 ++ [(i1, fr)]) Hi2) as (pub' & s' & Hk & _).
    unfold steps in Hk. rewrite Hk. cbn [frame_index frames world_at].
    rewrite Zplus_mod_idemp_l. f_equal. lia.
  - unfold steps. rewrite Nat.iter_succ_r, Hstep. cbn [snd].
    destruct (steps_idle send_frame Haccept fuel me ph1 false fs0 fu1 Hfuel Hidle Hph1 k
                _ pub2 (s1 ++ [(i1, fr)]) Hi2) as (pub' & s' & Hk & Hlen).
    unfold steps in Hk. rewrite Hk. cbn [sent world_at].
    rewrite Hlen, length_app. cbn [length]. lia.
Qed.

(** *** A caller that waits for a worker that does not stop *)

Lemma blocked_caller_never_returns (f : FutureId) {A} (me : ThreadId) (p : prog Frame A) :
  result_of p = None ->
  (forall w : World, future_state w f = Some RUNNING -> pstep me p w = None) ->
  forall (fuel : nat) (pos : worker_pos) (w : World),
  active (threads w) = Some (f, resume pos) -> future_state w f = Some RUNNING ->
  inside_loop pos -> _cancelled w = false ->
  pos_ok (frames w) pos -> index_ok (frames w) (frame_index w) ->
  fst (exec fuel me p w) = OutOfFuel.
Proof.
  intros Hres Hblk fuel.
  induction fuel as [|fuel IH]; intros pos w Hact Hf Hin Hc Hpos Hi; [reflexivity|].
  assert (Hret : pos <> W_return) by (intros ->; destruct Hin).
  rewrite (exec_S send_frame), Hres, (Hblk w Hf),
    (pool_step_resume f pos w Hact (pos_ok_can_step pos w Hpos Hi Hret)).
  destruct (run_step_keeps pos w Hpos Hi) as [Hpos1 Hi1].
  destruct (run_step_threads pos w) as (_ & _ & _ & Hfu & Hfs).
  apply (IH (fst (run_step pos w))).
  - reflexivity.
  - unfold future_state in *. cbn. rewrite Hfu. exact Hf.
  - clear Hpos1 Hi1. destruct pos; cbn in *; auto.
    + rewrite Hc. exact I.
    + destruct (fs !! Z.to_nat j); exact I.
  - clear Hpos1 Hi1. destruct pos; cbn in *; auto.
  - cbn. rewrite Hfs. exact Hpos1.
  - cbn. rewrite Hfs. exact Hi1.
Qed.

End AcceptingMore.

End MoreProps.

(** ** The cells that prepare the frames *)

Section NotebookProps.
Context {Client FrameData : Type}.
Variable request_pose : Client -> Client * (exn + gmap string string).
Variable convert_pdb_string_to_framedata : string -> exn + FrameData.

(** One pass of the request loop writes the structure of the reply, or
    leaves the empty string of the slot. *)
Lemma request_one_fills (client : Client) (pre : list string) (m : nat) :
  request_one request_pose (client, pre ++ replicate (S m) "") (length pre)
  = (fst (request_pose client),
     (pre ++ [pose_of (snd (request_pose client))]) ++ replicate m "").
Proof.
  unfold request_one. cbn [fst snd].
  destruct (request_pose client) as [c1 [e|frame]]; cbn [fst snd pose_of].
  - rewrite <- app_assoc. reflexivity.
  - destruct (frame !! "pose_pdb") as [pose_pdb|]; cbn [default].
    + replace (length pre) with (length pre + 0)%nat at 1 by lia.
      rewrite insert_app_r, <- app_assoc. reflexivity.
    + rewrite <- app_assoc. reflexivity.
Qed.

Lemma request_loop (n : nat) :
  forall (client : Client) (pre : list string) (m : nat),
  foldl (request_one request_pose) (client, pre ++ replicate (n + m) "") (seq (length pre) n)
  = (fst (replies request_pose n client),
     pre ++ map pose_of (snd (replies request_pose n client)) ++ replicate m "").
Proof.
  induction n as [|n IH]; intros client pre m.
  - reflexivity.
  - cbn [seq foldl Nat.add replies].
    rewrite request_one_fills.
    destruct (request_pose client) as [c1 r] eqn:Hr. cbn [fst snd].
    specialize (IH c1 (pre ++ [pose_of r]) m).
    rewrite length_app in IH. cbn [length] in IH.
    replace (length pre + 1)%nat with (S (length pre)) in IH by lia.
    rewrite IH.
    destruct (replies request_pose n c1) as [c2 rs]. cbn [fst snd map].
    rewrite <- app_assoc. reflexivity.
Qed.

(** X10. The request cell asks the server 40 times, one request after
    the other on the same client, and keeps the non-empty structures of
    the replies in the order of the requests: a request that raises, a
    reply without ["pose_pdb"] and an empty structure leave no entry.
    So the result has at most 40 entries, none of them empty, and it is
    empty when no request gave a structure. *)
Theorem request_frames_keeps_received_poses (client : Client) :
  request_frames request_pose client
  = (fst (replies request_pose 40 client),
     filter (fun frame => frame <> "") (map pose_of (snd (replies request_pose 40 client))))
  /\ (length (snd (request_frames request_pose client)) <= 40)%nat
  /\ ("" ∉ snd (request_frames request_pose client))
  /\ (Forall (fun reply => pose_of reply = "") (snd (replies request_pose 40 client)) ->
      snd (request_frames request_pose client) = []).
Proof.
  assert (Heq : request_frames request_pose client
    = (fst (replies request_pose 40 client),
       filter (fun frame => frame <> "")
         (map pose_of (snd (replies request_pose 40 client))))).
  { unfold request_frames. cbv zeta. rewrite length_replicate.
    pose proof (request_loop 40 client [] 0) as H.
    cbn [app length Nat.add] in H. rewrite H. cbn [fst snd replicate].
    rewrite app_nil_r. reflexivity. }
  assert (Hlen : forall n c, length (snd (replies request_pose n c)) = n).
  { induction n as [|n IHn]; intros c; [reflexivity|].
    cbn [replies]. destruct (request_pose c) as [c1 r].
    specialize (IHn c1). destruct (replies request_pose n c1) as [c2 rs].
    cbn in *. lia. }
  rewrite Heq. cbn [snd]. split; [reflexivity|]. split; [|split].
  - etransitivity; [apply length_filter|]. rewrite length_map, Hlen. lia.
  - intros H. apply list_elem_of_filter in H. destruct H as [H _]. congruence.
  - generalize (snd (replies request_pose 40 client)).
    induction 1 as [|r rs Hr _ IH]; [reflexivity|].
    cbn [map]. rewrite filter_cons_False; [exact IH|]. intros H. exact (H Hr).
Qed.

(** The conversion loop from position [length done] on. *)
Lemma convert_loop (frames : list string) :
  forall (done rest : list framedata_item) (ds : list FrameData),
  length rest = length frames ->
  Forall2 (fun frame d => convert_pdb_string_to_framedata frame = inr d) frames ds ->
  convert_from convert_pdb_string_to_framedata (length done) frames (done ++ rest)
  = (done ++ map Converted ds, None).
Proof.
  induction frames as [|frame frames IH]; intros done rest ds Hlen Hall.
  - inversion Hall; subst. destruct rest; [|discriminate]. reflexivity.
  - inversion Hall as [|? d ? ds' Hd Hds]; subst.
    destruct rest as [|x rest]; [discriminate|].
    cbn [convert_from]. rewrite Hd.
    replace (length done) with (length done + 0)%nat at 2 by lia.
    rewrite insert_app_r. cbn [insert list_insert].
    specialize (IH (done ++ [Converted d]) rest ds').
    rewrite length_app, <- app_assoc in IH. cbn [length app] in IH.
    replace (length done + 1)%nat with (S (length done)) in IH by lia.
    rewrite IH; [|cbn in Hlen; lia|exact Hds].
    rewrite <- app_assoc. reflexivity.
Qed.

Lemma convert_loop_fails (pre : list string) :
  forall (done rest : list framedata_item) (ds : list FrameData)
         (frame : string) (post : list string) (e : exn),
  length rest = length (pre ++ frame :: post) ->
  Forall2 (fun frame d => convert_pdb_string_to_framedata frame = inr d) pre ds ->
  convert_pdb_string_to_framedata frame = inl e ->
  convert_from convert_pdb_string_to_framedata (length done) (pre ++ frame :: post)
    (done ++ rest)
  = (done ++ map Converted ds ++ drop (length pre) rest, Some e).
Proof.
  induction pre as [|frame0 pre IH]; intros done rest ds frame post e Hlen Hall He.
  - inversion Hall; subst. cbn [app convert_from map length drop]. rewrite He. reflexivity.
  - inversion Hall as [|? d ? ds' Hd Hds]; subst.
    destruct rest as [|x rest]; [discriminate|].
    cbn [app convert_from]. rewrite Hd.
    replace (length done) with (length done + 0)%nat at 2 by lia.
    rewrite insert_app_r. cbn [insert list_insert].
    specialize (IH (done ++ [Converted d]) rest ds' frame post e).
    rewrite <- app_assoc in IH. cbn [app] in IH.
    replace (length (done ++ [Converted d])) with (S (length done)) in IH
      by (rewrite length_app; cbn; lia).
    rewrite IH; [|cbn in Hlen; lia|exact Hds|exact He].
    cbn [map length drop app]. rewrite <- app_assoc. reflexivity.
Qed.

(** X11. The conversion cell fills [all_framedata] from the front.
    When every structure converts, [all_framedata] holds the converted
    frames in the order of the structures and no string is left in it.
    When one does not, the exception of the first such structure leaves
    the cell and [all_framedata] stays half converted: the frames of
    the structures before it, then the empty strings it was created
    with, one for the failing structure and one for each structure
    after it; its length is that of [frames] in both cases. *)
Theorem convert_frames_all_or_first_error (frames : list string) :
  (forall ds,
     Forall2 (fun frame d => convert_pdb_string_to_framedata frame = inr d) frames ds ->
     convert_frames convert_pdb_string_to_framedata frames = (map Converted ds, None)
     /\ length (map Converted ds) = length frames) /\
  (forall pre frame post ds e,
     frames = pre ++ frame :: post ->
     Forall2 (fun frame d => convert_pdb_string_to_framedata frame = inr d) pre ds ->
     convert_pdb_string_to_framedata frame = inl e ->
     convert_frames convert_pdb_string_to_framedata frames
     = (map Converted ds ++ replicate (S (length post)) (Placeholder ""), Some e)
     /\ length (map Converted ds ++ replicate (S (length post)) (@Placeholder FrameData ""))
        = length frames).
Proof.
  split.
  - intros ds Hall. split.
    + exact (convert_loop frames [] _ ds (length_replicate _ _) Hall).
    + rewrite length_map. symmetry. exact (Forall2_length _ _ _ Hall).
  - intros pre frame post ds e -> Hall He. split.
    + refine (eq_trans (convert_loop_fails pre [] _ ds frame post e
                          (length_replicate _ _) Hall He) _).
      rewrite length_app, drop_replicate. cbn [app length].
      replace (length pre + S (length post) - length pre)%nat with (S (length post)) by lia.
      reflexivity.
    + rewrite !length_app, length_map, length_replicate. cbn [length].
      rewrite (Forall2_length _ _ _ Hall). reflexivity.
Qed.

End NotebookProps.

(** ** The properties on the sample values *)

(** X1 on the sample scheduler whose worker has just started: four
    passes over three frames. *)
Lemma playback_sends_frames_in_order_witness :
  let w' := pool_run accepting (4 * 12) demo_started in
  sent w' = sent demo_started ++ frames_from (frames demo_started) (frame_index demo_started) 4 /\
  frame_index w'
  = (frame_index demo_started + Z.of_nat 4) mod Z.of_nat (length (frames demo_started)) /\
  threads w' = threads demo_started /\ _cancelled w' = false /\
  frames w' = frames demo_started /\
  _run_task w' = _run_task demo_started /\ futures w' = futures demo_started.
Proof.
  apply (playback_sends_frames_in_order accepting accepting_accepts 4 0%nat demo_started).
  - vm_compute. reflexivity.
  - vm_compute. reflexivity.
  - unfold index_ok. vm_compute. split; [discriminate | reflexivity].
Defined.



(** X4 on [step()] with a publisher that rejects the frame. *)
Lemma lock_released_on_every_exit_witness :
  (_cancel_lock (snd (exec rejecting 30 1%nat step demo_fresh)) = Unlocked \/
   _cancel_lock (snd (exec rejecting 30 1%nat step demo_fresh)) = LockedBy 1%nat 0) /\
  (fst (exec rejecting 30 1%nat step demo_fresh) = Returned tt \/
   (exists e, fst (exec rejecting 30 1%nat step demo_fresh) = Raised e) ->
   _cancel_lock (snd (exec rejecting 30 1%nat step demo_fresh)) = Unlocked).
Proof.
  apply (lock_released_on_every_exit rejecting 30 1%nat step demo_fresh).
  - right. right. reflexivity.
  - exact I.
  - reflexivity.
  - apply surjective_pairing.
Defined.



(** X8 on a new scheduler. *)
Lemma blocking_run_playback_witness :
  (_cancelled demo_fresh = true ->
   forall fuel, (15 <= fuel)%nat ->
   exec accepting fuel 1%nat (run_playback true) demo_fresh
   = (Returned tt, with_cancelled false demo_fresh)) /\
  (_cancelled demo_fresh = false ->
   forall fuel, fst (exec accepting fuel 1%nat (run_playback true) demo_fresh) = OutOfFuel).
Proof.
  apply (blocking_run_playback accepting accepting_accepts 1%nat demo_fresh).
  - vm_compute. reflexivity.
  - unfold index_ok. vm_compute. split; [discriminate | reflexivity].
Defined.

(** X9 on a new scheduler. *)
Lemma run_playback_submits_one_task_witness :
  let f := fresh (dom (futures demo_fresh)) in
  let w' := with_run_task (Some f)
              (with_threads (mkExecutor (queue (threads demo_fresh) ++ [(f, bound_run)])
                                        (active (threads demo_fresh)))
                 (with_futures (<[f := PENDING]> (futures demo_fresh)) demo_fresh)) in
  exec accepting 20 1%nat (run_playback false) demo_fresh = (Returned tt, w') /\
  futures demo_fresh !! f = None /\
  is_running_value w' = true /\
  exec accepting 20 1%nat (run_playback true) w'
  = (Raised (RuntimeError "The trajectory is already playing on a thread!"), w').
Proof.
  apply (run_playback_submits_one_task accepting 20 1%nat true demo_fresh).
  - lia.
  - vm_compute. reflexivity.
Defined.

(** X10 on the sample client, whose every third request fails. *)
Lemma request_frames_keeps_received_poses_witness :
  request_frames demo_request_pose 0%nat
  = (fst (replies demo_request_pose 40 0%nat),
     filter (fun frame => frame <> "")
       (map pose_of (snd (replies demo_request_pose 40 0%nat))))
  /\ (length (snd (request_frames demo_request_pose 0%nat)) <= 40)%nat
  /\ ("" ∉ snd (request_frames demo_request_pose 0%nat))
  /\ (Forall (fun reply => pose_of reply = "") (snd (replies demo_request_pose 40 0%nat)) ->
      snd (request_frames demo_request_pose 0%nat) = []).
Proof.
  apply (request_frames_keeps_received_poses demo_request_pose 0%nat).
Defined.

(** X11 on two structures that convert, and on an empty structure
    between them. *)
Lemma convert_frames_all_or_first_error_witness :
  (convert_frames demo_convert ["ATOM"; "HETATM"] = (map Converted [4; 6]%nat, None)
   /\ length (map (@Converted nat) [4; 6]%nat) = length ["ATOM"; "HETATM"]) /\
  (convert_frames demo_convert ["ATOM"; ""; "HETATM"]
   = (map Converted [4%nat] ++ replicate (S (length ["HETATM"])) (Placeholder ""),
      Some (RuntimeError "empty structure"))
   /\ length (map Converted [4%nat] ++ replicate (S (length ["HETATM"])) (@Placeholder nat ""))
      = length ["ATOM"; ""; "HETATM"]).
Proof.
  split.
  - apply (proj1 (convert_frames_all_or_first_error demo_convert ["ATOM"; "HETATM"])).
    repeat constructor.
  - apply (proj2 (convert_frames_all_or_first_error demo_convert ["ATOM"; ""; "HETATM"])
             ["ATOM"] "" ["HETATM"] [4%nat]).
    + reflexivity.
    + repeat constructor.
    + reflexivity.
Defined.

(** X12 on the three sample callers. *)
Lemma demo_mixed_callers (i : nat) (p : prog nat unit) :
  [play; reset; step] !! i = Some p -> exists c, p = api_prog c.
Proof.
  destruct i as [|[|[|i]]]; cbn; intros H; try discriminate; injection H as <-.
  - exists Call_play. reflexivity.
  - exists Call_reset. reflexivity.
  - exists Call_step. reflexivity.
Defined.

Lemma frame_index_in_range_under_interleaving_witness :
  frames (world demo_mixed) = demo_frames /\
  0 <= frame_index (world demo_mixed) < Z.of_nat (length demo_frames).
Proof.
  apply (frame_index_in_range_under_interleaving accepting demo_frames tt
           [play; reset; step] demo_mixed_turns demo_mixed).
  - discriminate.
  - exact demo_mixed_callers.
  - vm_compute. reflexivity.
Defined.

(** X13 on the sample scheduler playing from index 1: frame 0, which
    is 10, goes out under index 1, where the sequence holds 20. *)
Lemma reset_between_reads_mislabels_frame_witness :
  (frame_index demo_replaying = 1 /\
   frames demo_replaying !! 0%nat = Some 10%nat /\
   frames demo_replaying !! 1%nat = Some 20%nat) /\
  exec accepting (2 + 5) 1%nat reset (pool_run accepting 1 demo_replaying)
  = (Returned tt, with_frame_index 0 (pool_run accepting 1 demo_replaying)) /\
  sent (pool_run accepting 4 (with_frame_index 0 (pool_run accepting 1 demo_replaying)))
  = sent demo_replaying ++ [(frame_index demo_replaying, 10%nat)].
Proof.
  split; [repeat split; vm_compute; reflexivity|].
  apply (reset_between_reads_mislabels_frame accepting accepting_accepts 5 1%nat 1%nat
           demo_replaying 10%nat).
  - vm_compute. reflexivity.
  - vm_compute. reflexivity.
Defined.

(** X14 on the sample scheduler after [pause()] and
    [cancel_playback()]. *)
Lemma stale_flag_swallows_play_witness :
  let w := with_cancelled true demo_paused in
  let f := fresh (dom (futures w)) in
  let w1 := with_run_task (Some f)
              (with_threads (mkExecutor [(f, bound_run)] None)
                 (with_futures (<[f := PENDING]> (futures w)) w)) in
  exec accepting 30 1%nat play w = (Returned tt, w1) /\
  is_running_value w1 = true /\
  pool_run accepting 5 w1
  = with_cancelled false
      (with_run_task (Some f)
         (with_futures (<[f := FINISHED None]> (<[f := RUNNING]> (<[f := PENDING]> (futures w)))) w)) /\
  sent (pool_run accepting 5 w1) = sent w /\
  is_running_value (pool_run accepting 5 w1) = false.
Proof.
  apply (stale_flag_swallows_play accepting 30 1%nat (with_cancelled true demo_paused)).
  - lia.
  - vm_compute. reflexivity.
  - vm_compute. reflexivity.
  - reflexivity.
  - vm_compute. reflexivity.
Defined.

(** X15 on the sample scheduler whose publisher rejects the frame. *)
Lemma worker_stops_silently_on_publisher_error_witness :
  pool_run rejecting 2 demo_sending
  = with_threads (mkExecutor (queue (threads demo_sending)) None)
      (with_futures (<[0%nat := FINISHED (Some (PublisherError 1))]> (futures demo_sending))
         (with_publisher tt (sent demo_sending) demo_sending)) /\
  (_run_task demo_sending = Some 0%nat ->
   is_running_value (pool_run rejecting 2 demo_sending) = false) /\
  sent (pool_run rejecting 2 demo_sending) = sent demo_sending /\
  frame_index (pool_run rejecting 2 demo_sending) = frame_index demo_sending /\
  _cancelled (pool_run rejecting 2 demo_sending) = _cancelled demo_sending.
Proof.
  apply (worker_stops_silently_on_publisher_error rejecting 0%nat 0 10%nat demo_sending tt
           (PublisherError 1)).
  - vm_compute. reflexivity.
  - reflexivity.
Defined.

(** X16 on a new scheduler over no frames. *)
Lemma step_on_empty_sequence_witness :
  exec accepting 20 1%nat step demo_empty = (Raised IndexError, demo_empty).
Proof.
  apply (step_on_empty_sequence accepting 20 1%nat demo_empty).
  - lia.
  - reflexivity.
  - right. reflexivity.
  - reflexivity.
Defined.



(** ** [step()] and overlapping calls on the sample values *)

(** C5 (amended) on the sample scheduler with playback running: the
    caller first, and the interleaving [demo_step_turns]. *)
Lemma step_emits_once_and_advances_witness :
  (exists w1 fr w',
      exec accepting 50 1%nat (cancel_playback true)
        (with_cancel_lock_state (LockedBy 1%nat 0) demo_playing)
      = (Returned tt, w1) /\
      exec accepting 50 1%nat step demo_playing = (Returned tt, w') /\
      step_done demo_playing w1 fr w' /\
      frame_index (steps accepting 50 1%nat (S 2) demo_playing)
      = (frame_index w1 + Z.of_nat (S 2)) mod Z.of_nat (length (frames demo_playing)) /\
      length (sent (steps accepting 50 1%nat (S 2) demo_playing))
      = (length (sent w1) + S 2)%nat)
  /\
  (exists ts1 ts2 s1 fr,
      demo_step_turns = ts1 ++ ts2 /\
      run_turns accepting ts1 (mkSystem [step] demo_playing) = Some s1 /\
      caller_turns ts2 /\ step_done demo_playing (world s1) fr (world demo_stepped)).
Proof.
  destruct (step_emits_once_and_advances accepting accepting_accepts 50 1%nat demo_playing 2
              demo_step_turns demo_stepped) as [H1 H2].
  - lia.
  - vm_compute. lia.
  - exact demo_playing_consistent.
  - vm_compute. reflexivity.
  - vm_compute. reflexivity.
  - split; [exact H1|]. apply H2; vm_compute; reflexivity.
Defined.

(** C5, counterexample: playback was running and was stopped by an
    exception of the publisher.  The next [step()] raises that
    exception when it waits for the worker: it sends no frame and does
    not move the index, although the publisher would accept the frame
    now. *)
Lemma step_after_failed_playback_sends_nothing :
  (1 <= length (frames demo_flaky_failed))%nat /\
  snd (flaky (frame_index demo_flaky_failed) 10%nat (frame_publisher demo_flaky_failed))
  = None /\
  exec flaky 50 1%nat step demo_flaky_failed
  = (Raised (PublisherError 1), with_cancelled true demo_flaky_failed) /\
  sent (snd (exec flaky 50 1%nat step demo_flaky_failed)) = sent demo_flaky_failed /\
  frame_index (snd (exec flaky 50 1%nat step demo_flaky_failed))
  = frame_index demo_flaky_failed /\
  ~ (exists fr,
       sent (snd (exec flaky 50 1%nat step demo_flaky_failed))
       = sent demo_flaky_failed ++ [(frame_index demo_flaky_failed, fr)]).
Proof.
  split; [vm_compute; lia|].
  split; [vm_compute; reflexivity|].
  split; [vm_compute; reflexivity|].
  split; [vm_compute; reflexivity|].
  split; [vm_compute; reflexivity|].
  intros [fr H]. vm_compute in H. discriminate H.
Qed.

(** After the race a caller of [pause()], [step()] or [play()] waits
    for the second worker, which starts when the first has returned
    and then plays with the flag clear. *)
Lemma raced_caller_never_returns (p q : prog nat unit) :
  (forall m, exec accepting (10 + m) 1%nat p (world demo_raced)
             = exec accepting m 1%nat q (snd (exec accepting 10 1%nat pause (world demo_raced)))) ->
  fst (exec accepting 10 1%nat p (world demo_raced)) = OutOfFuel ->
  result_of q = None ->
  (forall w : @World nat unit, future_state w 1%nat = Some RUNNING ->
                               pstep accepting 1%nat q w = None) ->
  forall fuel, fst (exec accepting fuel 1%nat p (world demo_raced)) = OutOfFuel.
Proof.
  intros Hprefix Hten Hres Hblk fuel.
  destruct (le_lt_dec 10 fuel) as [Hle|Hlt].
  - replace fuel with (10 + (fuel - 10))%nat by lia. rewrite Hprefix.
    apply (blocked_caller_never_returns accepting accepting_accepts 1%nat 1%nat q Hres Hblk
             (fuel - 10) W_loop).
    + vm_compute. reflexivity.
    + vm_compute. reflexivity.
    + exact I.
    + vm_compute. reflexivity.
    + exact I.
    + unfold index_ok. vm_compute. split; [discriminate | reflexivity].
  - destruct (exec accepting fuel 1%nat p (world demo_raced)) as [r w'] eqn:He.
    destruct r as [a|e| |]; try reflexivity;
      apply (exec_mono accepting fuel) with (m := 10%nat) in He;
      try discriminate; try lia;
      rewrite He in Hten; discriminate Hten.
Qed.

(** C8. Two overlapping calls of [play()] on a new scheduler both
    return normally although each has submitted a worker: the worker
    of the first call runs, that of the second is queued behind it,
    the first was never stopped and its handle is lost.  From then on
    playback cannot be stopped: [pause()], [step()] and [play()] take
    the lock, set the flag and wait for the second worker, which
    starts once the first has cleared the flag and then plays without
    end; the call never returns and keeps the lock. *)
Theorem concurrent_play_spawns_second_worker :
  run_turns accepting racing_schedule two_players = Some demo_raced /\
  callers demo_raced = [Ret tt; Ret tt] /\
  future_state (world demo_raced) 0%nat = Some RUNNING /\
  future_state (world demo_raced) 1%nat = Some PENDING /\
  queue (threads (world demo_raced)) = [(1%nat, bound_run)] /\
  _run_task (world demo_raced) = Some 1%nat /\
  _cancelled (world demo_raced) = false /\
  _cancel_lock (world demo_raced) = Unlocked /\
  (forall fuel, fst (exec accepting fuel 1%nat pause (world demo_raced)) = OutOfFuel) /\
  (forall fuel, fst (exec accepting fuel 1%nat step (world demo_raced)) = OutOfFuel) /\
  (forall fuel, fst (exec accepting fuel 1%nat play (world demo_raced)) = OutOfFuel) /\
  _cancel_lock (snd (exec accepting 40 1%nat pause (world demo_raced))) = LockedBy 1%nat 0 /\
  future_state (snd (exec accepting 40 1%nat pause (world demo_raced))) 0%nat
  = Some (FINISHED None) /\
  future_state (snd (exec accepting 40 1%nat pause (world demo_raced))) 1%nat
  = Some RUNNING.
Proof.
  split; [vm_compute; reflexivity|].
  do 7 (split; [vm_compute; reflexivity|]).
  split; [|split; [|split]].
  - apply (raced_caller_never_returns pause
             (Finally (wait_then_clear 1%nat) (Prim Lock_release))).
    + intros m. vm_compute. reflexivity.
    + vm_compute. reflexivity.
    + reflexivity.
    + intros w H. cbn. rewrite H. reflexivity.
  - apply (raced_caller_never_returns step (step_with (wait_then_clear 1%nat))).
    + intros m. vm_compute. reflexivity.
    + vm_compute. reflexivity.
    + reflexivity.
    + intros w H. cbn. rewrite H. reflexivity.
  - apply (raced_caller_never_returns play
             (Finally (wait_then_clear 1%nat) (Prim Lock_release);; run_playback false)).
    + intros m. vm_compute. reflexivity.
    + vm_compute. reflexivity.
    + reflexivity.
    + intros w H. cbn. rewrite H. reflexivity.
  - repeat split; vm_compute; reflexivity.
Qed.
